(** * Analytics core of [gsox_vs_benchmarks.py]

    A shallow embedding of the time-series pipeline of
    [src/gsox_vs_benchmarks.py]: the alignment of the per-ticker frames in
    [main], the rebased levels and daily returns, the rolling statistics
    ([rolling_period_return], [rolling_beta], the rolling correlation of
    [compute_pairwise_metrics]) and [drawdown].

    Number model.  A pandas cell is a float64.  Finite floats are modelled
    by exact rationals ([Qc], canonical fractions, so that equality is
    Leibniz equality); the three special values that the code can produce
    are kept: [NaN] (the missing-value marker of pandas), [PInf] and [NInf]
    (the result of dividing a non-zero number by zero).  Rounding, overflow
    and the sign of zero are not modelled there: what is proved of these
    definitions holds of the code when its operations are exact.  Where
    rounding decides what the code answers, the module [F64] runs the same
    rolling moments on binary64 floats.

    Frames and errors.  A DataFrame is its index (dates as day ordinals)
    and its named columns; a Series that shares the index of its frame is
    the list of its cells.  An exception is a [None] or a constructor of
    [outcome]; what [main] prints to stderr is returned as a list of
    lines.  The first part of the file holds the definitions, the second
    part the properties. *)

From Stdlib Require Import String Ascii.
From Stdlib Require Import ZArith QArith Qcanon Bool Lia Arith List.
From Stdlib Require Import Sorting.Sorted Sorting.Permutation.
From Stdlib Require Floats.
Import ListNotations.

Set Implicit Arguments.

Open Scope nat_scope.
Open Scope list_scope.

(** ** Cells *)

Inductive cell : Type :=
| NaN
| PInf
| NInf
| Fin (q : Qc).

Definition qz (z : Z) : Qc := Q2Qc (inject_Z z).

(** [pd.isna] / [pd.notna]: only NaN is missing, an infinity is not. *)
Definition isna (c : cell) : bool :=
  match c with NaN => true | _ => false end.

Definition notna (c : cell) : bool := negb (isna c).

Definition is_fin (c : cell) : bool :=
  match c with Fin _ => true | _ => false end.

Definition is_inf (c : cell) : bool :=
  match c with PInf | NInf => true | _ => false end.

Definition cell_neg (c : cell) : cell :=
  match c with
  | NaN => NaN
  | PInf => NInf
  | NInf => PInf
  | Fin q => Fin (- q)
  end.

Definition cell_add (a b : cell) : cell :=
  match a, b with
  | NaN, _ | _, NaN => NaN
  | PInf, NInf | NInf, PInf => NaN
  | PInf, _ | _, PInf => PInf
  | NInf, _ | _, NInf => NInf
  | Fin x, Fin y => Fin (x + y)
  end.

Definition cell_sub (a b : cell) : cell := cell_add a (cell_neg b).

(** The infinity carrying the sign of the comparison [0 ?= q]; NaN when the
    sign is that of zero. *)
Definition signed_inf (sgn : comparison) : cell :=
  match sgn with
  | Lt => PInf
  | Gt => NInf
  | Eq => NaN
  end.

Definition sign_of (q : Qc) : comparison := (0 ?= q)%Qc.

Definition cell_mul (a b : cell) : cell :=
  match a, b with
  | NaN, _ | _, NaN => NaN
  | PInf, PInf | NInf, NInf => PInf
  | PInf, NInf | NInf, PInf => NInf
  | PInf, Fin q | Fin q, PInf => signed_inf (sign_of q)
  | NInf, Fin q | Fin q, NInf => cell_neg (signed_inf (sign_of q))
  | Fin x, Fin y => Fin (x * y)
  end.

(** Float division: a finite number over zero is an infinity of its sign,
    zero over zero and infinity over infinity are NaN; nothing raises. *)
Definition cell_div (a b : cell) : cell :=
  match a, b with
  | NaN, _ | _, NaN => NaN
  | Fin x, Fin y =>
      if Qc_eq_dec y 0 then signed_inf (sign_of x) else Fin (x / y)
  | Fin _, _ => Fin 0
  | _, PInf | _, NInf => NaN
  | PInf, Fin y => match sign_of y with Gt => NInf | _ => PInf end
  | NInf, Fin y => match sign_of y with Gt => PInf | _ => NInf end
  end.

(** [np.maximum] on cells without NaN. *)
Definition cell_leb (a b : cell) : bool :=
  match a, b with
  | NaN, _ | _, NaN => false
  | NInf, _ => true
  | _, PInf => true
  | Fin x, Fin y => match (x ?= y)%Qc with Gt => false | _ => true end
  | _, _ => false
  end.

Definition cell_max (a b : cell) : cell :=
  match a, b with
  | NaN, _ | _, NaN => NaN
  | _, _ => if cell_leb a b then b else a
  end.

Definition cell_eqb (a b : cell) : bool :=
  match a, b with
  | NaN, NaN | PInf, PInf | NInf, NInf => true
  | Fin x, Fin y => Qc_eq_bool x y
  | _, _ => false
  end.

Fixpoint cells_eqb (l m : list cell) : bool :=
  match l, m with
  | [], [] => true
  | a :: l', b :: m' => cell_eqb a b && cells_eqb l' m'
  | _, _ => false
  end.

(** ** Positional helpers shared by Series and DataFrame operations *)

Section Positional.
Variables A B C : Type.

Fixpoint map2 (f : A -> B -> C) (l : list A) (m : list B) : list C :=
  match l, m with
  | x :: l', y :: m' => f x y :: map2 f l' m'
  | _, _ => []
  end.

(** Boolean indexing [s[mask]]: the positions where the mask is True. *)
Fixpoint take_mask (mask : list bool) (l : list A) : list A :=
  match mask, l with
  | b :: mask', x :: l' =>
      if b then x :: take_mask mask' l' else take_mask mask' l'
  | _, _ => []
  end.
End Positional.

(** ** drawdown *)

(** [np.maximum.accumulate]. *)
Fixpoint accumulate_from (m : cell) (l : list cell) : list cell :=
  match l with
  | [] => []
  | x :: l' => let m' := cell_max m x in m' :: accumulate_from m' l'
  end.

Definition maximum_accumulate (l : list cell) : list cell :=
  match l with
  | [] => []
  | x :: l' => x :: accumulate_from x l'
  end.

(** [Series.cummax()] (skipna): missing entries are masked with -inf for the
    accumulation and restored afterwards. *)
Definition cummax (values : list cell) : list cell :=
  let mask := map isna values in
  let y := map (fun v => if isna v then NInf else v) values in
  let result := maximum_accumulate y in
  map2 (fun (m : bool) r => if m then NaN else r) mask result.

(** [[
def drawdown(levels):
    roll_max = levels.cummax()
    return (levels / roll_max) - 1.0
]] *)
Definition drawdown (levels : list cell) : list cell :=
  let roll_max := cummax levels in
  map (fun c => cell_sub c (Fin 1)) (map2 cell_div levels roll_max).

(** ** Index labels

    Dates are day ordinals.  The operations below follow
    [Index.equals], [Index.is_unique], [pd.unique],
    [Index.duplicated(keep="first")] and [Index.union(other, sort=False)]. *)

Definition mem (d : Z) (l : list Z) : bool := existsb (Z.eqb d) l.

Fixpoint is_unique (l : list Z) : bool :=
  match l with
  | [] => true
  | d :: l' => negb (mem d l') && is_unique l'
  end.

Definition index_equals (a b : list Z) : bool :=
  if list_eq_dec Z.eq_dec a b then true else false.

(** Distinct labels in order of first appearance. *)
Fixpoint unique_from (seen : list Z) (l : list Z) : list Z :=
  match l with
  | [] => []
  | d :: l' =>
      if mem d seen then unique_from seen l'
      else d :: unique_from (d :: seen) l'
  end.

Definition unique (l : list Z) : list Z := unique_from [] l.

(** [duplicated(keep="first")]: True at every occurrence of a label except
    its first one. *)
Fixpoint duplicated_from (seen : list Z) (l : list Z) : list bool :=
  match l with
  | [] => []
  | d :: l' => mem d seen :: duplicated_from (d :: seen) l'
  end.

Definition duplicated_first (l : list Z) : list bool := duplicated_from [] l.

(** [algos.union_with_duplicates]: every distinct label, repeated as often
    as in the side where it occurs most. *)
Definition union_with_duplicates (lvals rvals : list Z) : list Z :=
  flat_map
    (fun v => repeat v (Nat.max (count_occ Z.eq_dec lvals v)
                                (count_occ Z.eq_dec rvals v)))
    (unique (lvals ++ rvals)).

(** [self.union(other, sort=False)]: [self] when [other] is empty or equal
    to it, [other] when [self] is empty, the union with multiplicities when
    [other] repeats a label, and otherwise [self] followed by the labels
    of [other] that it lacks.  (On a DatetimeIndex pandas may return the
    same labels in ascending order; [sort_index] follows in [main].) *)
Definition index_union (self other : list Z) : list Z :=
  if (length other =? 0) || index_equals self other then self
  else if length self =? 0 then other
  else if negb (is_unique other) then union_with_duplicates self other
  else self ++ filter (fun d => negb (mem d self)) other.

Definition union_indexes (indexes : list (list Z)) : list Z :=
  match indexes with
  | [] => []
  | first :: rest => fold_left index_union rest first
  end.

(** Position of the first occurrence of a label. *)
Fixpoint get_loc (d : Z) (labels : list Z) : option nat :=
  match labels with
  | [] => None
  | e :: labels' =>
      if Z.eqb d e then Some O else option_map S (get_loc d labels')
  end.

(** ** DataFrames

    A frame is column-major, as in pandas: one shared index and one list of
    cells per named column (all of the length of the index in a
    well-formed frame). *)

Record DataFrame : Type := mkDF {
  index : list Z;
  columns : list (string * list cell)
}.

Definition wf_frame (df : DataFrame) : Prop :=
  Forall (fun c => length (snd c) = length (index df)) (columns df).

Definition map_columns (f : list cell -> list cell) (df : DataFrame)
  : DataFrame :=
  mkDF (index df) (map (fun c => (fst c, f (snd c))) (columns df)).

(** [df.empty]: some axis has length zero. *)
Definition empty (df : DataFrame) : bool :=
  (length (index df) =? 0) || (length (columns df) =? 0).

Definition column_names (df : DataFrame) : list string :=
  map fst (columns df).

Fixpoint assoc (A : Type) (k : string) (l : list (string * A)) : option A :=
  match l with
  | [] => None
  | (k', v) :: l' => if String.eqb k k' then Some v else assoc k l'
  end.

(** [df[name]]; [None] stands for KeyError. *)
Definition getcol (df : DataFrame) (name : string) : option (list cell) :=
  assoc name (columns df).

(** Boolean row selection [df[mask]]. *)
Definition take_rows (mask : list bool) (df : DataFrame) : DataFrame :=
  mkDF (take_mask mask (index df))
       (map (fun c => (fst c, take_mask mask (snd c))) (columns df)).

(** The value of a column at a date: the cell of the first row with that
    label, a missing cell when the column has no such row. *)
Definition value_at (labels : list Z) (values : list cell) (d : Z) : cell :=
  match get_loc d labels with
  | Some i => nth i values NaN
  | None => NaN
  end.

(** Values of a column relabelled from [labels] to [new_labels]; a label
    absent from [labels] gives a missing cell. *)
Definition reindex_values (labels new_labels : list Z) (values : list cell)
  : list cell :=
  map (value_at labels values) new_labels.

(** [pd.concat(objs, axis=1)]: outer join on the index.  A frame whose
    index already is the combined index is taken as it is; any other frame
    is reindexed, which pandas refuses (InvalidIndexError) when that frame
    has repeated labels.  An empty list is refused as well (ValueError).
    [None] stands for the exception. *)
Definition concat_axis1 (objs : list DataFrame) : option DataFrame :=
  match objs with
  | [] => None
  | _ =>
      let new_index := union_indexes (map index objs) in
      if forallb (fun o => index_equals (index o) new_index
                           || is_unique (index o)) objs
      then Some (mkDF new_index
             (flat_map (fun o =>
                if index_equals (index o) new_index then columns o
                else map (fun c => (fst c,
                            reindex_values (index o) new_index (snd c)))
                         (columns o)) objs))
      else None
  end.

(** ** sort_index

    [sort_index()] leaves a frame whose labels already ascend as it is;
    otherwise it takes the rows in the order that the sorting routine of
    its [kind] argument returns for the labels.  Line 236 passes no
    [kind]: the default is "quicksort", numpy's introsort, which is not
    stable.  All that is known of its answer is that it lists every
    position once and that the labels ascend in that order; rows with
    the same label may come in any order.  The routine is a parameter of
    the model. *)
Definition sort_kind : Type := list Z -> list nat.

Definition sorts (kind : sort_kind) : Prop :=
  forall labels,
    Permutation (kind labels) (seq 0 (length labels))
    /\ StronglySorted Z.le (map (fun i => nth i labels 0%Z) (kind labels)).

(** One such routine: the stable argsort (insertion of (label, position)
    pairs, kind="stable"). *)
Fixpoint insert_key (p : Z * nat) (l : list (Z * nat)) : list (Z * nat) :=
  match l with
  | [] => [p]
  | q :: l' =>
      if Z.leb (fst p) (fst q) then p :: l else q :: insert_key p l'
  end.

(** Order of the keys. *)
Definition key_le (p q : Z * nat) : Prop := (fst p <= fst q)%Z.

Definition sorted_keys (labels : list Z) : list (Z * nat) :=
  fold_right insert_key [] (combine labels (seq 0 (length labels))).

Definition stable_argsort : sort_kind :=
  fun labels => map snd (sorted_keys labels).

(** Another one, not stable: among rows with the same label the later
    row comes first. *)
Fixpoint insert_key_before (p : Z * nat) (l : list (Z * nat))
  : list (Z * nat) :=
  match l with
  | [] => [p]
  | q :: l' =>
      if Z.ltb (fst p) (fst q) then p :: l else q :: insert_key_before p l'
  end.

Definition latest_first_argsort : sort_kind :=
  fun labels =>
    map snd (fold_right insert_key_before []
               (combine labels (seq 0 (length labels)))).

(** [Index.is_monotonic_increasing]: the labels ascend, repeats allowed. *)
Fixpoint is_monotonic_increasing (labels : list Z) : bool :=
  match labels with
  | [] => true
  | d :: rest =>
      match rest with
      | [] => true
      | e :: _ => Z.leb d e && is_monotonic_increasing rest
      end
  end.

(** The positions in the order in which [sort_index] takes the rows. *)
Definition sort_order (kind : sort_kind) (labels : list Z) : list nat :=
  if is_monotonic_increasing labels then seq 0 (length labels)
  else kind labels.

(** [df.sort_index()] *)
Definition sort_index (kind : sort_kind) (df : DataFrame) : DataFrame :=
  let order := sort_order kind (index df) in
  mkDF (map (fun i => nth i (index df) 0%Z) order)
       (map (fun c => (fst c, map (fun i => nth i (snd c) NaN) order))
            (columns df)).

(** [ffill] / [bfill] of one column. *)
Fixpoint ffill_from (last : cell) (l : list cell) : list cell :=
  match l with
  | [] => []
  | x :: l' =>
      if isna x then last :: ffill_from last l' else x :: ffill_from x l'
  end.

Definition ffill_values (l : list cell) : list cell := ffill_from NaN l.

Fixpoint bfill_values (l : list cell) : list cell :=
  match l with
  | [] => []
  | x :: l' =>
      let r := bfill_values l' in
      (if isna x then hd NaN r else x) :: r
  end.

Definition ffill (df : DataFrame) : DataFrame := map_columns ffill_values df.
Definition bfill (df : DataFrame) : DataFrame := map_columns bfill_values df.

(** Row masks of [dropna]: [how="any"] keeps the rows where all columns are
    present, [how="all"] the rows where at least one is. *)
Definition fold_mask (combine : bool -> bool -> bool) (unit : bool)
           (n : nat) (cols : list (string * list cell)) : list bool :=
  fold_right (fun c acc => map2 combine (map notna (snd c)) acc)
             (repeat unit n) cols.

Definition notna_all (df : DataFrame) : list bool :=
  fold_mask andb true (length (index df)) (columns df).

Definition notna_any (df : DataFrame) : list bool :=
  fold_mask orb false (length (index df)) (columns df).

Definition dropna_any (df : DataFrame) : DataFrame :=
  take_rows (notna_all df) df.

Definition dropna_all (df : DataFrame) : DataFrame :=
  take_rows (notna_any df) df.

(** ** Alignment (lines 236-241 of [main])
[[
    data = pd.concat(panel, axis=1).sort_index()
    data = data[~data.index.duplicated(keep="first")]
    data = data.ffill().bfill()
    data = data.dropna(how="any")
]] *)

Definition concat_sorted_unique (kind : sort_kind) (panel : list DataFrame)
  : option DataFrame :=
  match concat_axis1 panel with
  | None => None
  | Some data =>
      let data := sort_index kind data in
      Some (take_rows (map negb (duplicated_first (index data))) data)
  end.

Definition align (kind : sort_kind) (panel : list DataFrame)
  : option DataFrame :=
  match concat_sorted_unique kind panel with
  | None => None
  | Some data =>
      let data := bfill (ffill data) in
      Some (dropna_any data)
  end.

(** ** Rebased levels and daily returns (lines 248 and 251 of [main]) *)

Fixpoint first_non_nan (series : list cell) : cell :=
  match series with
  | [] => NaN
  | v :: rest => if notna v then v else first_non_nan rest
  end.

(** [s.iloc[0]]; [None] stands for IndexError. *)
Definition iloc0 (s : list cell) : option cell :=
  match s with
  | [] => None
  | v :: _ => Some v
  end.

(** [lambda s: (s / s.iloc[0]) * 100.0] *)
Definition rebase_series (s : list cell) : option (list cell) :=
  match iloc0 s with
  | None => None
  | Some s0 => Some (map (fun v => cell_mul (cell_div v s0) (Fin (qz 100))) s)
  end.

Fixpoint apply_columns (func : list cell -> option (list cell))
         (cols : list (string * list cell))
  : option (list (string * list cell)) :=
  match cols with
  | [] => Some []
  | (name, s) :: cols' =>
      match func s, apply_columns func cols' with
      | Some s', Some r => Some ((name, s') :: r)
      | _, _ => None
      end
  end.

(** [DataFrame.apply(func)] column by column.  On a frame with an axis of
    length zero pandas only probes [func] on an empty Series, swallows any
    exception and returns a copy of the frame. *)
Definition df_apply (func : list cell -> option (list cell))
           (df : DataFrame) : option DataFrame :=
  if empty df then Some df
  else match apply_columns func (columns df) with
       | Some cols => Some (mkDF (index df) cols)
       | None => None
       end.

Definition levels_rebased (data : DataFrame) : option DataFrame :=
  df_apply rebase_series data.

(** Rebasing as the specification words it: every value divided by the
    first non-missing value of the column, times 100.  Only used to be
    compared with [levels_rebased]. *)
Definition spec_rebase (s : list cell) : list cell :=
  map (fun v => cell_mul (cell_div v (first_non_nan s)) (Fin (qz 100))) s.

Definition complete (df : DataFrame) : Prop :=
  Forall (fun c => forallb notna (snd c) = true) (columns df).

(** [s.shift(1)] *)
Definition shift1 (s : list cell) : list cell :=
  match s with
  | [] => []
  | _ => NaN :: removelast s
  end.

(** [pct_change]: [s / s.shift(1) - 1].  (The padding that older pandas
    versions apply first is the identity on a column without missing
    cells, see [ffill_values_complete].) *)
Definition pct_change_values (s : list cell) : list cell :=
  map (fun c => cell_sub c (Fin 1)) (map2 cell_div s (shift1 s)).

Definition pct_change (df : DataFrame) : DataFrame :=
  map_columns pct_change_values df.

(** [rets = data.pct_change().dropna()] *)
Definition returns (data : DataFrame) : DataFrame :=
  dropna_any (pct_change data).

(** ** Rolling windows

    [Series.rolling(win)] with the default [min_periods = win].  The window
    of position [i] is [values[max(i+1-win, 0) : i+1]]. *)

(** [_prep_values]: infinities are turned into NaN before any rolling
    aggregation. *)
Definition prep_values (values : list cell) : list cell :=
  map (fun v => if is_inf v then NaN else v) values.

Definition window_bounds (win i : nat) : nat * nat := (i + 1 - win, i + 1).

Definition window_at (values : list cell) (win i : nat) : list cell :=
  let (s, e) := window_bounds win i in
  firstn (e - s) (skipn s values).

Definition count_notna (w : list cell) : nat := length (filter notna w).

(** [np.prod] *)
Definition np_prod (w : list cell) : cell := fold_left cell_mul w (Fin 1).

(** [rolling(win).apply(func, raw=True)]: [func] is called on a window only
    when it holds at least [min_periods] observations. *)
Definition rolling_apply (func : list cell -> cell) (win : nat)
           (values : list cell) : list cell :=
  let x := prep_values values in
  let minp := win in
  map (fun i => let w := window_at x win i in
                if minp <=? count_notna w then func w else NaN)
      (seq 0 (length values)).

(** [[
def rolling_period_return(returns, win):
    return (1.0 + returns).rolling(win).apply(np.prod, raw=True) - 1.0
]] *)
Definition rolling_period_return (returns : list cell) (win : nat)
  : list cell :=
  map (fun c => cell_sub c (Fin 1))
      (rolling_apply np_prod win (map (cell_add (Fin 1)) returns)).

(** The compounded return of the specification,
    [(1 + r_s) * (1 + r_(s+1)) * ... * (1 + r_(s+n-1))]. *)
Fixpoint compound (r : nat -> Qc) (s n : nat) : Qc :=
  match n with
  | O => 1%Qc
  | S n' => ((1 + r s) * compound r (S s) n')%Qc
  end.

(** The observations of a window: its non-missing entries, all finite once
    [prep_values] has been applied. *)
Definition fins (w : list cell) : list Qc :=
  flat_map (fun c => match c with Fin q => [q] | _ => [] end) w.

Definition qsum (l : list Qc) : Qc := fold_right Qcplus 0%Qc l.

Definition qn (n : nat) : Qc := qz (Z.of_nat n).

Definition calc_sum (minp : nat) (obs : list Qc) : cell :=
  let nobs := length obs in
  if (nobs =? 0) && (minp =? 0) then Fin 0
  else if minp <=? nobs then Fin (qsum obs)
  else NaN.

Definition calc_mean (minp : nat) (obs : list Qc) : cell :=
  let nobs := length obs in
  if (minp <=? nobs) && (0 <? nobs) then Fin (qsum obs / qn nobs)
  else NaN.

Definition sq_dev (mean x : Qc) : Qc := ((x - mean) * (x - mean))%Qc.


(** Sample variance: sum of squared deviations from the mean over
    [nobs - ddof]. *)
Definition calc_var (minp ddof : nat) (obs : list Qc) : cell :=
  let nobs := length obs in
  if (minp <=? nobs) && (ddof <? nobs) then
    let mean := (qsum obs / qn nobs)%Qc in
    Fin (qsum (map (sq_dev mean) obs) / qn (nobs - ddof))
  else NaN.

Definition roll (calc : list Qc -> cell) (values : list cell) (win : nat)
  : list cell :=
  map (fun i => calc (fins (window_at values win i)))
      (seq 0 (length values)).

(** [prep_binary]: [X = arg1 + 0 * arg2], [Y = arg2 + 0 * arg1], so that
    each side is missing wherever the other one is. *)
Definition masked_by (a b : cell) : cell :=
  cell_add a (cell_mul (Fin 0) b).

Definition prep_binary (arg1 arg2 : list cell) : list cell * list cell :=
  (map2 masked_by arg1 arg2, map2 masked_by arg2 arg1).

Definition ddof : nat := 1.

(** [notna(c).astype(np.float64)] *)
Definition indicator (c : cell) : cell :=
  Fin (if notna c then 1 else 0)%Qc.

(** Numerator shared by [cov] and [corr]:
    [(mean_x_y - mean_x * mean_y) * (count_x_y / (count_x_y - ddof))]. *)
Definition cov_numerator (x_array y_array : list cell) (win : nat)
  : list cell :=
  let min_periods := win in
  let mean_x_y :=
    roll (calc_mean min_periods) (map2 cell_mul x_array y_array) win in
  let mean_x := roll (calc_mean min_periods) x_array win in
  let mean_y := roll (calc_mean min_periods) y_array win in
  let count_x_y :=
    roll (calc_sum 0)
         (map indicator (map2 cell_add x_array y_array)) win in
  map2 (fun d cnt => cell_mul d (cell_div cnt (cell_sub cnt (Fin (qn ddof)))))
       (map2 cell_sub mean_x_y (map2 cell_mul mean_x mean_y))
       count_x_y.

(** [arg1.rolling(win).cov(arg2)] *)
Definition rolling_cov (arg1 arg2 : list cell) (win : nat) : list cell :=
  let (X, Y) := prep_binary arg1 arg2 in
  cov_numerator (prep_values X) (prep_values Y) win.

(** [x.rolling(win).var()] *)
Definition rolling_var (x : list cell) (win : nat) : list cell :=
  roll (calc_var win ddof) (prep_values x) win.

(** [[
def rolling_beta(y_ret, x_ret, win):
    cov = y_ret.rolling(win).cov(x_ret)
    var = x_ret.rolling(win).var()
    return cov / var
]] *)
Definition rolling_beta (y_ret x_ret : list cell) (win : nat) : list cell :=
  let cov := rolling_cov y_ret x_ret win in
  let var := rolling_var x_ret win in
  map2 cell_div cov var.

Section Correlation.
(** The square root has no exact counterpart on rationals: it is a
    parameter of the model. *)
Variable sqrtq : Qc -> Qc.

(** [c ** 0.5] *)
Definition cell_sqrt (c : cell) : cell :=
  match c with
  | NaN | NInf => NaN
  | PInf => PInf
  | Fin q => match sign_of q with Gt => NaN | _ => Fin (sqrtq q) end
  end.

(** [arg1.rolling(win).corr(arg2)]:
    [numerator / (x_var * y_var) ** 0.5]. *)
Definition rolling_corr (arg1 arg2 : list cell) (win : nat) : list cell :=
  let (X, Y) := prep_binary arg1 arg2 in
  let x_array := prep_values X in
  let y_array := prep_values Y in
  let x_var := roll (calc_var win ddof) x_array win in
  let y_var := roll (calc_var win ddof) y_array win in
  let numerator := cov_numerator x_array y_array win in
  let denominator := map cell_sqrt (map2 cell_mul x_var y_var) in
  map2 cell_div numerator denominator.
End Correlation.

(** An executable stand-in for the square root, exact on the squares of
    rationals; used to run [rolling_corr] on examples. *)
Definition sqrt_floor (q : Qc) : Qc :=
  Q2Qc (Z.sqrt (Qnum q) # Pos.sqrt (Qden q)).

(** ** compute_pairwise_metrics *)

(** The module-level settings of lines 44-45. *)
Definition ROLL_RET_WIN : nat := 63.
Definition ROLL_RISK_WIN : nat := 126.

(** A dict literal: a repeated key keeps its first position and takes the
    last value. *)
Fixpoint dict_set (k : string) (v : list cell)
         (d : list (string * list cell)) : list (string * list cell) :=
  match d with
  | [] => [(k, v)]
  | (k', v') :: d' =>
      if String.eqb k k' then (k, v) :: d' else (k', v') :: dict_set k v d'
  end.

Definition dict_of (items : list (string * list cell))
  : list (string * list cell) :=
  fold_left (fun d kv => dict_set (fst kv) (snd kv) d) items [].

(** [pd.DataFrame({...})] of Series that share the index [idx]. *)
Definition frame_of_dict (idx : list Z) (items : list (string * list cell))
  : DataFrame :=
  mkDF idx (dict_of items).

(** Element-wise [a - b] of two Series on the same index. *)
Definition series_sub (a b : list cell) : list cell := map2 cell_sub a b.

Definition excess_name (asset bench : string) : string :=
  (asset ++ "-vs-" ++ bench)%string.

Definition corr_name (asset bench : string) : string :=
  ("Corr(" ++ asset ++ "," ++ bench ++ ")")%string.

Definition beta_name (asset bench : string) : string :=
  ("Beta(" ++ asset ++ "," ++ bench ++ ")")%string.

Section Metrics.
Variable sqrtq : Qc -> Qc.

(** The body of [compute_pairwise_metrics] once the three columns have
    been read. *)
Definition pairwise_metrics_of (idx : list Z) (asset bench_a bench_b : string)
           (s_asset s_a s_b : list cell)
  : DataFrame * DataFrame * DataFrame :=
  let r_asset := rolling_period_return s_asset ROLL_RET_WIN in
  let r_a := rolling_period_return s_a ROLL_RET_WIN in
  let r_b := rolling_period_return s_b ROLL_RET_WIN in
  let excess_df :=
    dropna_all (frame_of_dict idx
      [(excess_name asset bench_a, series_sub r_asset r_a);
       (excess_name asset bench_b, series_sub r_asset r_b)]) in
  let corr_df :=
    dropna_all (frame_of_dict idx
      [(corr_name asset bench_a,
         rolling_corr sqrtq s_asset s_a ROLL_RISK_WIN);
       (corr_name asset bench_b,
         rolling_corr sqrtq s_asset s_b ROLL_RISK_WIN)]) in
  let beta_df :=
    dropna_all (frame_of_dict idx
      [(beta_name asset bench_a, rolling_beta s_asset s_a ROLL_RISK_WIN);
       (beta_name asset bench_b, rolling_beta s_asset s_b ROLL_RISK_WIN)]) in
  (excess_df, corr_df, beta_df).

(** [compute_pairwise_metrics(rets, asset, bench_a, bench_b)]; [None]
    stands for the KeyError of a column that [rets] does not have. *)
Definition compute_pairwise_metrics (rets : DataFrame)
           (asset bench_a bench_b : string)
  : option (DataFrame * DataFrame * DataFrame) :=
  match getcol rets asset, getcol rets bench_a, getcol rets bench_b with
  | Some s_asset, Some s_a, Some s_b =>
      Some (pairwise_metrics_of (index rets) asset bench_a bench_b
                                s_asset s_a s_b)
  | _, _, _ => None
  end.

(** The metrics assembly as the specification words it: the two window
    sizes are arguments of the call.  Used only to compare with
    [compute_pairwise_metrics]. *)
Definition spec_pairwise_metrics (w_ret w_risk : nat) (rets : DataFrame)
           (asset bench_a bench_b : string)
  : option (DataFrame * DataFrame * DataFrame) :=
  match getcol rets asset, getcol rets bench_a, getcol rets bench_b with
  | Some s_asset, Some s_a, Some s_b =>
      let r_asset := rolling_period_return s_asset w_ret in
      let excess_df :=
        dropna_all (frame_of_dict (index rets)
          [(excess_name asset bench_a,
             series_sub r_asset (rolling_period_return s_a w_ret));
           (excess_name asset bench_b,
             series_sub r_asset (rolling_period_return s_b w_ret))]) in
      let corr_df :=
        dropna_all (frame_of_dict (index rets)
          [(corr_name asset bench_a, rolling_corr sqrtq s_asset s_a w_risk);
           (corr_name asset bench_b, rolling_corr sqrtq s_asset s_b w_risk)])
      in
      let beta_df :=
        dropna_all (frame_of_dict (index rets)
          [(beta_name asset bench_a, rolling_beta s_asset s_a w_risk);
           (beta_name asset bench_b, rolling_beta s_asset s_b w_risk)]) in
      Some (excess_df, corr_df, beta_df)
  | _, _, _ => None
  end.
End Metrics.

(** ** Building the panel (lines 212-234 of [main]) *)

Definition TICKERS : list (string * string) :=
  [("GSOX", "GSOX Index"); ("RGUSTSC", "RGUSTSC Index");
   ("SPX", "SPX Index"); ("MXWO", "MXWO Index")]%string.

Definition USE_TOTAL_RETURN : bool := false.
Definition base_field : string := "PX_LAST".
Definition tr_field : string := "TOT_RETURN_INDEX_NET_DVDS".

(** [name_map]: Bloomberg ticker to short name, in insertion order. *)
Definition name_map : list (string * string) :=
  map (fun kv => (snd kv, fst kv)) TICKERS.

(** [raw]: the dict returned by [historical_request]; a ticker is absent,
    bound to [None], or bound to a frame. *)
Definition RawData : Type := list (string * option DataFrame).

Definition has_column (df : DataFrame) (name : string) : bool :=
  existsb (String.eqb name) (column_names df).

(** [bbt not in raw or raw[bbt] is None or raw[bbt].empty] *)
Definition no_data (raw : RawData) (bbt : string) : bool :=
  match assoc bbt raw with
  | None => true
  | Some None => true
  | Some (Some df) => empty df
  end.

Definition warning_for (bbt : string) : string :=
  ("Warning: No data returned for " ++ bbt ++ ". Skipping.")%string.

(** [df[[val_col]].rename(columns={val_col: short})] with the choice of
    [val_col] made in the loop. *)
Definition select_value_column (df : DataFrame) (short : string)
  : DataFrame :=
  let val_col :=
    if USE_TOTAL_RETURN && has_column df tr_field then tr_field
    else base_field in
  let val_col :=
    if has_column df val_col then val_col
    else hd val_col (column_names df) in
  mkDF (index df)
       (match getcol df val_col with
        | Some v => [(short, v)]
        | None => []
        end).

(** One iteration of the loop over [name_map]; the state is what has been
    written to stderr and the list [panel]. *)
Definition panel_step (raw : RawData)
           (st : list string * list DataFrame) (item : string * string)
  : list string * list DataFrame :=
  let (bbt, short) := item in
  let (stderr, panel) := st in
  if no_data raw bbt then (stderr ++ [warning_for bbt], panel)
  else match assoc bbt raw with
       | Some (Some df) => (stderr, panel ++ [select_value_column df short])
       | _ => (stderr, panel)
       end.

Definition build_panel (raw : RawData) (names : list (string * string))
  : list string * list DataFrame :=
  fold_left (panel_step raw) names ([], []).

(** What the loop keeps and what it skips, read off item by item; related
    to [build_panel] in [build_panel_spec]. *)
Definition usable_frames (raw : RawData) (names : list (string * string))
  : list DataFrame :=
  flat_map (fun item =>
              match assoc (fst item) raw with
              | Some (Some df) =>
                  if empty df then [] else [select_value_column df (snd item)]
              | _ => []
              end) names.

Definition skipped_tickers (raw : RawData) (names : list (string * string))
  : list string :=
  filter (no_data raw) (map fst names).

Inductive outcome (A : Type) : Type :=
| Ok (a : A)
| RuntimeError (msg : string)
| PandasError.

Arguments Ok {A} a.
Arguments RuntimeError {A} msg.
Arguments PandasError {A}.

(** [main] from the loop over [name_map] to the aligned panel [data]:
    the warnings written to stderr and the outcome. *)
Definition aligned_panel (kind : sort_kind) (raw : RawData)
  : list string * outcome DataFrame :=
  let (stderr, panel) := build_panel raw name_map in
  match panel with
  | [] => (stderr, RuntimeError "No data available for any ticker.")
  | _ :: _ =>
      match align kind panel with
      | Some data => (stderr, Ok data)
      | None => (stderr, PandasError)
      end
  end.

(** ** Analytics (lines 246-263 of [main])
[[
    levels_rebased = data.apply(lambda s: (s / s.iloc[0]) * 100.0)
    rets = data.pct_change().dropna()
    ex_gsox, corr_gsox, beta_gsox = compute_pairwise_metrics(rets, "GSOX", "SPX", "MXWO")
    ex_rgus, corr_rgus, beta_rgus = compute_pairwise_metrics(rets, "RGUSTSC", "SPX", "MXWO")
    dd = pd.DataFrame({
        "GSOX":    (levels_rebased["GSOX"]).pipe(drawdown),
        "RGUSTSC": (levels_rebased["RGUSTSC"]).pipe(drawdown),
        "SPX":     (levels_rebased["SPX"]).pipe(drawdown),
        "MXWO":    (levels_rebased["MXWO"]).pipe(drawdown),
    })
]] *)

Record Analytics : Type := mkAnalytics {
  an_levels_rebased : DataFrame;
  an_rets : DataFrame;
  an_gsox : DataFrame * DataFrame * DataFrame;
  an_rgus : DataFrame * DataFrame * DataFrame;
  an_dd : DataFrame
}.

(** The table [dd]; [None] stands for the KeyError of a missing column. *)
Definition drawdown_table (levels : DataFrame) : option DataFrame :=
  match getcol levels "GSOX", getcol levels "RGUSTSC",
        getcol levels "SPX", getcol levels "MXWO" with
  | Some gsox, Some rgus, Some spx, Some mxwo =>
      Some (frame_of_dict (index levels)
              [("GSOX", drawdown gsox); ("RGUSTSC", drawdown rgus);
               ("SPX", drawdown spx); ("MXWO", drawdown mxwo)]%string)
  | _, _, _, _ => None
  end.

Section Analytics.
Variable sqrtq : Qc -> Qc.

(** The statements in their order; [None] stands for the exception (an
    IndexError or a KeyError) that ends the run. *)
Definition build_analytics (data : DataFrame) : option Analytics :=
  match levels_rebased data with
  | None => None
  | Some levels =>
      let rets := returns data in
      match compute_pairwise_metrics sqrtq rets "GSOX" "SPX" "MXWO" with
      | None => None
      | Some gsox =>
          match compute_pairwise_metrics sqrtq rets "RGUSTSC" "SPX" "MXWO"
          with
          | None => None
          | Some rgus =>
              match drawdown_table levels with
              | None => None
              | Some dd => Some (mkAnalytics levels rets gsox rgus dd)
              end
          end
      end
  end.
End Analytics.

(** Product of the deviations of an asset and a benchmark observation from
    their window means. *)
Definition co_dev (my mc y c : Qc) : Qc := ((y - my) * (c - mc))%Qc.

(** A price: a number other than zero. *)
Definition nonzero_number (c : cell) : bool :=
  match c with
  | Fin q => negb (Qc_eq_bool q 0)
  | _ => false
  end.

Definition all_prices (df : DataFrame) : Prop :=
  Forall (fun c => forallb nonzero_number (snd c) = true) (columns df).

(** * The rolling moments on binary64 floats

    The cells of pandas are IEEE 754 binary64 numbers.  This module
    follows the same code on Rocq's primitive floats, which are binary64
    numbers with correctly rounded [+], [-], [*], [/] and square root.
    It covers two series of exactly [win] rows each, on which
    [rolling(win)] has a single full window, at the last date; pandas
    fills that window with the add loops of [roll_sum], [roll_mean] and
    [roll_var]: Kahan-compensated sums, and Welford's update of the mean
    and of the sum of squared deviations.  (On a longer series pandas then
    moves the window by removing and adding observations, with further
    rounding, and some versions answer a run of equal values without
    arithmetic; neither is modelled.) *)
Module F64.
Import Floats.
Local Open Scope float_scope.

Definition notna (v : float) : bool := negb (is_nan v).

(** [_prep_values] on one value. *)
Definition prep_value (v : float) : float :=
  if is_infinity v then nan else v.

Fixpoint of_nat (n : nat) : float :=
  match n with
  | O => 0
  | S n' => of_nat n' + 1
  end.

(** The accumulators of [roll_sum] and [roll_mean]. *)
Record sum_state : Type := mk_sum {
  nobs : nat;
  sum_x : float;
  neg_ct : nat;
  compensation : float
}.

(** [add_sum] / [add_mean]: a missing value is skipped. *)
Definition add_obs (st : sum_state) (val : float) : sum_state :=
  if is_nan val then st
  else
    let y := val - compensation st in
    let t := sum_x st + y in
    mk_sum (S (nobs st)) t
           (if get_sign val then S (neg_ct st) else neg_ct st)
           (t - sum_x st - y).

Definition add_all (values : list float) : sum_state :=
  fold_left add_obs values (mk_sum 0 0 0 0).

(** [calc_sum] after the add loop. *)
Definition roll_sum (minp : nat) (values : list float) : float :=
  let st := add_all values in
  if (minp <=? nobs st)%nat then sum_x st else nan.

(** [calc_mean] after the add loop. *)
Definition roll_mean (minp : nat) (values : list float) : float :=
  let st := add_all values in
  if ((minp <=? nobs st) && (0 <? nobs st))%nat then
    let result := sum_x st / of_nat (nobs st) in
    if (neg_ct st =? 0)%nat && (result <? 0) then 0
    else if (neg_ct st =? nobs st)%nat && (0 <? result) then 0
    else result
  else nan.

(** The accumulators of [roll_var]. *)
Record var_state : Type := mk_var {
  v_nobs : float;
  mean_x : float;
  ssqdm_x : float;
  v_compensation : float
}.

(** [add_var]: Welford's update, with a compensated mean. *)
Definition add_var (st : var_state) (val : float) : var_state :=
  if is_nan val then st
  else
    let n := v_nobs st + 1 in
    let prev_mean := mean_x st - v_compensation st in
    let y := val - v_compensation st in
    let t := y - mean_x st in
    let mean := mean_x st + t / n in
    mk_var n mean (ssqdm_x st + (val - prev_mean) * (val - mean))
           (t + mean_x st - y).

(** [calc_var] after the add loop. *)
Definition roll_var (minp ddof : nat) (values : list float) : float :=
  let st := fold_left add_var values (mk_var 0 0 0 0) in
  if (of_nat minp <=? v_nobs st) && (of_nat ddof <? v_nobs st) then
    if v_nobs st =? 1 then 0
    else ssqdm_x st / (v_nobs st - of_nat ddof)
  else nan.

Definition ddof : nat := 1.

(** [X = arg1 + 0 * arg2], [Y = arg2 + 0 * arg1]. *)
Definition prep_binary (arg1 arg2 : list float) : list float * list float :=
  (map2 (fun a b => a + 0 * b) arg1 arg2,
   map2 (fun a b => a + 0 * b) arg2 arg1).

(** The numerator of [cov] and [corr]:
    [(mean_x_y - mean_x * mean_y) * (count_x_y / (count_x_y - ddof))]. *)
Definition cov_numerator (x_array y_array : list float) : float :=
  let win := length x_array in
  let mean_x_y := roll_mean win (map2 mul x_array y_array) in
  let mean_x := roll_mean win x_array in
  let mean_y := roll_mean win y_array in
  let count_x_y :=
    roll_sum 0 (map (fun v => if notna v then 1 else 0)
                    (map2 add x_array y_array)) in
  (mean_x_y - mean_x * mean_y) * (count_x_y / (count_x_y - of_nat ddof)).

(** [y.rolling(win).cov(x)] at the last date, for [win = len(y)]. *)
Definition rolling_cov_last (arg1 arg2 : list float) : float :=
  let (X, Y) := prep_binary arg1 arg2 in
  cov_numerator (map prep_value X) (map prep_value Y).

(** [x.rolling(win).var()] at the last date, for [win = len(x)]. *)
Definition rolling_var_last (x : list float) : float :=
  roll_var (length x) ddof (map prep_value x).

(** [cov / var] of line 145, at one date. *)
Definition quotient (cov var : float) : float := cov / var.

(** [rolling_beta(y_ret, x_ret, win)] at the last date, for
    [win = len(y_ret)]. *)
Definition rolling_beta_last (y_ret x_ret : list float) : float :=
  quotient (rolling_cov_last y_ret x_ret) (rolling_var_last x_ret).

(** [numerator / (x_var * y_var) ** 0.5] of [corr], at one date; the
    power is the square root. *)
Definition corr_quotient (numerator x_var y_var : float) : float :=
  numerator / sqrt (x_var * y_var).

(** [arg1.rolling(win).corr(arg2)] at the last date, for
    [win = len(arg1)]. *)
Definition rolling_corr_last (arg1 arg2 : list float) : float :=
  let (X, Y) := prep_binary arg1 arg2 in
  let x_array := map prep_value X in
  let y_array := map prep_value Y in
  let win := length x_array in
  corr_quotient (cov_numerator x_array y_array)
                (roll_var win ddof x_array) (roll_var win ddof y_array).

End F64.

(** * Properties *)

(** ** Cells and rationals *)

Arguments cell_max : simpl never.
Arguments cell_add : simpl never.
Arguments cell_sub : simpl never.
Arguments cell_mul : simpl never.
Arguments cell_div : simpl never.

Lemma cell_eqb_eq (a b : cell) : cell_eqb a b = true -> a = b.
Proof.
  destruct a, b; simpl; try discriminate; try reflexivity.
  intros H. apply Qc_eq_bool_correct in H. now subst.
Qed.

Lemma cells_eqb_eq (l m : list cell) : cells_eqb l m = true -> l = m.
Proof.
  revert m. induction l as [|a l IH]; intros [|b m]; simpl;
    try discriminate; try reflexivity.
  intros H. apply andb_true_iff in H as [Hab Hlm].
  f_equal; [now apply cell_eqb_eq | now apply IH].
Qed.

(** Closes a goal [a = b] between closed cells or lists of cells. *)
Ltac cell_compute :=
  first [ apply cell_eqb_eq; vm_compute; reflexivity
        | apply cells_eqb_eq; vm_compute; reflexivity ].

Lemma Qcle_compare (x y : Qc) :
  (x <= y)%Qc <-> (x ?= y)%Qc <> Gt.
Proof. apply Qcle_alt. Qed.

Lemma cell_max_fin (x y : Qc) :
  cell_max (Fin x) (Fin y) = Fin (if Qclt_le_dec y x then x else y).
Proof.
  unfold cell_max, cell_leb.
  destruct (Qclt_le_dec y x) as [Hlt | Hle].
  - apply Qcgt_alt in Hlt. now rewrite Hlt.
  - apply Qcle_compare in Hle.
    destruct (x ?= y)%Qc eqn:E; try reflexivity. now elim Hle.
Qed.

Lemma Qcdiv_le_1 (l p : Qc) : (0 < p)%Qc -> (l <= p)%Qc -> (l / p <= 1)%Qc.
Proof.
  intros Hp Hl.
  apply Qcmult_lt_0_le_reg_r with (z := p); [exact Hp|].
  assert (Hne : p <> 0%Qc).
  { intros E. apply Qclt_not_eq in Hp. now rewrite E in Hp. }
  replace (l / p * p)%Qc with l by (field; exact Hne).
  now rewrite Qcmult_1_l.
Qed.

Lemma Qcdiv_self (p : Qc) : p <> 0%Qc -> (p / p)%Qc = 1%Qc.
Proof. intros Hne. field. exact Hne. Qed.

Lemma Qcle_sub_1 (x : Qc) : (x <= 1)%Qc -> (x - 1 <= 0)%Qc.
Proof.
  intros H. apply Qcle_minus_iff.
  replace (0 + - (x - 1))%Qc with (1 + - x)%Qc by ring.
  now apply Qcle_minus_iff in H.
Qed.

(** ** Positional lemmas *)

Section PositionalFacts.
Variables A B C : Type.

Lemma map2_length (f : A -> B -> C) (l : list A) (m : list B) :
  length (map2 f l m) = Nat.min (length l) (length m).
Proof.
  revert m. induction l as [|x l IH]; intros [|y m]; simpl; auto.
Qed.

Lemma nth_map2 (f : A -> B -> C) (l : list A) (m : list B)
      (t : nat) (da : A) (db : B) (dc : C) :
  t < length l -> t < length m ->
  nth t (map2 f l m) dc = f (nth t l da) (nth t m db).
Proof.
  revert m t. induction l as [|x l IH]; intros [|y m] [|t]; simpl;
    intros Hl Hm; try lia; auto.
  apply IH; lia.
Qed.

Lemma nth_map_in (f : A -> B) (l : list A) (t : nat) (da : A) (db : B) :
  t < length l -> nth t (map f l) db = f (nth t l da).
Proof.
  revert t. induction l as [|x l IH]; intros [|t]; simpl; intros H;
    try lia; auto.
  apply IH; lia.
Qed.
End PositionalFacts.

(** ** drawdown *)

Lemma cummax_complete (levels : list cell) :
  forallb notna levels = true ->
  cummax levels = maximum_accumulate levels.
Proof.
  unfold cummax. intros H.
  assert (Hy : map (fun v => if isna v then NInf else v) levels = levels).
  { induction levels as [|x l IH]; simpl in *; [reflexivity|].
    apply andb_true_iff in H as [Hx Hl].
    rewrite (IH Hl). unfold notna in Hx. now destruct (isna x). }
  rewrite Hy. clear Hy.
  assert (Hlen : length (maximum_accumulate levels) = length levels).
  { destruct levels as [|x l]; simpl; [reflexivity|]. f_equal.
    clear. revert x. induction l as [|y l IH]; intros x; simpl; auto. }
  revert Hlen H. generalize (maximum_accumulate levels) as r.
  induction levels as [|x l IH]; intros [|y r]; simpl; intros Hlen H;
    try discriminate; try reflexivity.
  apply andb_true_iff in H as [Hx Hl]. unfold notna in Hx.
  destruct (isna x); [discriminate|]. f_equal. apply IH; [lia | exact Hl].
Qed.

Lemma forallb_notna_fin (qs : list Qc) : forallb notna (map Fin qs) = true.
Proof. induction qs; simpl; auto. Qed.

Lemma accumulate_from_length (m : cell) (l : list cell) :
  length (accumulate_from m l) = length l.
Proof. revert m. induction l as [|x l IH]; intros m; simpl; auto. Qed.

(** Running peak of finite levels above a positive start. *)
Lemma accumulate_from_fin (qs : list Qc) (m : Qc) (t : nat) :
  (0 < m)%Qc -> t < length qs ->
  exists p,
    nth t (accumulate_from (Fin m) (map Fin qs)) NaN = Fin p
    /\ (0 < p)%Qc /\ (nth t qs 0%Qc <= p)%Qc.
Proof.
  revert m t. induction qs as [|q qs IH]; intros m t Hm Ht; simpl in Ht;
    [lia|].
  simpl. rewrite cell_max_fin.
  destruct (Qclt_le_dec q m) as [Hlt | Hle].
  - destruct t as [|t].
    + exists m. repeat split; auto. now apply Qclt_le_weak.
    + apply IH; [exact Hm | lia].
  - destruct t as [|t].
    + exists q. repeat split.
      * now apply Qclt_le_trans with m.
      * apply Qcle_refl.
    + apply IH; [now apply Qclt_le_trans with m | lia].
Qed.

Lemma maximum_accumulate_step (l : list cell) (t : nat) :
  S t < length l ->
  nth (S t) (maximum_accumulate l) NaN
  = cell_max (nth t (maximum_accumulate l) NaN) (nth (S t) l NaN).
Proof.
  destruct l as [|x l]; simpl; [lia|]. intros H.
  assert (Hgen : forall l m t, t < length l ->
            nth t (accumulate_from m l) NaN
            = cell_max (nth t (m :: accumulate_from m l) NaN) (nth t l NaN)).
  { clear. induction l as [|y l IH]; intros m [|t] Ht; simpl in *; try lia;
      auto. apply IH. lia. }
  apply Hgen. lia.
Qed.

Lemma drawdown_length (levels : list cell) :
  forallb notna levels = true ->
  length (drawdown levels) = length levels.
Proof.
  intros H. unfold drawdown. rewrite length_map, map2_length.
  rewrite (cummax_complete _ H).
  destruct levels as [|x l]; simpl; [reflexivity|].
  rewrite accumulate_from_length. now rewrite Nat.min_id.
Qed.

(** C7 (amended).  For every level series of finite numbers (no missing
    and no infinite entry) whose first level is strictly positive: the
    running peak satisfies
    [peak[0] = level[0]] and [peak[t+1] = max(peak[t], level[t+1])]; the
    drawdown is defined at every date (no warm-up), equals
    [level[t] / peak[t] - 1], is never positive, and is 0 whenever the level
    equals the running peak. *)
Theorem drawdown_invariant (q0 : Qc) (qs : list Qc) :
  (0 < q0)%Qc ->
  let levels := map Fin (q0 :: qs) in
  let peak := cummax levels in
  length (drawdown levels) = length levels
  /\ nth 0 peak NaN = nth 0 levels NaN
  /\ (forall t, S t < length levels ->
        nth (S t) peak NaN
        = cell_max (nth t peak NaN) (nth (S t) levels NaN))
  /\ (forall t, t < length levels ->
        exists p d,
          nth t peak NaN = Fin p
          /\ nth t (drawdown levels) NaN = Fin d
          /\ d = (nth t (q0 :: qs) 0 / p - 1)%Qc
          /\ (d <= 0)%Qc
          /\ (nth t (q0 :: qs) 0%Qc = p -> d = 0%Qc)).
Proof.
  intros Hpos levels peak.
  assert (Hc : forallb notna levels = true) by apply forallb_notna_fin.
  assert (Hpeak : peak = maximum_accumulate levels)
    by (apply cummax_complete; exact Hc).
  split; [now apply drawdown_length|].
  split; [rewrite Hpeak; reflexivity|].
  split; [intros t Ht; rewrite Hpeak; now apply maximum_accumulate_step|].
  intros t Ht.
  assert (Hlen : length levels = length (q0 :: qs))
    by (unfold levels; apply length_map).
  assert (Hp : exists p, nth t peak NaN = Fin p /\ (0 < p)%Qc
                         /\ (nth t (q0 :: qs) 0%Qc <= p)%Qc).
  { rewrite Hpeak. unfold levels. simpl map. unfold maximum_accumulate.
    destruct t as [|t].
    - exists q0. simpl. repeat split; auto. apply Qcle_refl.
    - simpl nth. apply accumulate_from_fin; [exact Hpos|].
      rewrite Hlen in Ht. simpl in Ht. lia. }
  destruct Hp as (p & Hnp & Hp0 & Hle).
  assert (Hne : p <> 0%Qc).
  { intros E. apply Qclt_not_eq in Hp0. now rewrite E in Hp0. }
  exists p, (nth t (q0 :: qs) 0 / p - 1)%Qc.
  split; [exact Hnp|]. split.
  - unfold drawdown. fold peak.
    rewrite nth_map_in with (da := NaN).
    2:{ rewrite map2_length. unfold peak. rewrite (cummax_complete _ Hc).
        unfold levels at 2. simpl map. simpl length.
        rewrite accumulate_from_length, length_map.
        rewrite Hlen in *. simpl in *. lia. }
    rewrite nth_map2 with (da := NaN) (db := NaN); [|exact Ht|].
    2:{ rewrite Hpeak. unfold levels. simpl.
        rewrite accumulate_from_length, length_map.
        rewrite Hlen in Ht. simpl in Ht. lia. }
    rewrite Hnp. unfold levels.
    rewrite nth_map_in with (da := 0%Qc) by (rewrite <- Hlen; exact Ht).
    unfold cell_div. destruct (Qc_eq_dec p 0) as [E | _]; [now elim Hne|].
    reflexivity.
  - split; [reflexivity|]. split.
    + apply Qcle_sub_1. now apply Qcdiv_le_1.
    + intros ->. rewrite Qcdiv_self by exact Hne. ring.
Qed.

Lemma drawdown_invariant_witness :
  (0 < qz 100)%Qc
  /\ forall t, t < 4 ->
       exists d,
         nth t (drawdown (map Fin [qz 100; qz 110; qz 99; qz 105])) NaN
         = Fin d /\ (d <= 0)%Qc.
Proof.
  split; [reflexivity|]. intros t Ht.
  destruct (drawdown_invariant (q0 := qz 100) [qz 110; qz 99; qz 105])
    as (_ & _ & _ & H); [reflexivity|].
  destruct (H t Ht) as (p & d & _ & Hd & _ & Hle & _).
  exists d. split; assumption.
Defined.

(** C7, counterexample.  With the levels -1, -2 the running peak stays at
    -1 and the drawdown of the second date is (-2)/(-1) - 1 = 1 > 0; with the
    single level 0, which equals its running peak, the drawdown is 0/0 - 1,
    a missing value. *)
Lemma drawdown_negative_levels :
  nth 1 (drawdown [Fin (qz (-1)); Fin (qz (-2))]) NaN = Fin 1%Qc
  /\ ~ (1 <= 0)%Qc
  /\ cummax [Fin 0%Qc] = [Fin 0%Qc]
  /\ drawdown [Fin 0%Qc] = [NaN].
Proof.
  split; [cell_compute|]. split; [intros H; apply H; reflexivity|].
  split; [cell_compute | reflexivity].
Qed.

(** An infinite level is outside the amended claim: it is not missing,
    and the drawdown of its date is inf/inf - 1, a missing value. *)
Example drawdown_infinite_level :
  drawdown [Fin (qz 4); PInf; Fin (qz 2)] = [Fin 0%Qc; NaN; Fin (qz (-1))].
Proof. cell_compute. Qed.

(** ** Rebased levels *)

Lemma first_non_nan_head (v : cell) (s : list cell) :
  notna v = true -> first_non_nan (v :: s) = v.
Proof. intros H. simpl. now rewrite H. Qed.

Lemma rebase_series_complete (v : cell) (s : list cell) :
  notna v = true ->
  rebase_series (v :: s) = Some (spec_rebase (v :: s)).
Proof.
  intros H. unfold rebase_series, spec_rebase.
  now rewrite first_non_nan_head.
Qed.

Lemma apply_columns_rebase (cols : list (string * list cell)) :
  Forall (fun c => snd c <> [] /\ forallb notna (snd c) = true) cols ->
  apply_columns rebase_series cols
  = Some (map (fun c => (fst c, spec_rebase (snd c))) cols).
Proof.
  induction 1 as [|[name s] cols [Hne Hc] _ IH]; simpl; [reflexivity|].
  simpl in Hne, Hc. destruct s as [|v s]; [now elim Hne|].
  simpl in Hc. apply andb_true_iff in Hc as [Hv _].
  rewrite rebase_series_complete by exact Hv. now rewrite IH.
Qed.

Lemma rebased_first_value (q : Qc) (s : list cell) :
  q <> 0%Qc -> hd NaN (spec_rebase (Fin q :: s)) = Fin (qz 100).
Proof.
  intros Hq. unfold spec_rebase. simpl.
  unfold cell_div. destruct (Qc_eq_dec q 0) as [E | _]; [now elim Hq|].
  unfold cell_mul. rewrite Qcdiv_self by exact Hq. now rewrite Qcmult_1_l.
Qed.

(** C8 (amended).  On every aligned panel (well formed, no missing cell)
    rebasing succeeds and replaces each column by the column divided by its
    first non-missing value, which is the value [s.iloc[0]] of its first
    row, times 100; the first value of a rebased column is exactly 100
    whenever the first value of the column is a non-zero number. *)
Theorem levels_rebased_spec (data : DataFrame) :
  wf_frame data -> complete data ->
  levels_rebased data = Some (map_columns spec_rebase data)
  /\ (forall name s, In (name, s) (columns data) ->
        iloc0 s = None \/ iloc0 s = Some (first_non_nan s))
  /\ (forall name q s, In (name, Fin q :: s) (columns data) -> q <> 0%Qc ->
        In (name, Fin (qz 100) :: tl (spec_rebase (Fin q :: s)))
           (columns (map_columns spec_rebase data))).
Proof.
  intros Hwf Hc. split; [|split].
  - unfold levels_rebased, df_apply.
    destruct (empty data) eqn:He.
    + f_equal. destruct data as [idx cols]. unfold map_columns. simpl.
      f_equal. unfold empty in He. simpl in He.
      apply orb_true_iff in He as [He | He]; apply Nat.eqb_eq in He.
      * unfold wf_frame in Hwf. simpl in Hwf. rewrite He in Hwf.
        induction Hwf as [|[name s] cols Hs _ IH]; simpl; [reflexivity|].
        simpl in Hs. apply length_zero_iff_nil in Hs. subst s.
        f_equal. apply IH. now inversion Hc.
      * apply length_zero_iff_nil in He. now subst cols.
    + rewrite apply_columns_rebase; [reflexivity|].
      unfold empty in He. apply orb_false_iff in He as [He _].
      apply Nat.eqb_neq in He.
      unfold wf_frame in Hwf. unfold complete in Hc.
      rewrite Forall_forall in *. intros c Hin. split; [|now apply Hc].
      intros E. apply Hwf in Hin. rewrite E in Hin. simpl in Hin. lia.
  - intros name s Hin. destruct s as [|v s]; [now left|]. right.
    unfold complete in Hc. rewrite Forall_forall in Hc.
    apply Hc in Hin. simpl in Hin. apply andb_true_iff in Hin as [Hv _].
    simpl iloc0. now rewrite first_non_nan_head.
  - intros name q s Hin Hq. unfold map_columns. simpl.
    apply in_map_iff. exists (name, Fin q :: s). split; [|exact Hin].
    simpl fst. simpl snd. f_equal.
    pose proof (rebased_first_value s Hq) as H.
    unfold spec_rebase in *. simpl in *. now rewrite H.
Qed.

Lemma levels_rebased_spec_witness :
  let data := mkDF [1; 2; 3]%Z
                [("GSOX"%string, [Fin (qz 50); Fin (qz 55); Fin (qz 45)]);
                 ("SPX"%string, [Fin (qz 2000); Fin (qz 2100); Fin (qz 1900)])]
  in
  wf_frame data /\ complete data
  /\ levels_rebased data = Some (map_columns spec_rebase data).
Proof.
  intros data.
  assert (Hwf : wf_frame data) by (repeat constructor).
  assert (Hc : complete data) by (repeat constructor).
  split; [exact Hwf|]. split; [exact Hc|].
  exact (proj1 (levels_rebased_spec Hwf Hc)).
Defined.

(** C8, counterexample.  A column that starts at 0 is a column of an
    aligned panel (0 is a value, not a missing cell); its rebased first
    value is 0/0 * 100, a missing value and not 100. *)
Lemma rebase_zero_start :
  let data := mkDF [1; 2]%Z [("A"%string, [Fin 0%Qc; Fin (qz 4)])] in
  wf_frame data /\ complete data
  /\ option_map (fun d => map snd (columns d)) (levels_rebased data)
     = Some [[NaN; PInf]]
  /\ NaN <> Fin (qz 100).
Proof.
  intros data. split; [repeat constructor|]. split; [repeat constructor|].
  split; [reflexivity | discriminate].
Qed.

(** ** Rolling windows *)

Lemma nth_map_seq (A : Type) (f : nat -> A) (n t : nat) (d : A) :
  t < n -> nth t (map f (seq 0 n)) d = f t.
Proof.
  intros H. rewrite nth_map_in with (da := 0) by (now rewrite length_seq).
  now rewrite seq_nth.
Qed.

Lemma slice_nth (A : Type) (l : list A) (s n : nat) (d : A) :
  s + n <= length l ->
  firstn n (skipn s l) = map (fun i => nth i l d) (seq s n).
Proof.
  revert s n. induction l as [|x l IH]; intros s n H; simpl in H.
  - assert (s = 0) by lia. assert (n = 0) by lia. now subst.
  - destruct s as [|s].
    + destruct n as [|n]; [reflexivity|]. simpl. f_equal.
      rewrite <- seq_shift, map_map. simpl.
      apply (IH 0 n). lia.
    + simpl skipn. rewrite <- seq_shift, map_map. simpl.
      apply IH. lia.
Qed.

Lemma window_at_full (values : list cell) (win t : nat) :
  win <= t + 1 -> t < length values ->
  window_at values win t
  = map (fun i => nth i values NaN) (seq (t + 1 - win) win).
Proof.
  intros Hw Ht. unfold window_at, window_bounds.
  replace (t + 1 - (t + 1 - win)) with win by lia.
  apply slice_nth. lia.
Qed.

Lemma window_at_short (values : list cell) (win t : nat) :
  t + 1 < win -> length (window_at values win t) < win.
Proof.
  intros H. unfold window_at, window_bounds.
  pose proof (firstn_le_length (t + 1 - (t + 1 - win))
                               (skipn (t + 1 - win) values)). lia.
Qed.

Lemma count_notna_le (w : list cell) : count_notna w <= length w.
Proof. apply filter_length_le. Qed.

Lemma count_notna_nan (w : list cell) :
  In NaN w -> count_notna w < length w.
Proof.
  unfold count_notna. induction w as [|x w IH]; simpl; [tauto|].
  intros [-> | Hin]; simpl.
  - pose proof (filter_length_le notna w). lia.
  - specialize (IH Hin). destruct (notna x); simpl; lia.
Qed.

Lemma count_notna_fin (A : Type) (f : A -> Qc) (l : list A) :
  count_notna (map (fun i => Fin (f i)) l) = length l.
Proof.
  unfold count_notna. induction l as [|x l IH]; simpl; [reflexivity|].
  now rewrite IH.
Qed.

Lemma np_prod_compound (r : nat -> Qc) (s n : nat) (a : Qc) :
  fold_left cell_mul (map (fun i => Fin (1 + r i)) (seq s n)) (Fin a)
  = Fin (a * compound r s n).
Proof.
  revert s a. induction n as [|n IH]; intros s a; simpl.
  - now rewrite Qcmult_1_r.
  - unfold cell_mul at 2. rewrite IH. f_equal. ring.
Qed.

Lemma rolling_apply_length (func : list cell -> cell) (win : nat)
      (values : list cell) :
  length (rolling_apply func win values) = length values.
Proof. unfold rolling_apply. now rewrite length_map, length_seq. Qed.

Lemma rolling_period_return_length (returns : list cell) (win : nat) :
  length (rolling_period_return returns win) = length returns.
Proof.
  unfold rolling_period_return.
  now rewrite length_map, rolling_apply_length, length_map.
Qed.

Lemma rolling_period_return_nth (returns : list cell) (win t : nat) :
  t < length returns ->
  nth t (rolling_period_return returns win) NaN
  = let w := window_at (prep_values (map (cell_add (Fin 1)) returns)) win t in
    cell_sub (if win <=? count_notna w then np_prod w else NaN) (Fin 1).
Proof.
  intros Ht. unfold rolling_period_return.
  rewrite nth_map_in with (da := NaN)
    by (now rewrite rolling_apply_length, length_map).
  unfold rolling_apply. rewrite length_map.
  now rewrite nth_map_seq by exact Ht.
Qed.

Lemma prepared_plus_one (c : cell) :
  (if is_inf (cell_add (Fin 1) c) then NaN else cell_add (Fin 1) c)
  = match c with Fin q => Fin (1 + q) | _ => NaN end.
Proof. now destruct c. Qed.

Lemma prepared_nth (returns : list cell) (i : nat) :
  i < length returns ->
  nth i (prep_values (map (cell_add (Fin 1)) returns)) NaN
  = match nth i returns NaN with Fin q => Fin (1 + q) | _ => NaN end.
Proof.
  intros Hi. unfold prep_values. rewrite map_map.
  rewrite nth_map_in with (da := NaN) by exact Hi.
  apply prepared_plus_one.
Qed.

Lemma prepared_length (returns : list cell) :
  length (prep_values (map (cell_add (Fin 1)) returns)) = length returns.
Proof. unfold prep_values. now rewrite !length_map. Qed.

Lemma rolling_period_return_warmup (returns : list cell) (W t : nat) :
  t < length returns -> t + 1 < W ->
  nth t (rolling_period_return returns W) NaN = NaN.
Proof.
  intros Ht Hw. rewrite rolling_period_return_nth by exact Ht. cbv zeta.
  set (w := window_at _ W t).
  assert (Hl : length w < W) by (now apply window_at_short).
  pose proof (count_notna_le w) as Hc.
  destruct (Nat.leb_spec W (count_notna w)); [lia | reflexivity].
Qed.

Lemma rolling_period_return_numbers (returns : list cell) (W t : nat)
      (r : nat -> Qc) :
  W <= t + 1 -> t < length returns ->
  (forall i, t + 1 - W <= i <= t -> nth i returns NaN = Fin (r i)) ->
  nth t (rolling_period_return returns W) NaN
  = Fin (compound r (t + 1 - W) W - 1).
Proof.
  intros Hw Ht Hr.
  rewrite rolling_period_return_nth by exact Ht. cbv zeta.
  rewrite window_at_full by (rewrite ?prepared_length; assumption).
  assert (Hwin : map (fun i => nth i (prep_values
                                (map (cell_add (Fin 1)) returns)) NaN)
                     (seq (t + 1 - W) W)
                 = map (fun i => Fin (1 + r i)) (seq (t + 1 - W) W)).
  { apply map_ext_in. intros i Hi. apply in_seq in Hi.
    rewrite prepared_nth by lia. now rewrite Hr by lia. }
  rewrite Hwin, count_notna_fin, length_seq, Nat.leb_refl.
  unfold np_prod. rewrite np_prod_compound.
  unfold cell_sub, cell_neg, cell_add. f_equal. ring.
Qed.

Lemma rolling_period_return_gap (returns : list cell) (W t i : nat) :
  W <= t + 1 -> t < length returns -> t + 1 - W <= i <= t ->
  is_fin (nth i returns NaN) = false ->
  nth t (rolling_period_return returns W) NaN = NaN.
Proof.
  intros Hw Ht Hi Hnf.
  rewrite rolling_period_return_nth by exact Ht. cbv zeta.
  rewrite window_at_full by (rewrite ?prepared_length; assumption).
  set (w := map _ (seq (t + 1 - W) W)).
  assert (Hin : In NaN w).
  { unfold w. apply in_map_iff. exists i. split; [|apply in_seq; lia].
    rewrite prepared_nth by lia.
    destruct (nth i returns NaN); try reflexivity; discriminate. }
  apply count_notna_nan in Hin.
  assert (Hwl : length w = W) by (unfold w; now rewrite length_map, length_seq).
  destruct (Nat.leb_spec W (count_notna w)); [lia | reflexivity].
Qed.

Lemma forallb_false_exists (A : Type) (f : A -> bool) (l : list A) :
  forallb f l = false -> exists x, In x l /\ f x = false.
Proof.
  induction l as [|x l IH]; simpl; [discriminate|].
  destruct (f x) eqn:E; simpl.
  - intros H. destruct (IH H) as (y & Hy & Hf). exists y. auto.
  - intros _. exists x. auto.
Qed.

(** An entry of a rolling period return is a number or missing, never an
    infinity. *)
Lemma rolling_period_return_nan_or_fin (returns : list cell) (W t : nat) :
  nth t (rolling_period_return returns W) NaN = NaN
  \/ exists q, nth t (rolling_period_return returns W) NaN = Fin q.
Proof.
  destruct (Nat.lt_ge_cases t (length returns)) as [Ht | Ht].
  2:{ left. apply nth_overflow. now rewrite rolling_period_return_length. }
  destruct (Nat.lt_ge_cases (t + 1) W) as [Hw | Hw].
  { left. now apply rolling_period_return_warmup. }
  destruct (forallb (fun i => is_fin (nth i returns NaN))
                    (seq (t + 1 - W) W)) eqn:E.
  - right. rewrite forallb_forall in E.
    exists (compound (fun i => match nth i returns NaN with
                               | Fin q => q | _ => 0%Qc end)
                     (t + 1 - W) W - 1)%Qc.
    apply rolling_period_return_numbers; try assumption.
    intros i Hi. specialize (E i). rewrite in_seq in E.
    specialize (E ltac:(lia)).
    destruct (nth i returns NaN); try discriminate; reflexivity.
  - left. apply forallb_false_exists in E as (i & Hi & Hnf).
    apply in_seq in Hi.
    apply rolling_period_return_gap with (i := i); try assumption; lia.
Qed.

(** C2.  For every return series and every window [W >= 1], the rolling
    period return has one entry per date; its first [W-1] entries are
    missing; from the [W]-th entry on, the entry of date [t] is the product
    of [1 + r_i] over the [W] returns [r_(t-W+1) .. r_t] minus 1 whenever
    these are numbers (and missing when one of them is not), so that the
    [W]-th entry is the first defined one. *)
Theorem rolling_period_return_spec (returns : list cell) (W : nat) :
  1 <= W ->
  let out := rolling_period_return returns W in
  length out = length returns
  /\ (forall t, t < length returns -> t + 1 < W -> nth t out NaN = NaN)
  /\ (forall t (r : nat -> Qc),
        W <= t + 1 -> t < length returns ->
        (forall i, t + 1 - W <= i <= t -> nth i returns NaN = Fin (r i)) ->
        nth t out NaN = Fin (compound r (t + 1 - W) W - 1))
  /\ (forall t i,
        W <= t + 1 -> t < length returns -> t + 1 - W <= i <= t ->
        is_fin (nth i returns NaN) = false -> nth t out NaN = NaN)
  /\ (W <= length returns ->
      (forall i, i < W -> is_fin (nth i returns NaN) = true) ->
      is_fin (nth (W - 1) out NaN) = true).
Proof.
  intros HW out.
  split; [apply rolling_period_return_length|].
  split; [intros t; apply rolling_period_return_warmup|].
  split; [intros t r; apply rolling_period_return_numbers|].
  split; [intros t i; apply rolling_period_return_gap|].
  intros Hl Hfin. unfold out.
  rewrite (@rolling_period_return_numbers returns W (W - 1)
             (fun i => match nth i returns NaN with
                       | Fin q => q | _ => 0%Qc end));
    [reflexivity | lia | lia |].
  intros i Hi. specialize (Hfin i ltac:(lia)).
  destruct (nth i returns NaN); try discriminate; reflexivity.
Qed.

Lemma rolling_period_return_spec_witness :
  1 <= 2
  /\ nth 2 (rolling_period_return
              [Fin (Q2Qc (1 # 10)); Fin (Q2Qc (-1 # 10)); Fin (Q2Qc (2 # 33))]
              2) NaN
     = Fin (compound (fun i => nth i [Q2Qc (1 # 10); Q2Qc (-1 # 10);
                                      Q2Qc (2 # 33)] 0%Qc) 1 2 - 1).
Proof.
  split; [lia|].
  refine (proj1 (proj2 (proj2 (rolling_period_return_spec
    [Fin (Q2Qc (1 # 10)); Fin (Q2Qc (-1 # 10)); Fin (Q2Qc (2 # 33))]
    (W := 2) _))) 2 _ _ _ _); try (simpl; lia).
  intros i Hi. assert (E : i = 1 \/ i = 2) by (simpl in Hi; lia).
  destruct E as [-> | ->]; reflexivity.
Defined.

(** ** Row masks of [dropna] *)

Section RowMasks.
Variable combine : bool -> bool -> bool.
Variable unit : bool.

Lemma fold_mask_length (n : nat) (cols : list (string * list cell)) :
  Forall (fun c => length (snd c) = n) cols ->
  length (fold_mask combine unit n cols) = n.
Proof.
  unfold fold_mask. induction 1 as [|c cols Hc _ IH]; simpl.
  - apply repeat_length.
  - rewrite map2_length, length_map, Hc, IH. apply Nat.min_id.
Qed.

Lemma fold_mask_nth (n t : nat) (cols : list (string * list cell)) :
  Forall (fun c => length (snd c) = n) cols -> t < n ->
  nth t (fold_mask combine unit n cols) unit
  = fold_right (fun c acc => combine (notna (nth t (snd c) NaN)) acc)
               unit cols.
Proof.
  intros H Ht. unfold fold_mask.
  induction H as [|c cols Hc Hcols IH]; simpl.
  - apply nth_repeat.
  - rewrite nth_map2 with (da := true) (db := unit).
    + rewrite IH. f_equal.
      now rewrite nth_map_in with (da := NaN) by lia.
    + rewrite length_map. lia.
    + fold (fold_mask combine unit n cols).
      rewrite fold_mask_length by exact Hcols. lia.
Qed.
End RowMasks.

Lemma notna_all_length (df : DataFrame) :
  wf_frame df -> length (notna_all df) = length (index df).
Proof. intros H. apply (fold_mask_length andb true H). Qed.

Lemma notna_any_length (df : DataFrame) :
  wf_frame df -> length (notna_any df) = length (index df).
Proof. intros H. apply (fold_mask_length orb false H). Qed.

Lemma notna_all_nth (df : DataFrame) (t : nat) :
  wf_frame df -> t < length (index df) ->
  nth t (notna_all df) true
  = forallb (fun c => notna (nth t (snd c) NaN)) (columns df).
Proof.
  intros H Ht. unfold notna_all.
  rewrite fold_mask_nth by assumption.
  induction (columns df) as [|c cols IH]; simpl; [reflexivity|].
  now rewrite IH.
Qed.

Lemma notna_any_nth (df : DataFrame) (t : nat) :
  wf_frame df -> t < length (index df) ->
  nth t (notna_any df) false
  = existsb (fun c => notna (nth t (snd c) NaN)) (columns df).
Proof.
  intros H Ht. unfold notna_any.
  rewrite fold_mask_nth by assumption.
  induction (columns df) as [|c cols IH]; simpl; [reflexivity|].
  now rewrite IH.
Qed.

Lemma map_columns_wf (f : list cell -> list cell) (df : DataFrame) :
  (forall s, length (f s) = length s) ->
  wf_frame df -> wf_frame (map_columns f df).
Proof.
  intros Hf H. unfold wf_frame, map_columns in *. simpl.
  rewrite Forall_map. eapply Forall_impl; [|exact H].
  intros c Hc. simpl. now rewrite Hf.
Qed.

Lemma take_mask_length_le (A : Type) (mask : list bool) (l : list A) :
  length (take_mask mask l) <= length l.
Proof.
  revert l. induction mask as [|b mask IH]; intros [|x l]; simpl; try lia.
  specialize (IH l). destruct b; simpl; lia.
Qed.

Lemma take_mask_same_length (A B : Type) (mask : list bool)
      (l : list A) (m : list B) :
  length l = length m ->
  length (take_mask mask l) = length (take_mask mask m).
Proof.
  revert l m. induction mask as [|b mask IH]; intros [|x l] [|y m]; simpl;
    intros H; try lia; try reflexivity.
  destruct b; simpl; rewrite (IH l m) by lia; reflexivity.
Qed.

Lemma take_rows_wf (mask : list bool) (df : DataFrame) :
  wf_frame df -> wf_frame (take_rows mask df).
Proof.
  intros H. unfold wf_frame, take_rows in *. simpl.
  rewrite Forall_map. eapply Forall_impl; [|exact H].
  intros c Hc. simpl. now apply take_mask_same_length.
Qed.

(** ** Daily returns *)

Lemma removelast_length_S (s : list cell) :
  s <> [] -> S (length (removelast s)) = length s.
Proof.
  induction s as [|x s IH]; intros H; [now elim H|].
  destruct s as [|y s]; [reflexivity|].
  change (removelast (x :: y :: s)) with (x :: removelast (y :: s)).
  cbn [length]. f_equal. apply IH. discriminate.
Qed.

Lemma shift1_length (s : list cell) : length (shift1 s) = length s.
Proof.
  destruct s as [|x s]; [reflexivity|].
  unfold shift1. cbn [length]. rewrite removelast_length_S by discriminate.
  reflexivity.
Qed.

Lemma nth_removelast (s : list cell) (t : nat) :
  S t < length s -> nth t (removelast s) NaN = nth t s NaN.
Proof.
  revert t. induction s as [|x s IH]; intros t H; simpl in H; [lia|].
  destruct s as [|y s]; [simpl in H; lia|].
  destruct t as [|t]; [reflexivity|].
  change (removelast (x :: y :: s)) with (x :: removelast (y :: s)).
  simpl nth. apply IH. simpl in *. lia.
Qed.

Lemma pct_change_values_length (s : list cell) :
  length (pct_change_values s) = length s.
Proof.
  unfold pct_change_values.
  rewrite length_map, map2_length, shift1_length. apply Nat.min_id.
Qed.

Lemma pct_change_values_first (s : list cell) :
  s <> [] -> nth 0 (pct_change_values s) NaN = NaN.
Proof.
  destruct s as [|x s]; [now intros H; elim H|]. intros _.
  unfold pct_change_values. simpl. now destruct x.
Qed.

Lemma pct_change_values_next (s : list cell) (t : nat) :
  S t < length s ->
  nth (S t) (pct_change_values s) NaN
  = cell_sub (cell_div (nth (S t) s NaN) (nth t s NaN)) (Fin 1).
Proof.
  intros H. unfold pct_change_values.
  rewrite nth_map_in with (da := NaN)
    by (rewrite map2_length, shift1_length; lia).
  rewrite nth_map2 with (da := NaN) (db := NaN)
    by (rewrite ?shift1_length; lia).
  f_equal. f_equal.
  destruct s as [|x s]; [simpl in H; lia|].
  unfold shift1. cbn [nth]. now apply nth_removelast.
Qed.

Lemma pct_of_numbers (a b : Qc) :
  cell_sub (cell_div (Fin b) (Fin a)) (Fin 1)
  = if Qc_eq_dec a 0 then signed_inf (sign_of b) else Fin ((b - a) / a).
Proof.
  unfold cell_div. destruct (Qc_eq_dec a 0) as [E | Hne].
  - now destruct (sign_of b).
  - unfold cell_sub, cell_neg, cell_add. f_equal. field. exact Hne.
Qed.

Lemma pct_change_wf (data : DataFrame) :
  wf_frame data -> wf_frame (pct_change data).
Proof. apply map_columns_wf. apply pct_change_values_length. Qed.

(** C5 (amended).  On every well-formed panel with at least one column,
    [rets] is the table of [v[t] / v[t-1] - 1] without the rows that hold a
    missing cell.  The first row is always among the dropped ones.  For
    numbers [a = v[t-1]] and [b = v[t]]: the cell is [(b - a) / a] when
    [a <> 0]; when [a = 0] nothing fails and the cell is +inf for [b > 0],
    -inf for [b < 0] (infinite, not missing: such a row is kept) and
    missing for [b = 0] (such a row is dropped as a whole).  A later row is
    kept exactly when none of its cells is missing. *)
Theorem returns_spec (data : DataFrame) :
  wf_frame data -> columns data <> [] ->
  let pc := pct_change data in
  let keep := notna_all pc in
  returns data = take_rows keep pc
  /\ length keep = length (index data)
  /\ (index data <> [] -> nth 0 keep true = false)
  /\ (forall name s, In (name, s) (columns data) ->
        In (name, pct_change_values s) (columns pc)
        /\ forall t a b, S t < length s ->
             nth t s NaN = Fin a -> nth (S t) s NaN = Fin b ->
             let r := nth (S t) (pct_change_values s) NaN in
             (a <> 0%Qc -> r = Fin ((b - a) / a))
             /\ (a = 0%Qc -> (0 < b)%Qc -> r = PInf /\ isna r = false)
             /\ (a = 0%Qc -> (b < 0)%Qc -> r = NInf /\ isna r = false)
             /\ (a = 0%Qc -> b = 0%Qc -> r = NaN))
  /\ (forall t, S t < length (index data) ->
        (nth (S t) keep true = true <->
         forall c, In c (columns data) ->
                   notna (nth (S t) (pct_change_values (snd c)) NaN) = true)).
Proof.
  intros Hwf Hcols pc keep.
  pose proof (pct_change_wf Hwf) as Hwfpc. fold pc in Hwfpc.
  assert (Hidx : index pc = index data) by reflexivity.
  split; [reflexivity|].
  split; [unfold keep; now rewrite notna_all_length|].
  split; [|split].
  - intros Hne. unfold keep.
    assert (H0 : 0 < length (index data)).
    { destruct (index data); [now elim Hne | simpl; lia]. }
    rewrite notna_all_nth by (rewrite ?Hidx; assumption).
    unfold pc, pct_change, map_columns. simpl.
    destruct (columns data) as [|c cols] eqn:E; [now elim Hcols|].
    simpl. rewrite pct_change_values_first; [reflexivity|].
    unfold wf_frame in Hwf. rewrite E in Hwf. inversion Hwf as [|? ? Hc _].
    intros Es. rewrite Es in Hc. simpl in Hc. lia.
  - intros name s Hin. split.
    + unfold pc, pct_change, map_columns. simpl.
      apply in_map_iff. now exists (name, s).
    + intros t a b Ht Ha Hb r. unfold r.
      rewrite pct_change_values_next by exact Ht.
      rewrite Ha, Hb, pct_of_numbers.
      destruct (Qc_eq_dec a 0) as [E | Hne].
      * split; [intros H; now elim H|].
        split; [|split].
        -- intros _ Hlt.
           assert (Es : sign_of b = Lt) by (apply Qclt_alt; exact Hlt).
           rewrite Es. now split.
        -- intros _ Hlt.
           assert (Es : sign_of b = Gt) by (apply Qcgt_alt; exact Hlt).
           rewrite Es. now split.
        -- intros _ ->. reflexivity.
      * split; [reflexivity|].
        repeat split; intros; contradiction.
  - intros t Ht. unfold keep.
    rewrite notna_all_nth by (rewrite ?Hidx; first [assumption | lia]).
    rewrite forallb_forall. unfold pc, pct_change, map_columns. simpl.
    split.
    + intros H c Hin. apply (H (fst c, pct_change_values (snd c))).
      apply in_map_iff. now exists c.
    + intros H c Hin. apply in_map_iff in Hin as (c0 & <- & Hin0).
      simpl. now apply H.
Qed.

Lemma returns_spec_witness :
  let data := mkDF [1; 2; 3]%Z
                [("GSOX"%string, [Fin (qz 10); Fin (qz 11); Fin 0%Qc]);
                 ("SPX"%string, [Fin 0%Qc; Fin (qz 5); Fin (qz 5)])] in
  wf_frame data /\ columns data <> []
  /\ nth 0 (notna_all (pct_change data)) true = false.
Proof.
  intros data.
  assert (Hwf : wf_frame data) by (repeat constructor).
  assert (Hc : columns data <> []) by discriminate.
  split; [exact Hwf|]. split; [exact Hc|].
  apply (proj1 (proj2 (proj2 (returns_spec Hwf Hc)))). discriminate.
Defined.

(** C5, counterexample.  In the column 0, 1, 2 the return of the second
    date has the prior value 0: the cell is +inf, which pandas does not
    count as missing, and its row stays in [rets].  In the panel with the
    columns 0, 0, 5 and 1, 2, 3 the return 0/0 - 1 of the second date is
    missing and [dropna] removes that whole row, the defined return of the
    other column included: the missing cell is not handed on. *)
Lemma returns_zero_prior :
  let data := mkDF [1; 2; 3]%Z
                [("A"%string, [Fin 0%Qc; Fin 1%Qc; Fin (qz 2)])] in
  let data' := mkDF [1; 2; 3]%Z
                [("A"%string, [Fin 0%Qc; Fin 0%Qc; Fin (qz 5)]);
                 ("B"%string, [Fin 1%Qc; Fin (qz 2); Fin (qz 3)])] in
  complete data
  /\ index (returns data) = [2; 3]%Z
  /\ map (fun c => hd NaN (snd c)) (columns (returns data)) = [PInf]
  /\ isna PInf = false
  /\ complete data'
  /\ map (fun c => map isna (snd c)) (columns (pct_change data'))
     = [[true; true; false]; [true; false; false]]
  /\ index (returns data') = [3]%Z.
Proof.
  intros data data'. split; [repeat constructor|].
  split; [reflexivity|]. split; [reflexivity|]. split; [reflexivity|].
  split; [repeat constructor|]. split; reflexivity.
Qed.

(** ** Excess returns and the windows of [compute_pairwise_metrics] *)

Lemma assoc_in (A : Type) (k : string) (l : list (string * A)) (v : A) :
  assoc k l = Some v -> In (k, v) l.
Proof.
  induction l as [|[k' v'] l IH]; simpl; [discriminate|].
  destruct (String.eqb k k') eqn:E.
  - apply String.eqb_eq in E. subst k'. intros [= ->]. now left.
  - intros H. right. now apply IH.
Qed.

Lemma getcol_length (df : DataFrame) (name : string) (s : list cell) :
  wf_frame df -> getcol df name = Some s -> length s = length (index df).
Proof.
  intros Hwf H. apply assoc_in in H.
  unfold wf_frame in Hwf. rewrite Forall_forall in Hwf.
  exact (Hwf _ H).
Qed.

Lemma append_prefix_inj (p x y : string) :
  (p ++ x)%string = (p ++ y)%string -> x = y.
Proof.
  induction p as [|c p IH]; simpl; [auto|]. intros [= H]. now apply IH.
Qed.

Lemma excess_name_inj (asset a b : string) :
  excess_name asset a = excess_name asset b -> a = b.
Proof.
  unfold excess_name. intros H.
  apply append_prefix_inj in H. now apply append_prefix_inj in H.
Qed.

Lemma dict_of_pair (k1 k2 : string) (v1 v2 : list cell) :
  dict_of [(k1, v1); (k2, v2)]
  = if String.eqb k2 k1 then [(k2, v2)] else [(k1, v1); (k2, v2)].
Proof. reflexivity. Qed.

Lemma series_sub_nth (a b : list cell) (t : nat) :
  t < length a -> t < length b ->
  nth t (series_sub a b) NaN = cell_sub (nth t a NaN) (nth t b NaN).
Proof. intros Ha Hb. unfold series_sub. now apply nth_map2. Qed.

Lemma cell_sub_isna (x y : cell) :
  (x = NaN \/ exists q, x = Fin q) -> (y = NaN \/ exists q, y = Fin q) ->
  (isna (cell_sub x y) = true <-> isna x = true \/ isna y = true).
Proof.
  intros [-> | [q ->]] [-> | [q' ->]]; cbn; intuition discriminate.
Qed.

(** C4.  In the excess-return table that [compute_pairwise_metrics]
    builds for an asset and its two benchmarks, the cell of a benchmark at
    a date is the rolling period return of the asset minus that of the
    benchmark at the same date; it is missing exactly when one of the two
    is missing; and [dropna(how="all")] keeps the row of a date exactly
    when the cell of at least one benchmark is present. *)
Theorem excess_return_spec (sqrtq : Qc -> Qc) (rets : DataFrame)
        (asset bench_a bench_b : string) (s_asset s_a s_b : list cell) :
  wf_frame rets ->
  getcol rets asset = Some s_asset ->
  getcol rets bench_a = Some s_a ->
  getcol rets bench_b = Some s_b ->
  let r := fun s => rolling_period_return s ROLL_RET_WIN in
  let col_a := series_sub (r s_asset) (r s_a) in
  let col_b := series_sub (r s_asset) (r s_b) in
  let full := frame_of_dict (index rets)
                [(excess_name asset bench_a, col_a);
                 (excess_name asset bench_b, col_b)] in
  (exists corr_df beta_df,
      compute_pairwise_metrics sqrtq rets asset bench_a bench_b
      = Some (take_rows (notna_any full) full, corr_df, beta_df))
  /\ (forall name, In name (column_names full) ->
        name = excess_name asset bench_a \/ name = excess_name asset bench_b)
  /\ In (excess_name asset bench_a, col_a) (columns full)
  /\ In (excess_name asset bench_b, col_b) (columns full)
  /\ (forall t, t < length (index rets) ->
        nth t col_a NaN
        = cell_sub (nth t (r s_asset) NaN) (nth t (r s_a) NaN)
        /\ nth t col_b NaN
           = cell_sub (nth t (r s_asset) NaN) (nth t (r s_b) NaN)
        /\ (isna (nth t col_a NaN) = true <->
            isna (nth t (r s_asset) NaN) = true
            \/ isna (nth t (r s_a) NaN) = true)
        /\ (isna (nth t col_b NaN) = true <->
            isna (nth t (r s_asset) NaN) = true
            \/ isna (nth t (r s_b) NaN) = true)
        /\ (nth t (notna_any full) false = true <->
            notna (nth t col_a NaN) = true
            \/ notna (nth t col_b NaN) = true)).
Proof.
  intros Hwf Hasset Ha Hb r col_a col_b full.
  pose proof (getcol_length _ Hwf Hasset) as Lasset.
  pose proof (getcol_length _ Hwf Ha) as La.
  pose proof (getcol_length _ Hwf Hb) as Lb.
  assert (Lr : forall s, length (r s) = length s)
    by (intros s; apply rolling_period_return_length).
  assert (Lca : length col_a = length (index rets)).
  { unfold col_a, series_sub. rewrite map2_length, !Lr. lia. }
  assert (Lcb : length col_b = length (index rets)).
  { unfold col_b, series_sub. rewrite map2_length, !Lr. lia. }
  assert (Hcols : columns full
                  = if String.eqb (excess_name asset bench_b)
                                  (excess_name asset bench_a)
                    then [(excess_name asset bench_b, col_b)]
                    else [(excess_name asset bench_a, col_a);
                          (excess_name asset bench_b, col_b)])
    by reflexivity.
  assert (Hsame : String.eqb (excess_name asset bench_b)
                             (excess_name asset bench_a) = true ->
                  excess_name asset bench_a = excess_name asset bench_b
                  /\ col_a = col_b).
  { intros E. apply String.eqb_eq in E. split; [now symmetry|].
    apply excess_name_inj in E. subst bench_b.
    rewrite Ha in Hb. injection Hb as ->. reflexivity. }
  assert (Hwff : wf_frame full).
  { unfold wf_frame. rewrite Hcols.
    destruct (String.eqb _ _); repeat constructor; simpl; assumption. }
  split; [|split; [|split; [|split]]].
  - unfold compute_pairwise_metrics. rewrite Hasset, Ha, Hb.
    unfold pairwise_metrics_of. eexists. eexists. reflexivity.
  - intros name. unfold column_names. rewrite Hcols.
    destruct (String.eqb _ _); simpl; intuition (subst; auto).
  - rewrite Hcols. destruct (String.eqb _ _) eqn:E.
    + destruct (Hsame eq_refl) as [-> ->]. now left.
    + now left.
  - rewrite Hcols. destruct (String.eqb _ _); simpl; auto.
  - intros t Ht.
    assert (Ea : nth t col_a NaN
                 = cell_sub (nth t (r s_asset) NaN) (nth t (r s_a) NaN))
      by (apply series_sub_nth; rewrite Lr; lia).
    assert (Eb : nth t col_b NaN
                 = cell_sub (nth t (r s_asset) NaN) (nth t (r s_b) NaN))
      by (apply series_sub_nth; rewrite Lr; lia).
    split; [exact Ea|]. split; [exact Eb|].
    split; [rewrite Ea; apply cell_sub_isna;
            apply rolling_period_return_nan_or_fin|].
    split; [rewrite Eb; apply cell_sub_isna;
            apply rolling_period_return_nan_or_fin|].
    rewrite notna_any_nth by assumption.
    rewrite Hcols. destruct (String.eqb _ _) eqn:E.
    + destruct (Hsame eq_refl) as [_ Ecol]. rewrite Ecol. simpl.
      rewrite orb_false_r. tauto.
    + simpl. rewrite orb_false_r. apply orb_true_iff.
Qed.

(** C6 (amended).  [compute_pairwise_metrics] has no window argument: for
    every call its result is the one that the assembly of the
    specification gives for the windows [ROLL_RET_WIN] and [ROLL_RISK_WIN],
    the module constants 63 and 126.  (Only [rolling_period_return] and
    [rolling_beta] take their window from their caller.) *)
Theorem windows_are_module_constants (sqrtq : Qc -> Qc) (rets : DataFrame)
        (asset bench_a bench_b : string) :
  ROLL_RET_WIN = 63 /\ ROLL_RISK_WIN = 126
  /\ compute_pairwise_metrics sqrtq rets asset bench_a bench_b
     = spec_pairwise_metrics sqrtq ROLL_RET_WIN ROLL_RISK_WIN
                             rets asset bench_a bench_b.
Proof.
  split; [reflexivity|]. split; [reflexivity|].
  unfold compute_pairwise_metrics, spec_pairwise_metrics, pairwise_metrics_of.
  destruct (getcol rets asset), (getcol rets bench_a), (getcol rets bench_b);
    reflexivity.
Qed.

Lemma excess_return_spec_witness :
  let rets := mkDF (map Z.of_nat (seq 1 64))
                [("GSOX"%string, repeat (Fin (Q2Qc (1 # 100))) 64);
                 ("SPX"%string, repeat (Fin 0%Qc) 64);
                 ("MXWO"%string, NaN :: repeat (Fin 0%Qc) 63)] in
  let r := fun s => rolling_period_return s ROLL_RET_WIN in
  let col_a := series_sub (r (repeat (Fin (Q2Qc (1 # 100))) 64))
                          (r (repeat (Fin 0%Qc) 64)) in
  let col_b := series_sub (r (repeat (Fin (Q2Qc (1 # 100))) 64))
                          (r (NaN :: repeat (Fin 0%Qc) 63)) in
  let full := frame_of_dict (index rets)
                [(excess_name "GSOX" "SPX", col_a);
                 (excess_name "GSOX" "MXWO", col_b)] in
  wf_frame rets
  /\ getcol rets "GSOX" = Some (repeat (Fin (Q2Qc (1 # 100))) 64)
  /\ getcol rets "SPX" = Some (repeat (Fin 0%Qc) 64)
  /\ getcol rets "MXWO" = Some (NaN :: repeat (Fin 0%Qc) 63)
  /\ (nth 62 (notna_any full) false = true <->
      notna (nth 62 col_a NaN) = true \/ notna (nth 62 col_b NaN) = true)
  /\ index (take_rows (notna_any full) full) = [63; 64]%Z.
Proof.
  intros rets r col_a col_b full.
  assert (Hwf : wf_frame rets) by (repeat constructor).
  split; [exact Hwf|]. split; [reflexivity|]. split; [reflexivity|].
  split; [reflexivity|]. split; [|vm_compute; reflexivity].
  apply (excess_return_spec (fun q => q) (rets := rets)
           "GSOX" "SPX" "MXWO" Hwf eq_refl eq_refl eq_refl).
  simpl. lia.
Defined.

(** C6, counterexample.  On three rows of returns a caller who wants the
    windows 2 and 2 has no way to pass them: the excess-return table of
    [compute_pairwise_metrics] is the one of the window 63, which has no
    row at all, and not the table of the window 2, which has the rows of
    the second and third date. *)
Lemma windows_not_adjustable :
  let rets := mkDF [2; 3; 4]%Z
    [("GSOX"%string,
       [Fin (Q2Qc (1 # 10)); Fin (Q2Qc (-1 # 10)); Fin (Q2Qc (2 # 33))]);
     ("SPX"%string,
       [Fin (Q2Qc (1 # 20)); Fin (Q2Qc (-1 # 21)); Fin (Q2Qc (1 # 50))]);
     ("MXWO"%string,
       [Fin (Q2Qc (1 # 25)); Fin (Q2Qc (-1 # 30)); Fin (Q2Qc (1 # 40))])] in
  let sq := fun q : Qc => q in
  let excess_index :=
    option_map (fun m : DataFrame * DataFrame * DataFrame =>
                  index (fst (fst m))) in
  excess_index (compute_pairwise_metrics sq rets "GSOX" "SPX" "MXWO")
  = Some []
  /\ excess_index (spec_pairwise_metrics sq 2 2 rets "GSOX" "SPX" "MXWO")
     = Some [3; 4]%Z
  /\ compute_pairwise_metrics sq rets "GSOX" "SPX" "MXWO"
     <> spec_pairwise_metrics sq 2 2 rets "GSOX" "SPX" "MXWO".
Proof.
  intros rets sq excess_index.
  assert (H1 : excess_index
                 (compute_pairwise_metrics sq rets "GSOX" "SPX" "MXWO")
               = Some []) by (vm_compute; reflexivity).
  assert (H2 : excess_index
                 (spec_pairwise_metrics sq 2 2 rets "GSOX" "SPX" "MXWO")
               = Some [3; 4]%Z) by (vm_compute; reflexivity).
  split; [exact H1|]. split; [exact H2|].
  intros E. rewrite E, H2 in H1. discriminate.
Qed.

(** ** Building the panel *)

Lemma build_panel_from (raw : RawData) (names : list (string * string))
      (stderr : list string) (panel : list DataFrame) :
  fold_left (panel_step raw) names (stderr, panel)
  = (stderr ++ map warning_for (skipped_tickers raw names),
     panel ++ usable_frames raw names).
Proof.
  revert stderr panel. induction names as [|[bbt short] names IH];
    intros stderr panel; cbn [fold_left].
  - simpl. now rewrite !app_nil_r.
  - assert (Hstep : panel_step raw (stderr, panel) (bbt, short)
                    = (stderr ++ (if no_data raw bbt
                                  then [warning_for bbt] else []),
                       panel ++ usable_frames raw [(bbt, short)])).
    { unfold panel_step, no_data, usable_frames. simpl.
      destruct (assoc bbt raw) as [[df|]|]; [destruct (empty df)|..];
        now rewrite ?app_nil_r. }
    rewrite Hstep, IH. unfold skipped_tickers, usable_frames.
    cbn [map fst snd filter flat_map]. rewrite app_nil_r.
    destruct (no_data raw bbt); simpl; now rewrite <- !app_assoc.
Qed.

Lemma build_panel_spec (raw : RawData) (names : list (string * string)) :
  build_panel raw names
  = (map warning_for (skipped_tickers raw names), usable_frames raw names).
Proof. unfold build_panel. now rewrite build_panel_from. Qed.

Lemma usable_frames_nil (raw : RawData) (names : list (string * string)) :
  (forall bbt, In bbt (map fst names) -> no_data raw bbt = true) ->
  usable_frames raw names = [].
Proof.
  induction names as [|[bbt short] names IH]; intros H; [reflexivity|].
  unfold usable_frames. simpl.
  pose proof (H bbt (or_introl eq_refl)) as Hb. unfold no_data in Hb.
  destruct (assoc bbt raw) as [[df|]|]; try rewrite Hb; simpl;
    apply IH; intros b Hin; apply H; now right.
Qed.

Lemma usable_frames_length (raw : RawData) (names : list (string * string)) :
  length (usable_frames raw names)
  = length (filter (fun b => negb (no_data raw b)) (map fst names)).
Proof.
  induction names as [|[bbt short] names IH]; [reflexivity|].
  unfold usable_frames. simpl. unfold no_data at 1.
  rewrite length_app. fold (usable_frames raw names). rewrite IH.
  destruct (assoc bbt raw) as [[df|]|]; simpl; try reflexivity.
  destruct (empty df); reflexivity.
Qed.

Lemma has_column_getcol (df : DataFrame) (name : string) :
  has_column df name = true -> exists v, getcol df name = Some v.
Proof.
  unfold has_column, column_names, getcol.
  induction (columns df) as [|[k v] cols IH]; simpl; [discriminate|].
  destruct (String.eqb name k); simpl; [now exists v | exact IH].
Qed.

(** The frame appended for a ticker with data has the index of the raw
    frame and the single column [short]. *)
Lemma select_value_column_single (df : DataFrame) (short : string) :
  empty df = false ->
  exists v, select_value_column df short = mkDF (index df) [(short, v)].
Proof.
  intros He. unfold select_value_column.
  set (val_col := if USE_TOTAL_RETURN && has_column df tr_field
                  then tr_field else base_field).
  assert (Hhas : has_column df (if has_column df val_col then val_col
                                else hd val_col (column_names df)) = true).
  { destruct (has_column df val_col) eqn:E; [exact E|].
    unfold empty in He. apply orb_false_iff in He as [_ He].
    apply Nat.eqb_neq in He. unfold has_column, column_names.
    destruct (columns df) as [|[k v] cols]; [now elim He|].
    simpl. now rewrite String.eqb_refl. }
  destruct (has_column_getcol _ _ Hhas) as [v Hv]. exists v.
  now rewrite Hv.
Qed.

(** C9.  The loop of [main] writes one warning for each ticker of
    [name_map] that is absent from [raw], bound to None or bound to an empty
    frame, and skips it.  When every ticker is like that the run ends with
    the RuntimeError "No data available for any ticker." before any
    alignment; as soon as one ticker has data, the frames of the tickers
    with data (one single-column frame each, in the order of [name_map])
    are what [align] is run on. *)
Theorem partial_failure_tolerance (kind : sort_kind) (raw : RawData) :
  let tickers := map fst name_map in
  let panel := usable_frames raw name_map in
  fst (aligned_panel kind raw) = map warning_for (filter (no_data raw) tickers)
  /\ ((forall bbt, In bbt tickers -> no_data raw bbt = true) ->
      snd (aligned_panel kind raw)
      = RuntimeError "No data available for any ticker.")
  /\ ((exists bbt, In bbt tickers /\ no_data raw bbt = false) ->
      panel <> []
      /\ snd (aligned_panel kind raw)
         = match align kind panel with
           | Some data => Ok data
           | None => PandasError
           end)
  /\ length panel = length (filter (fun b => negb (no_data raw b)) tickers)
  /\ (forall bbt short df,
        In (bbt, short) name_map ->
        assoc bbt raw = Some (Some df) -> empty df = false ->
        In (select_value_column df short) panel
        /\ exists v,
            select_value_column df short = mkDF (index df) [(short, v)]).
Proof.
  intros tickers panel.
  assert (Hrun : aligned_panel kind raw
                 = match panel with
                   | [] => (map warning_for (filter (no_data raw) tickers),
                            RuntimeError "No data available for any ticker.")
                   | _ :: _ =>
                       match align kind panel with
                       | Some data =>
                           (map warning_for (filter (no_data raw) tickers),
                            Ok data)
                       | None =>
                           (map warning_for (filter (no_data raw) tickers),
                            PandasError)
                       end
                   end).
  { unfold aligned_panel. now rewrite build_panel_spec. }
  assert (Hlen : length panel
                 = length (filter (fun b => negb (no_data raw b)) tickers))
    by apply usable_frames_length.
  assert (Hnil : (forall bbt, In bbt tickers -> no_data raw bbt = true) ->
                 panel = []) by apply usable_frames_nil.
  assert (Hkeep : forall bbt short df,
             In (bbt, short) name_map ->
             assoc bbt raw = Some (Some df) -> empty df = false ->
             In (select_value_column df short) panel).
  { intros bbt short df Hin Hraw He. unfold panel, usable_frames.
    apply in_flat_map. exists (bbt, short). split; [exact Hin|]. simpl.
    rewrite Hraw, He. now left. }
  clearbody panel tickers.
  split; [|split; [|split; [|split]]].
  - rewrite Hrun. destruct panel; [reflexivity|].
    destruct (align kind _); reflexivity.
  - intros Hall. rewrite Hrun. now rewrite (Hnil Hall).
  - intros (bbt & Hin & Hdata).
    assert (Hne : panel <> []).
    { intros E. rewrite E in Hlen. simpl in Hlen.
      assert (Hin' : In bbt (filter (fun b => negb (no_data raw b)) tickers)).
      { apply filter_In. split; [exact Hin|]. now rewrite Hdata. }
      destruct (filter (fun b => negb (no_data raw b)) tickers);
        [exact Hin' | discriminate]. }
    split; [exact Hne|]. rewrite Hrun.
    destruct panel; [now elim Hne|]. destruct (align kind _); reflexivity.
  - exact Hlen.
  - intros bbt short df Hin Hraw He. split.
    + now apply Hkeep with (bbt := bbt).
    + now apply select_value_column_single.
Qed.

(** ** Index labels: membership and uniqueness *)

Lemma mem_In (d : Z) (l : list Z) : mem d l = true <-> In d l.
Proof.
  unfold mem. rewrite existsb_exists. split.
  - intros (e & Hin & He). apply Z.eqb_eq in He. now subst.
  - intros Hin. exists d. split; [exact Hin | apply Z.eqb_refl].
Qed.

Lemma mem_false (d : Z) (l : list Z) : mem d l = false <-> ~ In d l.
Proof.
  rewrite <- mem_In. destruct (mem d l); split; intros H;
    try reflexivity; try discriminate; try (intros E; discriminate).
  now elim H.
Qed.

Lemma is_unique_NoDup (l : list Z) : is_unique l = true <-> NoDup l.
Proof.
  induction l as [|d l IH]; simpl.
  - split; [constructor | reflexivity].
  - rewrite andb_true_iff, negb_true_iff, mem_false, IH.
    split.
    + intros [Hn Hl]. now constructor.
    + intros H. inversion H. now split.
Qed.

Lemma unique_from_In (l seen : list Z) (d : Z) :
  In d (unique_from seen l) <-> In d l /\ ~ In d seen.
Proof.
  revert seen. induction l as [|e l IH]; intros seen; simpl.
  - tauto.
  - destruct (mem e seen) eqn:E.
    + apply mem_In in E. rewrite IH. split.
      * intros [H1 H2]. tauto.
      * intros [[-> | H1] H2]; [contradiction | tauto].
    + apply mem_false in E. simpl. rewrite IH. simpl. split.
      * intros [-> | [H1 H2]]; [tauto|]. split; [tauto|].
        intros H3. apply H2. now right.
      * intros [[-> | H1] H2]; [now left|].
        destruct (Z.eq_dec e d) as [-> | Hne]; [now left|].
        right. split; [exact H1|]. intros [H3 | H3]; contradiction.
Qed.

Lemma unique_In (l : list Z) (d : Z) : In d (unique l) <-> In d l.
Proof. unfold unique. rewrite unique_from_In. simpl. tauto. Qed.

Lemma union_with_duplicates_In (a b : list Z) (d : Z) :
  In d (union_with_duplicates a b) <-> In d a \/ In d b.
Proof.
  unfold union_with_duplicates. rewrite in_flat_map. split.
  - intros (v & Hv & Hd). apply repeat_spec in Hd. subst v.
    rewrite unique_In in Hv. now apply in_app_or.
  - intros H. exists d. split; [apply unique_In; now apply in_or_app|].
    assert (Hc : 0 < Nat.max (count_occ Z.eq_dec a d)
                             (count_occ Z.eq_dec b d)).
    { destruct H as [H | H]; apply (count_occ_In Z.eq_dec) in H; lia. }
    destruct (Nat.max _ _); [lia | now left].
Qed.

Lemma index_union_In (a b : list Z) (d : Z) :
  In d (index_union a b) <-> In d a \/ In d b.
Proof.
  unfold index_union.
  destruct ((length b =? 0) || index_equals a b) eqn:E1.
  - apply orb_true_iff in E1 as [E | E].
    + apply Nat.eqb_eq, length_zero_iff_nil in E. subst b. simpl. tauto.
    + unfold index_equals in E.
      destruct (list_eq_dec Z.eq_dec a b); [subst; tauto | discriminate].
  - destruct (length a =? 0) eqn:E2.
    + apply Nat.eqb_eq, length_zero_iff_nil in E2. subst a. simpl. tauto.
    + destruct (negb (is_unique b)).
      * apply union_with_duplicates_In.
      * rewrite in_app_iff, filter_In, negb_true_iff, mem_false.
        destruct (in_dec Z.eq_dec d a); tauto.
Qed.

Lemma union_indexes_In (indexes : list (list Z)) (d : Z) :
  In d (union_indexes indexes) <-> exists i, In i indexes /\ In d i.
Proof.
  destruct indexes as [|first rest]; simpl.
  - split; [tauto | now intros (i & [] & _)].
  - revert first. induction rest as [|i rest IH]; intros first; simpl.
    + split.
      * intros H. exists first. auto.
      * intros (i & [<- | []] & H). exact H.
    + rewrite IH. split.
      * intros (j & [<- | Hj] & Hd).
        -- apply index_union_In in Hd as [Hd | Hd];
             [exists first | exists i]; auto.
        -- exists j. auto.
      * intros (j & [<- | [<- | Hj]] & Hd).
        -- exists (index_union first i). split; [now left|].
           apply index_union_In. now left.
        -- exists (index_union first i). split; [now left|].
           apply index_union_In. now right.
        -- exists j. auto.
Qed.

(** [duplicated(keep="first")] marks a row exactly when an earlier row
    carries the same label; dropping the marked rows leaves the distinct
    labels in order of first appearance. *)
Lemma duplicated_from_length (l seen : list Z) :
  length (duplicated_from seen l) = length l.
Proof. revert seen. induction l; intros seen; simpl; auto. Qed.

Lemma duplicated_from_nth (l seen : list Z) (i : nat) :
  i < length l ->
  (nth i (duplicated_from seen l) false = true <->
   In (nth i l 0%Z) seen
   \/ exists j, j < i /\ nth j l 0%Z = nth i l 0%Z).
Proof.
  revert seen i. induction l as [|d l IH]; intros seen i Hi; simpl in Hi;
    [lia|].
  destruct i as [|i]; simpl.
  - rewrite mem_In. split; [auto|]. intros [H | (j & Hj & _)]; [exact H | lia].
  - rewrite IH by lia. simpl. split.
    + intros [[<- | H] | (j & Hj & E)].
      * right. exists 0. split; [lia | reflexivity].
      * now left.
      * right. exists (S j). split; [lia | exact E].
    + intros [H | (j & Hj & E)]; [left; now right|].
      destruct j as [|j]; [left; now left|].
      right. exists j. split; [lia | exact E].
Qed.

Lemma mem_ext (seen seen' : list Z) (d : Z) :
  (forall x, In x seen <-> In x seen') -> mem d seen = mem d seen'.
Proof.
  intros H. destruct (mem d seen') eqn:E.
  - apply mem_In. apply H. now apply mem_In.
  - apply mem_false. rewrite H. now apply mem_false.
Qed.

Lemma unique_from_ext (l seen seen' : list Z) :
  (forall x, In x seen <-> In x seen') ->
  unique_from seen l = unique_from seen' l.
Proof.
  revert seen seen'. induction l as [|d l IH]; intros seen seen' H; simpl;
    [reflexivity|].
  rewrite (@mem_ext seen seen' d H). destruct (mem d seen'); [now apply IH|].
  f_equal. apply IH. intros x. simpl. rewrite H. tauto.
Qed.

Lemma drop_duplicated_unique (l seen : list Z) :
  take_mask (map negb (duplicated_from seen l)) l = unique_from seen l.
Proof.
  revert seen. induction l as [|d l IH]; intros seen; simpl;
    [reflexivity|].
  destruct (mem d seen) eqn:E; simpl; rewrite IH; [|reflexivity].
  apply unique_from_ext. intros x. simpl. apply mem_In in E.
  split; [intros [<- | H]; assumption | now right].
Qed.

Lemma unique_from_sorted (l seen : list Z) :
  StronglySorted Z.le l -> StronglySorted Z.lt (unique_from seen l).
Proof.
  intros H. revert seen. induction H as [|d l Hl IH Hd]; intros seen; simpl.
  - constructor.
  - destruct (mem d seen); [apply IH|].
    constructor; [apply IH|].
    rewrite Forall_forall in *. intros e He.
    apply unique_from_In in He as [He Hns].
    specialize (Hd e He).
    assert (e <> d) by (intros ->; apply Hns; now left). lia.
Qed.

(** ** sort_index *)

Lemma insert_key_perm (p : Z * nat) (l : list (Z * nat)) :
  Permutation (insert_key p l) (p :: l).
Proof.
  induction l as [|q l IH]; simpl; [apply Permutation_refl|].
  destruct (Z.leb (fst p) (fst q)); [apply Permutation_refl|].
  apply perm_trans with (q :: p :: l); [now constructor | constructor].
Qed.

Lemma insert_key_sorted (p : Z * nat) (l : list (Z * nat)) :
  StronglySorted key_le l -> StronglySorted key_le (insert_key p l).
Proof.
  induction 1 as [|q l Hl IH Hq]; simpl.
  - repeat constructor.
  - destruct (Z.leb_spec (fst p) (fst q)) as [Hle | Hgt].
    + constructor; [now constructor|]. constructor; [exact Hle|].
      eapply Forall_impl; [|exact Hq]. unfold key_le. intros r Hr. lia.
    + constructor; [exact IH|].
      rewrite Forall_forall in *. intros r Hr.
      apply (Permutation_in _ (insert_key_perm p l)) in Hr.
      destruct Hr as [<- | Hr]; [unfold key_le; lia | now apply Hq].
Qed.

Lemma sorted_keys_perm (labels : list Z) :
  Permutation (sorted_keys labels)
              (combine labels (seq 0 (length labels))).
Proof.
  unfold sorted_keys.
  induction (combine labels (seq 0 (length labels))) as [|p l IH]; simpl;
    [constructor|].
  apply perm_trans with (p :: fold_right insert_key [] l);
    [apply insert_key_perm | now constructor].
Qed.

Lemma sorted_keys_sorted (labels : list Z) :
  StronglySorted key_le (sorted_keys labels).
Proof.
  unfold sorted_keys.
  induction (combine labels (seq 0 (length labels))) as [|p l IH]; simpl;
    [constructor | now apply insert_key_sorted].
Qed.

Lemma in_combine_seq (l : list Z) (s : nat) (d : Z) (i : nat) :
  In (d, i) (combine l (seq s (length l))) ->
  s <= i /\ nth (i - s) l 0%Z = d.
Proof.
  revert s. induction l as [|e l IH]; intros s; simpl; [tauto|].
  intros [[= -> ->] | H].
  - rewrite Nat.sub_diag. split; [lia | reflexivity].
  - apply IH in H as [Hs Hn]. split; [lia|].
    replace (i - s) with (S (i - S s)) by lia. exact Hn.
Qed.

Lemma map_fst_combine (A B : Type) (l : list A) (m : list B) :
  length l = length m -> map fst (combine l m) = l.
Proof.
  revert m. induction l as [|x l IH]; intros [|y m] H; simpl in *;
    try discriminate; try reflexivity.
  f_equal. apply IH. lia.
Qed.

Lemma map_snd_combine_seq (l : list Z) (s : nat) :
  map snd (combine l (seq s (length l))) = seq s (length l).
Proof.
  revert s. induction l as [|d l IH]; intros s; [reflexivity|].
  cbn [length seq combine map snd]. now rewrite IH.
Qed.

(** In a permutation of the (label, position) pairs, the label of the
    position is the label of the pair. *)
Lemma keys_labels (labels : list Z) (keys : list (Z * nat)) :
  Permutation keys (combine labels (seq 0 (length labels))) ->
  map (fun i => nth i labels 0%Z) (map snd keys) = map fst keys.
Proof.
  intros Hp. rewrite map_map. apply map_ext_in. intros [d i] Hin.
  apply (Permutation_in _ Hp) in Hin.
  apply in_combine_seq in Hin as [_ Hn]. simpl.
  now rewrite Nat.sub_0_r in Hn.
Qed.

Lemma keys_sorted_labels (keys : list (Z * nat)) :
  StronglySorted key_le keys -> StronglySorted Z.le (map fst keys).
Proof.
  induction 1 as [|p l Hl IH Hp]; simpl; constructor; [exact IH|].
  rewrite Forall_map. exact Hp.
Qed.

Lemma stable_argsort_sorts : sorts stable_argsort.
Proof.
  intros labels. unfold stable_argsort. split.
  - rewrite <- (map_snd_combine_seq labels 0).
    apply Permutation_map, sorted_keys_perm.
  - rewrite (@keys_labels labels _ (sorted_keys_perm labels)).
    apply keys_sorted_labels, sorted_keys_sorted.
Qed.

Lemma insert_key_before_perm (p : Z * nat) (l : list (Z * nat)) :
  Permutation (insert_key_before p l) (p :: l).
Proof.
  induction l as [|q l IH]; simpl; [apply Permutation_refl|].
  destruct (Z.ltb (fst p) (fst q)); [apply Permutation_refl|].
  apply perm_trans with (q :: p :: l); [now constructor | constructor].
Qed.

Lemma insert_key_before_sorted (p : Z * nat) (l : list (Z * nat)) :
  StronglySorted key_le l -> StronglySorted key_le (insert_key_before p l).
Proof.
  induction 1 as [|q l Hl IH Hq]; simpl.
  - repeat constructor.
  - destruct (Z.ltb_spec (fst p) (fst q)) as [Hlt | Hge].
    + constructor; [now constructor|]. constructor; [unfold key_le; lia|].
      eapply Forall_impl; [|exact Hq]. unfold key_le. intros r Hr. lia.
    + constructor; [exact IH|].
      rewrite Forall_forall in *. intros r Hr.
      apply (Permutation_in _ (insert_key_before_perm p l)) in Hr.
      destruct Hr as [<- | Hr]; [unfold key_le; lia | now apply Hq].
Qed.

Lemma insertion_before_perm (pairs : list (Z * nat)) :
  Permutation (fold_right insert_key_before [] pairs) pairs.
Proof.
  induction pairs as [|p l IH]; simpl; [constructor|].
  apply perm_trans with (p :: fold_right insert_key_before [] l);
    [apply insert_key_before_perm | now constructor].
Qed.

Lemma insertion_before_sorted (pairs : list (Z * nat)) :
  StronglySorted key_le (fold_right insert_key_before [] pairs).
Proof.
  induction pairs as [|p l IH]; simpl;
    [constructor | now apply insert_key_before_sorted].
Qed.

Lemma latest_first_argsort_sorts : sorts latest_first_argsort.
Proof.
  intros labels. unfold latest_first_argsort. split.
  - eapply Permutation_trans;
      [apply Permutation_map, insertion_before_perm|].
    rewrite map_snd_combine_seq. apply Permutation_refl.
  - rewrite (@keys_labels labels _ (insertion_before_perm _)).
    apply keys_sorted_labels, insertion_before_sorted.
Qed.

Lemma map_nth_seq_id (A : Type) (l : list A) (d : A) (n : nat) :
  n = length l -> map (fun i => nth i l d) (seq 0 n) = l.
Proof.
  intros ->. apply nth_ext with (d := d) (d' := d).
  - now rewrite length_map, length_seq.
  - intros t Ht. rewrite length_map, length_seq in Ht.
    now rewrite nth_map_seq.
Qed.

Lemma is_monotonic_sorted (labels : list Z) :
  is_monotonic_increasing labels = true <-> StronglySorted Z.le labels.
Proof.
  induction labels as [|d rest IH]; [split; [constructor | reflexivity]|].
  cbn [is_monotonic_increasing]. destruct rest as [|e rest].
  - split; [repeat constructor | reflexivity].
  - rewrite andb_true_iff, Z.leb_le, IH. split.
    + intros [Hde Hs]. constructor; [exact Hs|].
      inversion Hs as [|? ? _ He]; subst. constructor; [exact Hde|].
      eapply Forall_impl; [|exact He]. intros x Hx. simpl in Hx. lia.
    + intros Hs. inversion Hs as [|? ? Hs' Hd]; subst.
      inversion Hd; subst. now split.
Qed.

(** The order of [sort_index] lists every position once and puts the
    labels in ascending order. *)
Lemma sort_order_sorts (kind : sort_kind) (labels : list Z) :
  sorts kind ->
  Permutation (sort_order kind labels) (seq 0 (length labels))
  /\ StronglySorted Z.le
       (map (fun i => nth i labels 0%Z) (sort_order kind labels)).
Proof.
  intros Hk. unfold sort_order.
  destruct (is_monotonic_increasing labels) eqn:E; [|apply Hk].
  split; [apply Permutation_refl|].
  rewrite map_nth_seq_id by reflexivity. now apply is_monotonic_sorted.
Qed.

Lemma sort_order_length (kind : sort_kind) (labels : list Z) :
  sorts kind -> length (sort_order kind labels) = length labels.
Proof.
  intros Hk. destruct (sort_order_sorts labels Hk) as [Hp _].
  rewrite (Permutation_length Hp). apply length_seq.
Qed.

Lemma sort_order_bound (kind : sort_kind) (labels : list Z) :
  sorts kind ->
  Forall (fun i => i < length labels) (sort_order kind labels).
Proof.
  intros Hk. destruct (sort_order_sorts labels Hk) as [Hp _].
  apply Forall_forall. intros i Hi.
  apply (Permutation_in _ Hp) in Hi. apply in_seq in Hi. lia.
Qed.

Lemma sort_index_perm (kind : sort_kind) (df : DataFrame) :
  sorts kind -> Permutation (index (sort_index kind df)) (index df).
Proof.
  intros Hk. unfold sort_index. cbn [index].
  destruct (sort_order_sorts (index df) Hk) as [Hp _].
  rewrite <- (map_nth_seq_id (index df) 0%Z eq_refl) at 2.
  now apply Permutation_map.
Qed.

Lemma sort_index_sorted (kind : sort_kind) (df : DataFrame) :
  sorts kind -> StronglySorted Z.le (index (sort_index kind df)).
Proof.
  intros Hk. unfold sort_index. cbn [index].
  now apply sort_order_sorts.
Qed.

Lemma sort_index_wf (kind : sort_kind) (df : DataFrame) :
  wf_frame (sort_index kind df).
Proof.
  unfold wf_frame, sort_index. simpl. rewrite Forall_map.
  apply Forall_forall. intros c _. simpl. now rewrite !length_map.
Qed.

(** Ascending permutations of the same labels are equal. *)
Lemma sorted_perm_unique (a b : list Z) :
  StronglySorted Z.le a -> StronglySorted Z.le b -> Permutation a b ->
  a = b.
Proof.
  intros Ha. revert b. induction Ha as [|x a Ha IH Hx]; intros b Hb Hp.
  - apply Permutation_nil in Hp. now subst.
  - destruct b as [|y b].
    { apply Permutation_sym, Permutation_nil in Hp. discriminate. }
    inversion Hb as [|? ? Hb' Hy]; subst.
    assert (Exy : x = y).
    { rewrite Forall_forall in Hx, Hy.
      assert (H1 : In x (y :: b))
        by (apply (Permutation_in _ Hp); now left).
      assert (H2 : In y (x :: a))
        by (apply (Permutation_in _ (Permutation_sym Hp)); now left).
      destruct H1 as [-> | H1]; [reflexivity|].
      destruct H2 as [-> | H2]; [reflexivity|].
      specialize (Hx _ H2). specialize (Hy _ H1). lia. }
    subst y. f_equal. apply IH; [exact Hb'|].
    now apply Permutation_cons_inv with x.
Qed.

Lemma map_inj_on (g : nat -> Z) (a b : list nat) :
  (forall i j, In i a -> In j b -> g i = g j -> i = j) ->
  map g a = map g b -> a = b.
Proof.
  revert b. induction a as [|i a IH]; intros [|j b] Hinj H; simpl in H;
    try discriminate; [reflexivity|].
  injection H as H0 H1. f_equal.
  - apply Hinj; [now left | now left | exact H0].
  - apply IH; [|exact H1]. intros i' j' Hi Hj. apply Hinj; now right.
Qed.

(** On distinct labels every sorting routine returns the same order. *)
Lemma sort_order_unique (k1 k2 : sort_kind) (labels : list Z) :
  sorts k1 -> sorts k2 -> NoDup labels ->
  sort_order k1 labels = sort_order k2 labels.
Proof.
  intros H1 H2 Hnd.
  destruct (sort_order_sorts labels H1) as [P1 S1].
  destruct (sort_order_sorts labels H2) as [P2 S2].
  apply map_inj_on with (g := fun i => nth i labels 0%Z).
  - intros i j Hi Hj E.
    apply (Permutation_in _ P1), in_seq in Hi.
    apply (Permutation_in _ P2), in_seq in Hj.
    apply (proj1 (NoDup_nth labels 0%Z) Hnd); [lia | lia | exact E].
  - apply sorted_perm_unique; [exact S1 | exact S2|].
    apply perm_trans with (map (fun i => nth i labels 0%Z)
                               (seq 0 (length labels))).
    + now apply Permutation_map.
    + apply Permutation_sym. now apply Permutation_map.
Qed.

Lemma sort_index_unique (k1 k2 : sort_kind) (df : DataFrame) :
  sorts k1 -> sorts k2 -> NoDup (index df) ->
  sort_index k1 df = sort_index k2 df.
Proof.
  intros H1 H2 Hnd. unfold sort_index.
  now rewrite (sort_order_unique H1 H2 Hnd).
Qed.

(** ** concat *)

Lemma index_equals_eq (a b : list Z) : index_equals a b = true -> a = b.
Proof.
  unfold index_equals. now destruct (list_eq_dec Z.eq_dec a b).
Qed.

Lemma reindex_values_length (labels new_labels : list Z)
      (values : list cell) :
  length (reindex_values labels new_labels values) = length new_labels.
Proof. unfold reindex_values. apply length_map. Qed.

Lemma concat_axis1_some (panel : list DataFrame) (joined : DataFrame) :
  concat_axis1 panel = Some joined ->
  let new_index := union_indexes (map index panel) in
  joined = mkDF new_index
             (flat_map (fun o =>
                if index_equals (index o) new_index then columns o
                else map (fun c => (fst c,
                            reindex_values (index o) new_index (snd c)))
                         (columns o)) panel).
Proof.
  unfold concat_axis1. destruct panel as [|o panel]; [discriminate|].
  destruct (forallb _ (o :: panel)); [|discriminate].
  intros H. injection H as <-. reflexivity.
Qed.

Lemma concat_axis1_index (panel : list DataFrame) (joined : DataFrame) :
  concat_axis1 panel = Some joined ->
  index joined = union_indexes (map index panel).
Proof. intros H. apply concat_axis1_some in H. now subst joined. Qed.

Lemma concat_axis1_wf (panel : list DataFrame) (joined : DataFrame) :
  Forall wf_frame panel ->
  concat_axis1 panel = Some joined -> wf_frame joined.
Proof.
  intros Hwf H. apply concat_axis1_some in H. cbv zeta in H. subst joined.
  unfold wf_frame. cbn [index columns].
  set (new_index := union_indexes (map index panel)).
  apply Forall_forall. intros c Hc. apply in_flat_map in Hc as (f & Hf & Hc).
  rewrite Forall_forall in Hwf. specialize (Hwf f Hf).
  destruct (index_equals (index f) new_index) eqn:E.
  - apply index_equals_eq in E. rewrite <- E.
    unfold wf_frame in Hwf. rewrite Forall_forall in Hwf. now apply Hwf.
  - apply in_map_iff in Hc as (c0 & <- & _). simpl.
    apply reindex_values_length.
Qed.

Lemma concat_axis1_unique (panel : list DataFrame) :
  panel <> [] ->
  Forall (fun df => NoDup (index df)) panel ->
  exists joined, concat_axis1 panel = Some joined.
Proof.
  intros Hne Hu. unfold concat_axis1.
  destruct panel as [|o panel]; [now elim Hne|].
  assert (H : forallb
                (fun f => index_equals (index f)
                            (union_indexes (map index (o :: panel)))
                          || is_unique (index f)) (o :: panel) = true).
  { apply forallb_forall. intros f Hf. rewrite Forall_forall in Hu.
    apply orb_true_iff. right. apply is_unique_NoDup. now apply Hu. }
  rewrite H. eexists. reflexivity.
Qed.

(** ** Filling and dropping *)

Lemma ffill_from_length (l : list cell) (last : cell) :
  length (ffill_from last l) = length l.
Proof.
  revert last. induction l as [|x l IH]; intros last; simpl;
    [reflexivity|].
  destruct (isna x); simpl; now rewrite IH.
Qed.

Lemma ffill_values_length (l : list cell) :
  length (ffill_values l) = length l.
Proof. apply ffill_from_length. Qed.

Lemma bfill_values_length (l : list cell) :
  length (bfill_values l) = length l.
Proof. induction l as [|x l IH]; simpl; [reflexivity | now rewrite IH]. Qed.

(** Forward filling changes nothing in a column without missing cells. *)
Lemma ffill_values_complete (s : list cell) :
  forallb notna s = true -> ffill_values s = s.
Proof.
  unfold ffill_values. generalize NaN as last.
  induction s as [|x s IH]; intros last H; simpl in *; [reflexivity|].
  apply andb_true_iff in H as [Hx Hs]. unfold notna in Hx.
  destruct (isna x); [discriminate|]. f_equal. now apply IH.
Qed.

Lemma take_mask_Forall (P : cell -> Prop) (mask : list bool)
      (l : list cell) :
  length mask = length l ->
  (forall t, t < length l -> nth t mask false = true -> P (nth t l NaN)) ->
  Forall P (take_mask mask l).
Proof.
  revert l. induction mask as [|b mask IH]; intros [|x l] Hlen H; simpl in *;
    try constructor; try discriminate.
  destruct b.
  - constructor; [apply (H 0); [lia | reflexivity]|].
    apply IH; [lia|]. intros t Ht Hm. apply (H (S t)); [lia | exact Hm].
  - apply IH; [lia|]. intros t Ht Hm. apply (H (S t)); [lia | exact Hm].
Qed.

Lemma take_mask_all_true (A : Type) (l : list A) (mask : list bool) :
  length mask = length l -> forallb (fun b => b) mask = true ->
  take_mask mask l = l.
Proof.
  revert l. induction mask as [|b mask IH]; intros [|x l] Hlen H; simpl in *;
    try discriminate; try reflexivity.
  apply andb_true_iff in H as [-> Hm]. f_equal. apply IH; [lia | exact Hm].
Qed.

Lemma dropna_any_complete (df : DataFrame) :
  wf_frame df -> complete (dropna_any df).
Proof.
  intros Hwf. unfold complete, dropna_any, take_rows. cbn [columns].
  rewrite Forall_map. apply Forall_forall. intros c Hc. cbn [snd].
  apply forallb_forall. apply Forall_forall.
  pose proof Hwf as Hwf'. unfold wf_frame in Hwf'.
  rewrite Forall_forall in Hwf'. specialize (Hwf' c Hc).
  apply take_mask_Forall.
  - rewrite notna_all_length by exact Hwf. now symmetry.
  - intros t Ht Hm.
    rewrite (nth_indep _ false true) in Hm
      by (rewrite notna_all_length by exact Hwf; lia).
    rewrite notna_all_nth in Hm by (try exact Hwf; lia).
    rewrite forallb_forall in Hm. now apply Hm.
Qed.

Lemma last_cons_cons (x y : cell) (l : list cell) :
  last (x :: y :: l) NaN = last (y :: l) NaN.
Proof. reflexivity. Qed.

Lemma ffill_from_last_present (s : list cell) (l : cell) :
  notna l = true -> s <> [] ->
  notna (last (ffill_from l s) NaN) = true.
Proof.
  revert l. induction s as [|x s IH]; intros l Hl Hne; [now elim Hne|].
  destruct s as [|y s].
  - simpl. unfold notna in *. destruct (isna x) eqn:E; simpl; [exact Hl|].
    now rewrite E.
  - cbn [ffill_from]. destruct (isna x) eqn:E.
    + assert (H := IH l Hl ltac:(discriminate)).
      cbn [ffill_from] in *. destruct (isna y); exact H.
    + assert (Hx : notna x = true) by (unfold notna; now rewrite E).
      assert (H := IH x Hx ltac:(discriminate)).
      cbn [ffill_from] in *. destruct (isna y); exact H.
Qed.

Lemma ffill_from_last_some (s : list cell) (l : cell) :
  existsb notna s = true ->
  notna (last (ffill_from l s) NaN) = true.
Proof.
  revert l. induction s as [|x s IH]; intros l H; simpl in H;
    [discriminate|].
  cbn [ffill_from]. destruct (isna x) eqn:E.
  - unfold notna in H at 1. rewrite E in H. simpl in H.
    specialize (IH l H). destruct s as [|y s]; [discriminate|].
    cbn [ffill_from] in *. destruct (isna y); exact IH.
  - assert (Hx : notna x = true) by (unfold notna; now rewrite E).
    destruct s as [|y s]; [exact Hx|].
    assert (H' := @ffill_from_last_present (y :: s) x Hx ltac:(discriminate)).
    cbn [ffill_from] in *. destruct (isna y); exact H'.
Qed.

Lemma bfill_values_last_present (r : list cell) :
  notna (last r NaN) = true -> forallb notna (bfill_values r) = true.
Proof.
  induction r as [|x r IH]; intros H; [reflexivity|].
  destruct r as [|y r].
  - simpl in *. unfold notna in *. destruct (isna x) eqn:E;
      [discriminate|]. simpl. now rewrite E.
  - rewrite last_cons_cons in H. specialize (IH H).
    change (bfill_values (x :: y :: r))
      with ((if isna x then hd NaN (bfill_values (y :: r)) else x)
              :: bfill_values (y :: r)).
    cbn [forallb]. rewrite IH, andb_true_r.
    destruct (isna x) eqn:E; [|unfold notna; now rewrite E].
    destruct (bfill_values (y :: r)) as [|z r'] eqn:Eb.
    + apply (f_equal (@length cell)) in Eb.
      rewrite bfill_values_length in Eb. discriminate.
    + simpl in IH. apply andb_true_iff in IH as [Hz _]. exact Hz.
Qed.

(** After forward then backward filling, a column that holds one value
    holds only values. *)
Lemma fill_complete (s : list cell) :
  existsb notna s = true ->
  forallb notna (bfill_values (ffill_values s)) = true.
Proof.
  intros H. apply bfill_values_last_present.
  now apply ffill_from_last_some.
Qed.

Lemma forallb_nth_true (mask : list bool) :
  (forall t, t < length mask -> nth t mask true = true) ->
  forallb (fun b => b) mask = true.
Proof.
  induction mask as [|b mask IH]; intros H; [reflexivity|].
  pose proof (H 0 ltac:(simpl; lia)) as H0. simpl in H0. subst b.
  simpl. apply IH. intros t Ht. apply (H (S t)). simpl. lia.
Qed.

Lemma fill_wf (df : DataFrame) : wf_frame df -> wf_frame (bfill (ffill df)).
Proof.
  intros H. apply map_columns_wf; [apply bfill_values_length|].
  apply map_columns_wf; [apply ffill_values_length | exact H].
Qed.

Lemma take_rows_all (df : DataFrame) (mask : list bool) :
  wf_frame df -> length mask = length (index df) ->
  forallb (fun b => b) mask = true -> take_rows mask df = df.
Proof.
  intros Hwf Hlen Hm. destruct df as [idx cols]. unfold take_rows.
  cbn [index columns] in *. f_equal.
  - now apply take_mask_all_true.
  - rewrite <- (map_id cols) at 2. apply map_ext_in. intros [k v] Hc.
    cbn [fst snd]. f_equal. apply take_mask_all_true; [|exact Hm].
    unfold wf_frame in Hwf. cbn [index columns] in Hwf.
    rewrite Forall_forall in Hwf. specialize (Hwf _ Hc). simpl in Hwf. lia.
Qed.

(** ** Alignment *)

Lemma ffill_from_nth_carried (s : list cell) (last : cell) (t : nat) :
  t < length s ->
  (forall k, k <= t -> isna (nth k s NaN) = true) ->
  nth t (ffill_from last s) NaN = last.
Proof.
  revert last t. induction s as [|x s IH]; intros last t Ht H; simpl in Ht;
    [lia|].
  pose proof (H 0 ltac:(lia)) as H0. simpl in H0. simpl. rewrite H0.
  destruct t as [|t]; [reflexivity|]. simpl. apply IH; [lia|].
  intros k Hk. apply (H (S k)). lia.
Qed.

Lemma ffill_from_nth_present (s : list cell) (last : cell) (j t : nat) :
  j <= t -> t < length s ->
  notna (nth j s NaN) = true ->
  (forall k, j < k <= t -> isna (nth k s NaN) = true) ->
  nth t (ffill_from last s) NaN = nth j s NaN.
Proof.
  revert last j t. induction s as [|x s IH]; intros last j t Hj Ht Hp Hgap;
    simpl in Ht; [lia|].
  destruct j as [|j].
  - simpl in Hp. unfold notna in Hp. simpl.
    destruct (isna x) eqn:E; [discriminate|].
    destruct t as [|t]; [reflexivity|]. simpl.
    apply ffill_from_nth_carried; [lia|].
    intros k Hk. apply (Hgap (S k)). lia.
  - destruct t as [|t]; [lia|].
    assert (Hrec : nth t (ffill_from (if isna x then last else x) s) NaN
                   = nth j s NaN).
    { apply IH; [lia | lia | exact Hp |].
      intros k Hk. apply (Hgap (S k)). lia. }
    simpl. destruct (isna x); exact Hrec.
Qed.

Lemma bfill_values_nth_next (r : list cell) (t j : nat) :
  t <= j -> j < length r ->
  notna (nth j r NaN) = true ->
  (forall k, t <= k < j -> isna (nth k r NaN) = true) ->
  nth t (bfill_values r) NaN = nth j r NaN.
Proof.
  revert t j. induction r as [|x r IH]; intros t j Ht Hj Hp Hgap;
    simpl in Hj; [lia|].
  destruct t as [|t].
  - destruct j as [|j].
    + simpl in *. unfold notna in Hp. now destruct (isna x).
    + pose proof (Hgap 0 ltac:(lia)) as H0. simpl in H0.
      cbn [bfill_values nth]. rewrite H0.
      assert (Hrec : nth 0 (bfill_values r) NaN = nth j r NaN).
      { apply IH; [lia | lia | exact Hp |].
        intros k Hk. apply (Hgap (S k)). lia. }
      rewrite <- Hrec. now destruct (bfill_values r).
  - destruct j as [|j]; [lia|].
    cbn [bfill_values nth]. apply IH; [lia | lia | exact Hp |].
    intros k Hk. apply (Hgap (S k)). lia.
Qed.

Lemma get_loc_nth (labels : list Z) (i : nat) :
  NoDup labels -> i < length labels ->
  get_loc (nth i labels 0%Z) labels = Some i.
Proof.
  intros Hnd. revert i. induction Hnd as [|e l Hn Hl IH]; intros i Hi;
    simpl in Hi; [lia|].
  destruct i as [|i]; simpl; [now rewrite Z.eqb_refl|].
  destruct (Z.eqb_spec (nth i l 0%Z) e) as [E | _].
  - elim Hn. rewrite <- E. apply nth_In. lia.
  - rewrite IH by lia. reflexivity.
Qed.

Lemma value_at_nth (labels : list Z) (values : list cell) (i : nat) :
  NoDup labels -> i < length labels ->
  value_at labels values (nth i labels 0%Z) = nth i values NaN.
Proof.
  intros Hnd Hi. unfold value_at. now rewrite get_loc_nth.
Qed.

(** A column read at its own dates is the column. *)
Lemma values_on_own_dates (labels : list Z) (values : list cell) :
  NoDup labels -> length values = length labels ->
  map (value_at labels values) labels = values.
Proof.
  intros Hnd Hl. apply nth_ext with (d := NaN) (d' := NaN).
  - now rewrite length_map.
  - intros i Hi. rewrite length_map in Hi.
    rewrite nth_map_in with (da := 0%Z) by exact Hi.
    now apply value_at_nth.
Qed.

Lemma index_union_NoDup (a b : list Z) :
  NoDup a -> NoDup b -> NoDup (index_union a b).
Proof.
  intros Ha Hb. unfold index_union.
  destruct ((length b =? 0) || index_equals a b); [exact Ha|].
  destruct (length a =? 0); [exact Hb|].
  pose proof (proj2 (is_unique_NoDup b) Hb) as Hu. rewrite Hu. cbn [negb].
  apply NoDup_app; [exact Ha | now apply NoDup_filter|].
  intros d Hin Hf. apply filter_In in Hf as [_ Hm].
  apply negb_true_iff, mem_false in Hm. contradiction.
Qed.

Lemma union_indexes_NoDup (indexes : list (list Z)) :
  Forall (fun i => NoDup i) indexes -> NoDup (union_indexes indexes).
Proof.
  intros H. destruct indexes as [|first rest]; [constructor|].
  inversion H as [|? ? Hf Hr]; subst. simpl. clear H.
  revert first Hf. induction Hr as [|i rest Hi _ IH]; intros first Hf;
    simpl; [exact Hf|].
  apply IH. now apply index_union_NoDup.
Qed.

Lemma take_mask_map (A B : Type) (g : A -> B) (mask : list bool)
      (l : list A) :
  take_mask mask (map g l) = map g (take_mask mask l).
Proof.
  revert l. induction mask as [|b mask IH]; intros [|x l]; simpl;
    try reflexivity.
  destruct b; simpl; now rewrite IH.
Qed.

Lemma take_mask_incl (A : Type) (mask : list bool) (l : list A) (x : A) :
  In x (take_mask mask l) -> In x l.
Proof.
  revert l. induction mask as [|b mask IH]; intros [|y l]; simpl;
    try tauto.
  destruct b; simpl; intros H.
  - destruct H as [-> | H]; [now left | right; now apply IH].
  - right. now apply IH.
Qed.

Lemma take_mask_NoDup (A : Type) (mask : list bool) (l : list A) :
  NoDup l -> NoDup (take_mask mask l).
Proof.
  intros H. revert mask. induction H as [|x l Hx Hl IH]; intros [|b mask];
    simpl; try constructor.
  destruct b; [|apply IH]. constructor; [|apply IH].
  intros Hin. apply Hx. now apply take_mask_incl in Hin.
Qed.

(** The rows of [sort_index] and of the boolean selection that follows
    are rows of the frame they are taken from. *)
Lemma sorted_rows (kind : sort_kind) (mask : list bool) (df : DataFrame) :
  let rows := take_mask mask (sort_order kind (index df)) in
  index (take_rows mask (sort_index kind df))
  = map (fun j => nth j (index df) 0%Z) rows
  /\ columns (take_rows mask (sort_index kind df))
     = map (fun c => (fst c, map (fun j => nth j (snd c) NaN) rows))
           (columns df).
Proof.
  intros rows. unfold take_rows, sort_index. cbn [index columns]. split.
  - apply take_mask_map.
  - rewrite map_map. apply map_ext. intros c. cbn [fst snd].
    now rewrite take_mask_map.
Qed.

(** The outer join of frames with distinct dates holds, in every column,
    the value of the column at each date of the combined index. *)
Lemma joined_columns (panel : list DataFrame) (joined : DataFrame) :
  Forall wf_frame panel -> Forall (fun df => NoDup (index df)) panel ->
  concat_axis1 panel = Some joined ->
  columns joined
  = flat_map (fun f =>
      map (fun c => (fst c, map (value_at (index f) (snd c)) (index joined)))
          (columns f)) panel.
Proof.
  intros Hwf Hnd Hj. apply concat_axis1_some in Hj. cbv zeta in Hj.
  subst joined. cbn [index columns].
  set (new_index := union_indexes (map index panel)).
  clearbody new_index.
  induction panel as [|f panel IH]; [reflexivity|].
  inversion Hwf as [|? ? Hf Hwf']; subst.
  inversion Hnd as [|? ? Hn Hnd']; subst.
  cbn [flat_map]. rewrite (IH Hwf' Hnd'). f_equal.
  destruct (index_equals (index f) new_index) eqn:E; [|reflexivity].
  apply index_equals_eq in E. rewrite <- E.
  unfold wf_frame in Hf. clear - Hf Hn.
  induction Hf as [|c cols Hc _ IHc]; [reflexivity|].
  cbn [map]. rewrite <- IHc. f_equal. destruct c as [name s].
  cbn [fst snd] in *. now rewrite values_on_own_dates.
Qed.

(** On frames with distinct dates the sorting routine makes no
    difference. *)
Lemma align_any_kind (k1 k2 : sort_kind) (panel : list DataFrame) :
  sorts k1 -> sorts k2 -> Forall (fun df => NoDup (index df)) panel ->
  align k1 panel = align k2 panel.
Proof.
  intros H1 H2 Hnd. unfold align, concat_sorted_unique.
  destruct (concat_axis1 panel) as [joined|] eqn:Hj; [|reflexivity].
  assert (Hu : NoDup (index joined)).
  { rewrite (concat_axis1_index _ Hj). apply union_indexes_NoDup.
    now rewrite Forall_map. }
  now rewrite (sort_index_unique joined H1 H2 Hu).
Qed.

(** Filling keeps every value that is present. *)
Lemma fill_keeps_present (s : list cell) (t : nat) :
  t < length s -> notna (nth t s NaN) = true ->
  nth t (bfill_values (ffill_values s)) NaN = nth t s NaN.
Proof.
  intros Ht Hp.
  assert (Hf : nth t (ffill_values s) NaN = nth t s NaN).
  { apply (@ffill_from_nth_present s NaN t t);
      [lia | exact Ht | exact Hp | intros k Hk; lia]. }
  rewrite <- Hf. apply bfill_values_nth_next.
  - lia.
  - now rewrite ffill_values_length.
  - now rewrite Hf.
  - intros k Hk. lia.
Qed.

(** C1.  For every non-empty list of well-formed per-symbol frames and
    every sorting routine: alignment succeeds when every frame has unique
    dates; and whenever the outer join succeeds, the aligned panel is
    obtained by sorting the rows of the join by date, dropping every row
    whose date already occurs in an earlier row (so the index becomes the
    strictly ascending list of the dates of all inputs), forward-filling
    then backward-filling each column, and dropping the rows where some
    column is still missing.  In the result every column has the length of
    the index and no missing cell; when every column of the merged panel
    holds at least one value no row is dropped at all.  The rows of the
    merged panel are rows of the join, each taken whole.  When every frame
    has unique dates, the merged panel has the columns of the frames under
    their names, each holding at every date the value of its symbol at
    that date (missing where the symbol has no such date); a value that a
    symbol has at one of its dates is still there after the filling; and
    the sorting routine makes no difference. *)
Theorem align_spec (kind : sort_kind) (panel : list DataFrame) :
  sorts kind -> panel <> [] -> Forall wf_frame panel ->
  (Forall (fun df => NoDup (index df)) panel ->
   exists data, align kind panel = Some data)
  /\ forall joined, concat_axis1 panel = Some joined ->
       let sorted := sort_index kind joined in
       let merged :=
         take_rows (map negb (duplicated_first (index sorted))) sorted in
       let filled := bfill (ffill merged) in
       let data := dropna_any filled in
       align kind panel = Some data
       /\ (forall d, In d (index joined) <->
                     exists df, In df panel /\ In d (index df))
       /\ Permutation (index sorted) (index joined)
       /\ StronglySorted Z.le (index sorted)
       /\ (forall i, i < length (index sorted) ->
             (nth i (duplicated_first (index sorted)) false = true <->
              exists j, j < i
                        /\ nth j (index sorted) 0%Z
                           = nth i (index sorted) 0%Z))
       /\ StronglySorted Z.lt (index merged)
       /\ (forall d, In d (index merged) <->
                     exists df, In df panel /\ In d (index df))
       /\ columns filled
          = map (fun c => (fst c, bfill_values (ffill_values (snd c))))
                (columns merged)
       /\ index data = take_mask (notna_all filled) (index merged)
       /\ columns data
          = map (fun c => (fst c, take_mask (notna_all filled) (snd c)))
                (columns filled)
       /\ (forall t, t < length (index merged) ->
             (nth t (notna_all filled) true = true <->
              forall c, In c (columns filled) ->
                        notna (nth t (snd c) NaN) = true))
       /\ (forall c, In c (columns data) ->
             length (snd c) = length (index data)
             /\ forallb notna (snd c) = true)
       /\ ((forall c, In c (columns merged) ->
                      existsb notna (snd c) = true) ->
           data = filled /\ index data = index merged)
       /\ (exists rows,
             NoDup rows
             /\ Forall (fun j => j < length (index joined)) rows
             /\ index merged = map (fun j => nth j (index joined) 0%Z) rows
             /\ columns merged
                = map (fun c => (fst c,
                                 map (fun j => nth j (snd c) NaN) rows))
                      (columns joined))
       /\ (Forall (fun df => NoDup (index df)) panel ->
           columns merged
           = flat_map (fun f =>
               map (fun c => (fst c,
                              map (value_at (index f) (snd c))
                                  (index merged)))
                   (columns f)) panel
           /\ (forall f name s k,
                 In f panel -> In (name, s) (columns f) ->
                 k < length (index f) -> notna (nth k s NaN) = true ->
                 exists t,
                   t < length (index merged)
                   /\ nth t (index merged) 0%Z = nth k (index f) 0%Z
                   /\ In (name,
                          map (value_at (index f) s) (index merged))
                         (columns merged)
                   /\ In (name,
                          bfill_values (ffill_values
                            (map (value_at (index f) s) (index merged))))
                         (columns filled)
                   /\ nth t (bfill_values (ffill_values
                               (map (value_at (index f) s) (index merged))))
                          NaN
                      = nth k s NaN)
           /\ (forall kind', sorts kind' ->
                 align kind' panel = align kind panel)).
Proof.
  intros Hk Hne Hwf. split.
  - intros Hu. destruct (concat_axis1_unique Hne Hu) as [joined Hj].
    unfold align, concat_sorted_unique. rewrite Hj. eexists. reflexivity.
  - intros joined Hj sorted merged filled data.
    assert (Hjoin : forall d, In d (index joined) <->
                              exists df, In df panel /\ In d (index df)).
    { intros d. rewrite (concat_axis1_index _ Hj), union_indexes_In.
      split.
      - intros (i & Hi & Hd). apply in_map_iff in Hi as (df & <- & Hdf).
        exists df. auto.
      - intros (df & Hdf & Hd). exists (index df). split; [|exact Hd].
        now apply in_map. }
    assert (Hperm : Permutation (index sorted) (index joined))
      by (now apply sort_index_perm).
    assert (Hmidx : index merged = unique (index sorted)).
    { unfold merged, take_rows. cbn [index]. unfold duplicated_first.
      apply drop_duplicated_unique. }
    assert (Hwfm : wf_frame merged)
      by (apply take_rows_wf, sort_index_wf).
    assert (Hwff : wf_frame filled) by (now apply fill_wf).
    assert (Hfidx : index filled = index merged) by reflexivity.
    assert (Hkeep : forall t, t < length (index merged) ->
              (nth t (notna_all filled) true = true <->
               forall c, In c (columns filled) ->
                         notna (nth t (snd c) NaN) = true)).
    { intros t Ht. rewrite notna_all_nth by (rewrite ?Hfidx; assumption).
      apply forallb_forall. }
    split; [unfold align, concat_sorted_unique; now rewrite Hj|].
    split; [exact Hjoin|]. split; [exact Hperm|].
    split; [now apply sort_index_sorted|].
    split.
    { intros i Hi. unfold duplicated_first.
      rewrite duplicated_from_nth by exact Hi. simpl. tauto. }
    split; [rewrite Hmidx; now apply unique_from_sorted, sort_index_sorted|].
    assert (Hmerged_dates : forall d, In d (index merged) <->
                              exists df, In df panel /\ In d (index df)).
    { intros d. rewrite Hmidx, unique_In, <- Hjoin. split; intros H.
      - now apply (Permutation_in _ Hperm).
      - now apply (Permutation_in _ (Permutation_sym Hperm)). }
    split; [exact Hmerged_dates|].
    split.
    { unfold filled, bfill, ffill, map_columns. cbn [columns].
      rewrite map_map. reflexivity. }
    split; [reflexivity|]. split; [reflexivity|]. split; [exact Hkeep|].
    split.
    { intros c Hc. split.
      - assert (Hwfd : wf_frame data) by (now apply take_rows_wf).
        unfold wf_frame in Hwfd. rewrite Forall_forall in Hwfd.
        now apply Hwfd.
      - pose proof (dropna_any_complete Hwff) as Hcomp.
        unfold complete in Hcomp. rewrite Forall_forall in Hcomp.
        now apply Hcomp. }
    assert (Hrows : exists rows,
              NoDup rows
              /\ Forall (fun j => j < length (index joined)) rows
              /\ index merged = map (fun j => nth j (index joined) 0%Z) rows
              /\ columns merged
                 = map (fun c => (fst c,
                                  map (fun j => nth j (snd c) NaN) rows))
                       (columns joined)).
    { exists (take_mask (map negb (duplicated_first (index sorted)))
                        (sort_order kind (index joined))).
      destruct (sort_order_sorts (index joined) Hk) as [Hp _].
      split.
      { apply take_mask_NoDup.
        apply (Permutation_NoDup (Permutation_sym Hp)), seq_NoDup. }
      split.
      { apply Forall_forall. intros j Hj'. apply take_mask_incl in Hj'.
        pose proof (sort_order_bound (index joined) Hk) as Hb.
        rewrite Forall_forall in Hb. now apply Hb. }
      apply sorted_rows. }
    assert (Hvalues : Forall (fun df => NoDup (index df)) panel ->
              columns merged
              = flat_map (fun f =>
                  map (fun c => (fst c,
                                 map (value_at (index f) (snd c))
                                     (index merged)))
                      (columns f)) panel).
    { intros Hnd. destruct Hrows as (rows & _ & Hb & Hi & Hc).
      rewrite Hc, (joined_columns Hwf Hnd Hj), Hi.
      clear - Hb. induction panel as [|f panel IH]; [reflexivity|].
      cbn [flat_map]. rewrite map_app, IH. f_equal.
      rewrite map_map. apply map_ext. intros c. cbn [fst snd]. f_equal.
      rewrite map_map. apply map_ext_in. intros j Hj.
      rewrite Forall_forall in Hb.
      now rewrite nth_map_in with (da := 0%Z) by (now apply Hb). }
    split.
    2:{ split; [exact Hrows|]. intros Hnd.
        pose proof (Hvalues Hnd) as Hcols.
        split; [exact Hcols|]. split.
        - intros f name s k Hf Hs Hkl Hp.
          assert (Hd : In (nth k (index f) 0%Z) (index merged)).
          { apply Hmerged_dates. exists f. split; [exact Hf|].
            apply nth_In. exact Hkl. }
          apply (In_nth _ _ 0%Z) in Hd as (t & Ht & Hd).
          assert (Hfn : NoDup (index f)).
          { rewrite Forall_forall in Hnd. now apply Hnd. }
          assert (Hcol : In (name, map (value_at (index f) s)
                                       (index merged)) (columns merged)).
          { rewrite Hcols. apply in_flat_map. exists f.
            split; [exact Hf|]. apply in_map_iff. now exists (name, s). }
          assert (Hv : nth t (map (value_at (index f) s) (index merged)) NaN
                       = nth k s NaN).
          { rewrite nth_map_in with (da := 0%Z) by exact Ht.
            rewrite Hd. now apply value_at_nth. }
          exists t. split; [exact Ht|]. split; [exact Hd|].
          split; [exact Hcol|]. split.
          + unfold filled, bfill, ffill, map_columns. cbn [columns].
            rewrite map_map. apply in_map_iff.
            exists (name, map (value_at (index f) s) (index merged)).
            split; [reflexivity | exact Hcol].
          + rewrite <- Hv. apply fill_keeps_present.
            * now rewrite length_map.
            * now rewrite Hv.
        - intros kind' Hk'. now apply align_any_kind. }
    intros Hsome.
    assert (Hall : data = filled).
    { unfold data, dropna_any. apply take_rows_all; [exact Hwff | |].
      - now apply notna_all_length.
      - apply forallb_nth_true. intros t Ht.
        rewrite notna_all_length in Ht by exact Hwff.
        apply Hkeep; [exact Ht|]. intros c Hc.
        unfold filled, bfill, ffill, map_columns in Hc. cbn [columns] in Hc.
        rewrite map_map in Hc. apply in_map_iff in Hc as (c0 & <- & Hc0).
        cbn [fst snd].
        pose proof (fill_complete _ (Hsome c0 Hc0)) as Hfc.
        rewrite forallb_forall in Hfc. apply Hfc. apply nth_In.
        rewrite bfill_values_length, ffill_values_length.
        unfold wf_frame in Hwfm. rewrite Forall_forall in Hwfm.
        rewrite (Hwfm c0 Hc0). exact Ht. }
    split; [exact Hall | now rewrite Hall].
Qed.

(** ** Rational sums *)

Lemma qn_S (n : nat) : qn (S n) = (qn n + 1)%Qc.
Proof.
  unfold qn, qz. apply Qc_is_canon.
  change (Qred (inject_Z (Z.of_nat (S n)))
          == Qred (Qred (inject_Z (Z.of_nat n)) + 1)).
  rewrite !Qred_correct, Nat2Z.inj_succ. unfold Z.succ.
  rewrite inject_Z_plus. reflexivity.
Qed.

Lemma qn_0 : qn 0 = 0%Qc.
Proof. apply Qc_is_canon. reflexivity. Qed.

Lemma qn_nonneg (n : nat) : (0 <= qn n)%Qc.
Proof.
  induction n as [|n IH]; [rewrite qn_0; apply Qcle_refl|].
  rewrite qn_S. replace 0%Qc with (0 + 0)%Qc by ring.
  apply Qcplus_le_compat; [exact IH | discriminate].
Qed.

Lemma qn_S_pos (n : nat) : (0 < qn (S n))%Qc.
Proof.
  rewrite qn_S. apply Qcle_lt_trans with (qn n); [apply qn_nonneg|].
  apply Qclt_minus_iff. replace (qn n + 1 + - qn n)%Qc with 1%Qc by ring.
  reflexivity.
Qed.

Lemma qn_neq_0 (n : nat) : 0 < n -> qn n <> 0%Qc.
Proof.
  destruct n as [|n]; [lia|]. intros _ E.
  pose proof (qn_S_pos n) as H. rewrite E in H. now apply Qclt_not_eq in H.
Qed.

Lemma qn_pred (n : nat) : 1 <= n -> (qn n - qn 1)%Qc = qn (n - 1).
Proof.
  destruct n as [|n]; [lia|]. intros _.
  simpl. rewrite Nat.sub_0_r, !qn_S, qn_0. ring.
Qed.

Lemma Qcsquare_nonneg (a : Qc) : (0 <= a * a)%Qc.
Proof.
  destruct (Qclt_le_dec a 0) as [H | H].
  - assert (Hn : (0 <= - a)%Qc).
    { apply Qclt_le_weak in H. apply Qcopp_le_compat in H.
      now replace (- 0)%Qc with 0%Qc in H by ring. }
    replace (a * a)%Qc with (- a * - a)%Qc by ring.
    replace 0%Qc with (0 * - a)%Qc by ring.
    now apply Qcmult_le_compat_r.
  - replace 0%Qc with (0 * a)%Qc by ring.
    now apply Qcmult_le_compat_r.
Qed.

Lemma qsum_squares_nonneg (m : Qc) (l : list Qc) :
  (0 <= qsum (map (sq_dev m) l))%Qc.
Proof.
  induction l as [|x l IH]; simpl; [apply Qcle_refl|].
  replace 0%Qc with (0 + 0)%Qc by ring.
  apply Qcplus_le_compat; [apply Qcsquare_nonneg | exact IH].
Qed.

(** A window whose squared deviations sum to zero is constant. *)
Lemma qsum_squares_zero (m : Qc) (l : list Qc) :
  qsum (map (sq_dev m) l) = 0%Qc ->
  Forall (fun x => x = m) l.
Proof.
  induction l as [|x l IH]; simpl; intros H; constructor.
  - pose proof (Qcsquare_nonneg (x - m)) as H1.
    pose proof (qsum_squares_nonneg m l) as H2.
    assert (H3 : ((x - m) * (x - m) <= 0)%Qc).
    { rewrite <- H.
      replace ((x - m) * (x - m))%Qc with ((x - m) * (x - m) + 0)%Qc
        at 1 by ring.
      apply Qcplus_le_compat; [apply Qcle_refl | exact H2]. }
    pose proof (Qcle_antisym _ _ H3 H1) as H4.
    apply Qcmult_integral in H4.
    assert (E : (x - m)%Qc = 0%Qc) by (destruct H4; assumption).
    replace x with (x - m + m)%Qc by ring. rewrite E. ring.
  - apply IH.
    pose proof (Qcsquare_nonneg (x - m)) as H1.
    pose proof (qsum_squares_nonneg m l) as H2.
    apply Qcle_antisym; [|exact H2].
    rewrite <- H.
    replace (qsum (map (sq_dev m) l))%Qc
      with (0 + qsum (map (sq_dev m) l))%Qc
      at 1 by ring.
    apply Qcplus_le_compat; [exact H1 | apply Qcle_refl].
Qed.


Lemma qsum_ones (A : Type) (l : list A) :
  qsum (map (fun _ => 1%Qc) l) = qn (length l).
Proof.
  induction l as [|x l IH]; simpl; [now rewrite qn_0|].
  rewrite IH, qn_S. ring.
Qed.

Lemma qsum_constant (m : Qc) (l : list Qc) :
  Forall (fun x => x = m) l -> qsum l = (qn (length l) * m)%Qc.
Proof.
  induction 1 as [|x l -> _ IH]; simpl; [rewrite qn_0; ring|].
  rewrite IH, qn_S. ring.
Qed.

Lemma qsum_scaled (m : Qc) (ys cs : list Qc) :
  Forall (fun x => x = m) cs -> length ys = length cs ->
  qsum (map2 Qcmult ys cs) = (m * qsum ys)%Qc.
Proof.
  intros H. revert ys. induction H as [|c cs -> _ IH]; intros [|y ys] Hl;
    simpl in *; try discriminate; try ring.
  rewrite IH by lia. ring.
Qed.

(** ** Windows of the rolling moments *)

Lemma skipn_map2 (A B C : Type) (f : A -> B -> C) (n : nat)
      (l : list A) (m : list B) :
  skipn n (map2 f l m) = map2 f (skipn n l) (skipn n m).
Proof.
  revert l m. induction n as [|n IH]; intros l m; [reflexivity|].
  destruct l as [|x l], m as [|y m]; simpl; try reflexivity.
  - now destruct (skipn n l).
  - apply IH.
Qed.

Lemma firstn_map2 (A B C : Type) (f : A -> B -> C) (n : nat)
      (l : list A) (m : list B) :
  firstn n (map2 f l m) = map2 f (firstn n l) (firstn n m).
Proof.
  revert l m. induction n as [|n IH]; intros l m; [reflexivity|].
  destruct l as [|x l], m as [|y m]; simpl; try reflexivity.
  f_equal. apply IH.
Qed.

Lemma window_at_map2 (f : cell -> cell -> cell) (a b : list cell)
      (win t : nat) :
  window_at (map2 f a b) win t
  = map2 f (window_at a win t) (window_at b win t).
Proof.
  unfold window_at, window_bounds. now rewrite skipn_map2, firstn_map2.
Qed.

Lemma window_at_map (f : cell -> cell) (a : list cell) (win t : nat) :
  window_at (map f a) win t = map f (window_at a win t).
Proof.
  unfold window_at, window_bounds. now rewrite skipn_map, firstn_map.
Qed.

Lemma window_at_length_le (a : list cell) (win t : nat) :
  length (window_at a win t) <= win.
Proof.
  unfold window_at, window_bounds.
  pose proof (firstn_le_length (t + 1 - (t + 1 - win))
                               (skipn (t + 1 - win) a)). lia.
Qed.

Lemma window_at_same_length (a b : list cell) (win t : nat) :
  length a = length b ->
  length (window_at a win t) = length (window_at b win t).
Proof.
  intros H. unfold window_at, window_bounds.
  now rewrite !length_firstn, !length_skipn, H.
Qed.

Lemma fins_length_le (w : list cell) : length (fins w) <= length w.
Proof.
  induction w as [|c w IH]; simpl; [lia|].
  rewrite length_app. destruct c; simpl; lia.
Qed.

Lemma fins_map_Fin (l : list Qc) : fins (map Fin l) = l.
Proof. induction l as [|q l IH]; simpl; [reflexivity | now rewrite IH]. Qed.

Lemma fins_full (w : list cell) :
  length (fins w) = length w -> w = map Fin (fins w).
Proof.
  induction w as [|c w IH]; simpl; [reflexivity|].
  rewrite length_app. pose proof (fins_length_le w) as Hle.
  destruct c; simpl; intros H; try lia.
  f_equal. apply IH. lia.
Qed.

Lemma roll_length (calc : list Qc -> cell) (values : list cell) (win : nat) :
  length (roll calc values win) = length values.
Proof. unfold roll. now rewrite length_map, length_seq. Qed.

Lemma roll_nth (calc : list Qc -> cell) (values : list cell) (win t : nat) :
  t < length values ->
  nth t (roll calc values win) NaN = calc (fins (window_at values win t)).
Proof. intros H. unfold roll. now rewrite nth_map_seq. Qed.

Lemma cov_numerator_length (xa ya : list cell) (win : nat) :
  length xa = length ya ->
  length (cov_numerator xa ya win) = length xa.
Proof.
  intros H. unfold cov_numerator.
  rewrite !map2_length, !roll_length, length_map, !map2_length. lia.
Qed.

Lemma cov_numerator_nth (xa ya : list cell) (win t : nat) :
  length xa = length ya -> t < length xa ->
  nth t (cov_numerator xa ya win) NaN
  = let wx := window_at xa win t in
    let wy := window_at ya win t in
    let cnt := calc_sum 0 (fins (map indicator (map2 cell_add wx wy))) in
    cell_mul
      (cell_sub (calc_mean win (fins (map2 cell_mul wx wy)))
                (cell_mul (calc_mean win (fins wx))
                          (calc_mean win (fins wy))))
      (cell_div cnt (cell_sub cnt (Fin (qn ddof)))).
Proof.
  intros Hl Ht. unfold cov_numerator.
  rewrite nth_map2 with (da := NaN) (db := NaN).
  2:{ rewrite !map2_length, !roll_length, !map2_length. lia. }
  2:{ rewrite roll_length, length_map, map2_length. lia. }
  rewrite nth_map2 with (da := NaN) (db := NaN).
  2:{ rewrite roll_length, map2_length. lia. }
  2:{ rewrite map2_length, !roll_length. lia. }
  rewrite nth_map2 with (da := NaN) (db := NaN)
    by (rewrite roll_length; lia).
  rewrite !roll_nth
    by (rewrite ?length_map, ?map2_length; lia).
  rewrite window_at_map, !window_at_map2. reflexivity.
Qed.

Lemma map2_Fin (f : cell -> cell -> cell) (g : Qc -> Qc -> Qc)
      (ys cs : list Qc) :
  (forall y c, f (Fin y) (Fin c) = Fin (g y c)) ->
  map2 f (map Fin ys) (map Fin cs) = map Fin (map2 g ys cs).
Proof.
  intros H. revert cs. induction ys as [|y ys IH]; intros [|c cs]; simpl;
    try reflexivity.
  now rewrite H, IH.
Qed.

Lemma map2_length_same (A B C : Type) (f : A -> B -> C)
      (l : list A) (m : list B) :
  length l = length m -> length (map2 f l m) = length l.
Proof. intros H. rewrite map2_length. lia. Qed.

Lemma calc_mean_full (W : nat) (obs : list Qc) :
  length obs = W -> 1 <= W ->
  calc_mean W obs = Fin (qsum obs / qn W).
Proof.
  intros Hl HW. unfold calc_mean. rewrite Hl, Nat.leb_refl.
  destruct (Nat.ltb_spec 0 W); [reflexivity | lia].
Qed.

Lemma calc_mean_short (W : nat) (obs : list Qc) :
  length obs < W -> calc_mean W obs = NaN.
Proof.
  intros H. unfold calc_mean.
  destruct (Nat.leb_spec W (length obs)); [lia | reflexivity].
Qed.

Lemma count_full (W : nat) (ys cs : list Qc) :
  length ys = W -> length cs = W -> 1 <= W ->
  calc_sum 0 (fins (map indicator
                        (map2 cell_add (map Fin ys) (map Fin cs))))
  = Fin (qn W).
Proof.
  intros Hy Hc HW.
  rewrite (map2_Fin cell_add Qcplus) by reflexivity.
  assert (E : forall l, fins (map indicator (map Fin l))
                        = map (fun _ => 1%Qc) l).
  { induction l as [|q l IH]; simpl; [reflexivity | now rewrite IH]. }
  rewrite E. unfold calc_sum.
  rewrite length_map, map2_length_same by lia. rewrite Hy.
  destruct (Nat.eqb_spec W 0); [lia|]. simpl.
  rewrite qsum_ones, map2_length_same by lia. now rewrite Hy.
Qed.

(** The factor [count / (count - ddof)] of a full window. *)
Lemma bessel_factor (W : nat) :
  2 <= W ->
  cell_div (Fin (qn W)) (cell_sub (Fin (qn W)) (Fin (qn ddof)))
  = Fin (qn W / qn (W - 1)).
Proof.
  intros HW. unfold cell_sub, cell_neg, cell_add, ddof.
  change (qn W + - qn 1)%Qc with (qn W - qn 1)%Qc.
  rewrite qn_pred by lia. unfold cell_div.
  destruct (Qc_eq_dec (qn (W - 1)) 0) as [E | _]; [|reflexivity].
  apply qn_neq_0 in E; [contradiction | lia].
Qed.

Lemma bessel_factor_1 :
  cell_div (Fin (qn 1)) (cell_sub (Fin (qn 1)) (Fin (qn ddof))) = PInf.
Proof. reflexivity. Qed.


Lemma cell_div_zero_zero : cell_div (Fin 0) (Fin 0) = NaN.
Proof. reflexivity. Qed.



(** ** Rolling beta and correlation *)

Lemma rolling_var_length (x : list cell) (W : nat) :
  length (rolling_var x W) = length x.
Proof.
  unfold rolling_var, prep_values. now rewrite roll_length, length_map.
Qed.

Lemma rolling_var_nth (x : list cell) (W t : nat) :
  t < length x ->
  nth t (rolling_var x W) NaN
  = calc_var W ddof (fins (prep_values (window_at x W t))).
Proof.
  intros Ht. unfold rolling_var.
  rewrite roll_nth by (unfold prep_values; now rewrite length_map).
  unfold prep_values. now rewrite window_at_map.
Qed.

Lemma prep_binary_length (y x : list cell) :
  length y = length x ->
  length (prep_values (fst (prep_binary y x))) = length x
  /\ length (prep_values (snd (prep_binary y x))) = length x.
Proof.
  intros H. unfold prep_binary, prep_values. cbn [fst snd].
  rewrite !length_map, !map2_length. lia.
Qed.

Lemma rolling_cov_length (y x : list cell) (W : nat) :
  length y = length x -> length (rolling_cov y x W) = length x.
Proof.
  intros H. destruct (prep_binary_length y x H) as [H1 H2].
  unfold rolling_cov. unfold prep_binary in *. cbn [fst snd] in *.
  rewrite cov_numerator_length; [exact H1 | now rewrite H1, H2].
Qed.

Lemma rolling_beta_length (y x : list cell) (W : nat) :
  length y = length x -> length (rolling_beta y x W) = length x.
Proof.
  intros H. unfold rolling_beta.
  rewrite map2_length, rolling_cov_length, rolling_var_length by exact H.
  apply Nat.min_id.
Qed.

Lemma rolling_beta_nth (y x : list cell) (W t : nat) :
  length y = length x -> t < length x ->
  nth t (rolling_beta y x W) NaN
  = cell_div (nth t (rolling_cov y x W) NaN) (nth t (rolling_var x W) NaN).
Proof.
  intros H Ht. unfold rolling_beta.
  apply nth_map2; [now rewrite rolling_cov_length | now rewrite rolling_var_length].
Qed.

Lemma cell_div_nan_r (c : cell) : cell_div c NaN = NaN.
Proof. now destruct c. Qed.

Lemma cell_sub_nan_r (c : cell) : cell_sub c NaN = NaN.
Proof. now destruct c. Qed.

Lemma cell_mul_nan_l (c : cell) : cell_mul NaN c = NaN.
Proof. reflexivity. Qed.

Lemma cell_div_nan_l (c : cell) : cell_div NaN c = NaN.
Proof. reflexivity. Qed.

Lemma calc_var_defined (W : nat) (obs : list Qc) (v : Qc) :
  length obs <= W ->
  calc_var W ddof obs = Fin v ->
  length obs = W /\ 2 <= W
  /\ v = (qsum (map (sq_dev (qsum obs / qn W)) obs) / qn (W - 1))%Qc.
Proof.
  intros Hle. unfold calc_var, ddof.
  destruct (Nat.leb_spec W (length obs)) as [H1 | H1]; [|discriminate].
  destruct (Nat.ltb_spec 1 (length obs)) as [H2 | H2]; [|discriminate].
  cbn [andb]. intros [= <-].
  assert (E : length obs = W) by lia. rewrite E.
  repeat split; lia.
Qed.

Lemma calc_var_nan_or_fin (W : nat) (obs : list Qc) :
  calc_var W ddof obs = NaN \/ exists v, calc_var W ddof obs = Fin v.
Proof.
  unfold calc_var. destruct (_ && _); [right; eexists; reflexivity | now left].
Qed.


Lemma rolling_corr_length (sqrtq : Qc -> Qc) (y x : list cell) (W : nat) :
  length y = length x -> length (rolling_corr sqrtq y x W) = length x.
Proof.
  intros H. destruct (prep_binary_length y x H) as [H1 H2].
  unfold rolling_corr. unfold prep_binary in *. cbn [fst snd] in *.
  rewrite map2_length, length_map, map2_length, !roll_length.
  rewrite cov_numerator_length by (now rewrite H1, H2). lia.
Qed.

Lemma rolling_corr_nth (sqrtq : Qc -> Qc) (y x : list cell) (W t : nat) :
  length y = length x -> t < length x ->
  nth t (rolling_corr sqrtq y x W) NaN
  = let xa := prep_values (fst (prep_binary y x)) in
    let ya := prep_values (snd (prep_binary y x)) in
    cell_div (nth t (cov_numerator xa ya W) NaN)
             (cell_sqrt sqrtq
                (cell_mul (calc_var W ddof (fins (window_at xa W t)))
                          (calc_var W ddof (fins (window_at ya W t))))).
Proof.
  intros H Ht. destruct (prep_binary_length y x H) as [H1 H2].
  unfold rolling_corr. unfold prep_binary in *. cbn [fst snd] in *.
  cbv zeta.
  rewrite nth_map2 with (da := NaN) (db := NaN).
  2:{ rewrite cov_numerator_length; [lia | now rewrite H1, H2]. }
  2:{ rewrite length_map, map2_length, !roll_length. lia. }
  f_equal.
  rewrite nth_map_in with (da := NaN)
    by (rewrite map2_length, !roll_length; lia).
  rewrite nth_map2 with (da := NaN) (db := NaN)
    by (rewrite roll_length; lia).
  now rewrite !roll_nth by lia.
Qed.

Lemma prep_values_Fin_inv (l : list cell) (cs : list Qc) :
  prep_values l = map Fin cs -> l = map Fin cs.
Proof.
  unfold prep_values. revert cs.
  induction l as [|c l IH]; intros [|q cs]; simpl; try discriminate;
    [reflexivity|].
  intros [= Hc Hl]. f_equal; [|now apply IH].
  destruct c; simpl in Hc; try discriminate. exact Hc.
Qed.

Lemma forallb_is_fin_full (l : list cell) :
  forallb is_fin l = true -> l = map Fin (fins l).
Proof.
  induction l as [|c l IH]; simpl; [reflexivity|].
  intros H. apply andb_true_iff in H as [Hc Hl].
  destruct c; try discriminate. simpl. f_equal. now apply IH.
Qed.

(** [prep_binary] on two windows of numbers changes nothing. *)
Lemma prep_binary_numbers (ys cs : list Qc) :
  length ys = length cs ->
  prep_values (map2 masked_by (map Fin ys) (map Fin cs)) = map Fin ys.
Proof.
  unfold prep_values. revert cs.
  induction ys as [|y ys IH]; intros [|c cs] H; simpl in *;
    try discriminate; [reflexivity|].
  assert (Hl : length ys = length cs) by lia.
  rewrite (IH cs Hl).
  unfold masked_by, cell_mul, cell_add. simpl. f_equal. f_equal. ring.
Qed.

(** A missing or infinite entry of the asset window is missing in the
    prepared window, which then holds fewer observations than dates. *)
Lemma prep_binary_gap (wy : list cell) (cs : list Qc) :
  length wy = length cs -> forallb is_fin wy = false ->
  length (fins (prep_values (map2 masked_by wy (map Fin cs)))) < length wy.
Proof.
  unfold prep_values. revert cs.
  induction wy as [|c wy IH]; intros [|q cs] Hl H; simpl in *;
    try discriminate.
  rewrite length_app.
  set (rest := fins (map _ (map2 masked_by wy (map Fin cs)))) in *.
  assert (Hrest : length rest <= length wy).
  { unfold rest. etransitivity; [apply fins_length_le|].
    rewrite length_map, map2_length, length_map. lia. }
  destruct c; simpl; try lia.
  simpl in H. assert (Hl' : length wy = length cs) by lia.
  specialize (IH cs Hl' H). fold rest in IH.
  unfold masked_by, cell_mul, cell_add. simpl. lia.
Qed.

Lemma Qcdiv_zero_inv (a b : Qc) :
  b <> 0%Qc -> (a / b)%Qc = 0%Qc -> a = 0%Qc.
Proof.
  intros Hb H. replace a with (a / b * b)%Qc by (field; exact Hb).
  rewrite H. ring.
Qed.

(** A window of zero variance is a full window of one repeated number. *)
Lemma flat_window (x : list cell) (W t : nat) :
  t < length x ->
  nth t (rolling_var x W) NaN = Fin 0 ->
  exists cs,
    window_at x W t = map Fin cs
    /\ length cs = W /\ 2 <= W
    /\ Forall (fun c => c = (qsum cs / qn W)%Qc) cs
    /\ calc_var W ddof cs = Fin 0.
Proof.
  intros Ht Hvar. rewrite rolling_var_nth in Hvar by exact Ht.
  set (wx := window_at x W t) in *.
  assert (Hwxl : length (prep_values wx) <= W).
  { unfold prep_values, wx. rewrite length_map. apply window_at_length_le. }
  pose proof (fins_length_le (prep_values wx)) as Hfl.
  assert (Hle : length (fins (prep_values wx)) <= W) by lia.
  destruct (@calc_var_defined W (fins (prep_values wx)) 0%Qc Hle Hvar)
    as (Hn & HW & Ev).
  exists (fins (prep_values wx)).
  split; [apply prep_values_Fin_inv, fins_full; lia|].
  split; [exact Hn|]. split; [exact HW|]. split; [|exact Hvar].
  apply qsum_squares_zero.
  apply Qcdiv_zero_inv with (b := qn (W - 1)); [apply qn_neq_0; lia|].
  now symmetry.
Qed.

(** Against a flat benchmark window the numerator of covariance and
    correlation is missing when the asset window has a gap and 0
    otherwise. *)
Lemma cov_numerator_flat (y x : list cell) (W t : nat) (cs : list Qc) :
  length y = length x -> t < length x ->
  window_at x W t = map Fin cs -> length cs = W -> 2 <= W ->
  Forall (fun c => c = (qsum cs / qn W)%Qc) cs ->
  let xa := prep_values (map2 masked_by y x) in
  let ya := prep_values (map2 masked_by x y) in
  nth t (cov_numerator xa ya W) NaN = NaN
  \/ (nth t (cov_numerator xa ya W) NaN = Fin 0
      /\ exists ys, length ys = W
                    /\ window_at xa W t = map Fin ys
                    /\ window_at ya W t = map Fin cs).
Proof.
  intros Hlen Ht Hwx Hn HW Hconst xa ya.
  set (wy := window_at y W t).
  assert (Hwyl : length wy = length cs).
  { unfold wy. rewrite (@window_at_same_length y x W t Hlen), Hwx.
    apply length_map. }
  assert (HX : length xa = length x).
  { unfold xa, prep_values. rewrite length_map, map2_length. lia. }
  assert (HY : length ya = length x).
  { unfold ya, prep_values. rewrite length_map, map2_length. lia. }
  assert (EX : window_at xa W t
               = prep_values (map2 masked_by wy (map Fin cs))).
  { unfold xa, prep_values. rewrite window_at_map, window_at_map2.
    fold wy. now rewrite Hwx. }
  assert (EY : window_at ya W t
               = prep_values (map2 masked_by (map Fin cs) wy)).
  { unfold ya, prep_values. rewrite window_at_map, window_at_map2.
    fold wy. now rewrite Hwx. }
  rewrite cov_numerator_nth by (rewrite ?HX, ?HY; auto). cbv zeta.
  destruct (forallb is_fin wy) eqn:Efin.
  - right. apply forallb_is_fin_full in Efin.
    set (ys := fins wy) in *.
    assert (Hys : length ys = length cs).
    { rewrite <- Hwyl, Efin, length_map. reflexivity. }
    assert (EX' : window_at xa W t = map Fin ys).
    { rewrite EX, Efin. now apply prep_binary_numbers. }
    assert (EY' : window_at ya W t = map Fin cs).
    { rewrite EY, Efin. apply prep_binary_numbers. now symmetry. }
    split; [|exists ys; repeat split; [lia | exact EX' | exact EY']].
    rewrite EX', EY'.
    rewrite (@count_full W), bessel_factor by lia.
    rewrite (map2_Fin cell_mul Qcmult) by reflexivity.
    rewrite !fins_map_Fin.
    rewrite !calc_mean_full by (rewrite ?map2_length_same; lia).
    unfold cell_mul, cell_sub, cell_neg, cell_add. f_equal.
    rewrite (qsum_scaled ys Hconst Hys).
    rewrite (qsum_constant Hconst) at 2. rewrite Hn.
    field. split; apply qn_neq_0; lia.
  - left. pose proof (prep_binary_gap wy cs Hwyl Efin) as Hgap.
    rewrite EX.
    rewrite (@calc_mean_short W
               (fins (prep_values (map2 masked_by wy (map Fin cs)))))
      by lia.
    now rewrite cell_mul_nan_l, cell_sub_nan_r, cell_mul_nan_l.
Qed.

Lemma qsum_co_dev (my mc : Qc) (ys cs : list Qc) :
  length ys = length cs ->
  qsum (map2 (co_dev my mc) ys cs)
  = (qsum (map2 Qcmult ys cs) - my * qsum cs - mc * qsum ys
     + qn (length ys) * my * mc)%Qc.
Proof.
  revert cs. induction ys as [|y ys IH]; intros [|c cs] H; simpl in H;
    try discriminate.
  - cbn [map2 qsum fold_right length]. rewrite qn_0. ring.
  - cbn [map2 qsum fold_right length].
    fold (qsum (map2 (co_dev my mc) ys cs)).
    fold (qsum (map2 Qcmult ys cs)). fold (qsum ys). fold (qsum cs).
    assert (Hl : length ys = length cs) by lia.
    rewrite (IH cs Hl), qn_S. unfold co_dev. ring.
Qed.

Lemma co_moment_identity (W : nat) (ys cs : list Qc) :
  length ys = W -> length cs = W -> 2 <= W ->
  ((qsum (map2 Qcmult ys cs) / qn W
    - qsum ys / qn W * (qsum cs / qn W)) * (qn W / qn (W - 1)))%Qc
  = (qsum (map2 (co_dev (qsum ys / qn W) (qsum cs / qn W)) ys cs)
     / qn (W - 1))%Qc.
Proof.
  intros Hy Hc HW.
  assert (Hl : length ys = length cs) by lia.
  rewrite (@qsum_co_dev _ _ ys cs Hl), Hy.
  assert (H1 : qn W <> 0%Qc) by (apply qn_neq_0; lia).
  assert (H2 : qn (W - 1) <> 0%Qc) by (apply qn_neq_0; lia).
  field. split; assumption.
Qed.

Lemma prep_values_numbers (cs : list Qc) :
  prep_values (map Fin cs) = map Fin cs.
Proof.
  unfold prep_values. rewrite map_map. reflexivity.
Qed.

Lemma calc_var_full (W : nat) (obs : list Qc) :
  length obs = W -> 2 <= W ->
  calc_var W ddof obs
  = Fin (qsum (map (sq_dev (qsum obs / qn W)) obs) / qn (W - 1)).
Proof.
  intros Hl HW. unfold calc_var, ddof. rewrite Hl, Nat.leb_refl.
  destruct (Nat.ltb_spec 1 W); [reflexivity | lia].
Qed.

(** The windows of the two prepared series when both raw windows hold
    numbers. *)
Lemma prepared_windows (y x : list cell) (W t : nat) (ys cs : list Qc) :
  window_at y W t = map Fin ys -> window_at x W t = map Fin cs ->
  length ys = length cs ->
  window_at (prep_values (map2 masked_by y x)) W t = map Fin ys
  /\ window_at (prep_values (map2 masked_by x y)) W t = map Fin cs.
Proof.
  intros Hy Hx Hl. unfold prep_values.
  rewrite !window_at_map, !window_at_map2, Hy, Hx.
  split; apply prep_binary_numbers; [exact Hl | now symmetry].
Qed.

Lemma rolling_cov_numbers (y x : list cell) (W t : nat) (ys cs : list Qc) :
  length y = length x -> t < length x ->
  window_at y W t = map Fin ys -> window_at x W t = map Fin cs ->
  length ys = W -> length cs = W -> 2 <= W ->
  nth t (rolling_cov y x W) NaN
  = Fin (qsum (map2 (co_dev (qsum ys / qn W) (qsum cs / qn W)) ys cs)
         / qn (W - 1)).
Proof.
  intros Hlen Ht Hy Hx Hys Hcs HW.
  assert (Hl : length ys = length cs) by lia.
  destruct (@prepared_windows y x W t ys cs Hy Hx Hl) as [EX EY].
  destruct (@prep_binary_length y x Hlen) as [HX HY].
  unfold prep_binary in HX, HY. cbn [fst snd] in HX, HY.
  unfold rolling_cov, prep_binary.
  rewrite cov_numerator_nth by (rewrite ?HX, ?HY; auto). cbv zeta.
  rewrite EX, EY.
  rewrite (@count_full W), bessel_factor by lia.
  rewrite (map2_Fin cell_mul Qcmult) by reflexivity.
  rewrite !fins_map_Fin.
  rewrite !calc_mean_full by (rewrite ?map2_length_same; lia).
  unfold cell_mul, cell_sub, cell_neg, cell_add. f_equal.
  now apply co_moment_identity.
Qed.

Lemma rolling_var_numbers (x : list cell) (W t : nat) (cs : list Qc) :
  t < length x -> window_at x W t = map Fin cs ->
  length cs = W -> 2 <= W ->
  nth t (rolling_var x W) NaN
  = Fin (qsum (map (sq_dev (qsum cs / qn W)) cs) / qn (W - 1)).
Proof.
  intros Ht Hx Hcs HW. rewrite rolling_var_nth by exact Ht.
  rewrite Hx, prep_values_numbers, fins_map_Fin.
  now apply calc_var_full.
Qed.

Lemma Qcdiv_nonneg (a n : Qc) : (0 <= a)%Qc -> (0 < n)%Qc -> (0 <= a / n)%Qc.
Proof.
  intros Ha Hn. apply Qcmult_lt_0_le_reg_r with (z := n); [exact Hn|].
  assert (Hne : n <> 0%Qc).
  { intros E. rewrite E in Hn. now apply (Qclt_not_eq _ _ Hn). }
  replace (0 * n)%Qc with 0%Qc by ring.
  now replace (a / n * n)%Qc with a by (field; exact Hne).
Qed.

(** The rolling variances of a full window of numbers are not negative. *)
Lemma window_var_nonneg (W : nat) (m : Qc) (obs : list Qc) :
  2 <= W -> (0 <= qsum (map (sq_dev m) obs) / qn (W - 1))%Qc.
Proof.
  intros HW. apply Qcdiv_nonneg; [apply qsum_squares_nonneg|].
  replace (W - 1) with (S (W - 2)) by lia. apply qn_S_pos.
Qed.

Lemma rolling_corr_numbers (sqrtq : Qc -> Qc) (y x : list cell)
      (W t : nat) (ys cs : list Qc) :
  length y = length x -> t < length x ->
  window_at y W t = map Fin ys -> window_at x W t = map Fin cs ->
  length ys = W -> length cs = W -> 2 <= W ->
  let my := (qsum ys / qn W)%Qc in
  let mc := (qsum cs / qn W)%Qc in
  let cov := (qsum (map2 (co_dev my mc) ys cs) / qn (W - 1))%Qc in
  let vy := (qsum (map (sq_dev my) ys) / qn (W - 1))%Qc in
  let vc := (qsum (map (sq_dev mc) cs) / qn (W - 1))%Qc in
  nth t (rolling_corr sqrtq y x W) NaN
  = cell_div (Fin cov) (Fin (sqrtq (vy * vc)%Qc)).
Proof.
  intros Hlen Ht Hy Hx Hys Hcs HW my mc cov vy vc.
  assert (Hl : length ys = length cs) by lia.
  rewrite rolling_corr_nth by assumption. cbv zeta.
  change (nth t (cov_numerator (prep_values (fst (prep_binary y x)))
                               (prep_values (snd (prep_binary y x))) W) NaN)
    with (nth t (rolling_cov y x W) NaN).
  rewrite (@rolling_cov_numbers y x W t ys cs Hlen Ht Hy Hx Hys Hcs HW).
  destruct (@prepared_windows y x W t ys cs Hy Hx Hl) as [EX EY].
  unfold prep_binary. cbn [fst snd]. rewrite EX, EY, !fins_map_Fin.
  rewrite !calc_var_full by assumption.
  fold my mc. fold vy vc cov.
  change (cell_mul (Fin vy) (Fin vc)) with (Fin (vy * vc)).
  unfold cell_sqrt.
  assert (Hprod : (0 <= vy * vc)%Qc).
  { replace 0%Qc with (0 * vc)%Qc by ring.
    apply Qcmult_le_compat_r; now apply window_var_nonneg. }
  assert (Hsg : sign_of (vy * vc) <> Gt).
  { unfold sign_of. intros Hgt. apply Qcgt_alt in Hgt.
    exact (Qcle_not_lt _ _ Hprod Hgt). }
  destruct (sign_of (vy * vc)); try congruence; reflexivity.
Qed.

(** The rolling beta and the rolling correlation of a date are computed
    from the two windows of that date alone. *)
Lemma rolling_moments_local (sqrtq : Qc -> Qc) (y x y' x' : list cell)
      (W t : nat) :
  length y = length x -> length y' = length x' ->
  t < length x -> t < length x' ->
  window_at y W t = window_at y' W t ->
  window_at x W t = window_at x' W t ->
  nth t (rolling_beta y x W) NaN = nth t (rolling_beta y' x' W) NaN
  /\ nth t (rolling_corr sqrtq y x W) NaN
     = nth t (rolling_corr sqrtq y' x' W) NaN.
Proof.
  intros Hl Hl' Ht Ht' Hy Hx.
  destruct (@prep_binary_length y x Hl) as [HX HY].
  destruct (@prep_binary_length y' x' Hl') as [HX' HY'].
  unfold prep_binary in HX, HY, HX', HY'. cbn [fst snd] in *.
  assert (EX : window_at (prep_values (map2 masked_by y x)) W t
               = window_at (prep_values (map2 masked_by y' x')) W t).
  { unfold prep_values.
    now rewrite !window_at_map, !window_at_map2, Hy, Hx. }
  assert (EY : window_at (prep_values (map2 masked_by x y)) W t
               = window_at (prep_values (map2 masked_by x' y')) W t).
  { unfold prep_values.
    now rewrite !window_at_map, !window_at_map2, Hy, Hx. }
  assert (Ecov : nth t (rolling_cov y x W) NaN
                 = nth t (rolling_cov y' x' W) NaN).
  { unfold rolling_cov, prep_binary.
    rewrite !cov_numerator_nth by (rewrite ?HX, ?HY, ?HX', ?HY'; auto).
    cbv zeta. now rewrite EX, EY. }
  split.
  - rewrite !rolling_beta_nth by assumption.
    rewrite Ecov, !rolling_var_nth by assumption. now rewrite Hx.
  - rewrite !rolling_corr_nth by assumption. cbv zeta.
    unfold prep_binary. cbn [fst snd].
    change (nth t (cov_numerator (prep_values (map2 masked_by y x))
                                 (prep_values (map2 masked_by x y)) W) NaN)
      with (nth t (rolling_cov y x W) NaN).
    change (nth t (cov_numerator (prep_values (map2 masked_by y' x'))
                                 (prep_values (map2 masked_by x' y')) W) NaN)
      with (nth t (rolling_cov y' x' W) NaN).
    now rewrite Ecov, EX, EY.
Qed.

(** ** Division by a zero variance on binary64 floats *)

Section Binary64.
Import PrimFloat SpecFloat FloatOps FloatAxioms.

Lemma SFeqb_refl (x : spec_float) : x <> S754_nan -> SFeqb x x = true.
Proof.
  intros H. destruct x as [s | s | | s m e]; try reflexivity.
  - now destruct s.
  - now elim H.
  - unfold SFeqb, SFcompare. rewrite Z.compare_refl, Pos.compare_cont_refl.
    now destruct s.
Qed.

Lemma is_nan_spec (f : float) :
  is_nan f = true <-> Prim2SF f = S754_nan.
Proof.
  unfold is_nan. rewrite eqb_spec. split.
  - intros H. destruct (Prim2SF f) as [s | s | | s m e] eqn:E;
      try reflexivity; rewrite SFeqb_refl in H by discriminate;
      discriminate.
  - intros ->. reflexivity.
Qed.

Lemma is_zero_spec (f : float) :
  is_zero f = true <-> exists s, Prim2SF f = S754_zero s.
Proof.
  unfold is_zero. rewrite eqb_spec.
  change (Prim2SF zero) with (S754_zero false). split.
  - destruct (Prim2SF f) as [s | s | | s m e]; intros H.
    + now exists s.
    + destruct s; discriminate.
    + discriminate.
    + destruct s; discriminate.
  - intros [s ->]. reflexivity.
Qed.

Lemma is_infinity_spec (f : float) :
  is_infinity f = true <-> exists s, Prim2SF f = S754_infinity s.
Proof.
  unfold is_infinity. rewrite eqb_spec, abs_spec.
  change (Prim2SF infinity) with (S754_infinity false). split.
  - destruct (Prim2SF f) as [s | s | | s m e]; intros H;
      try discriminate. now exists s.
  - intros [s ->]. reflexivity.
Qed.

(** A float is a zero, an infinity, NaN, or another number. *)
Lemma nan_or_zero_spec (f : float) :
  (is_nan f || is_zero f = true <->
   Prim2SF f = S754_nan \/ exists s, Prim2SF f = S754_zero s).
Proof.
  rewrite orb_true_iff, is_nan_spec, is_zero_spec. tauto.
Qed.

(** What a float division by a zero gives. *)
Lemma SF_division_by_zero (x : spec_float) (s : bool) :
  (x = S754_nan \/ (exists sx, x = S754_zero sx) ->
   SF64div x (S754_zero s) = S754_nan)
  /\ (~ (x = S754_nan \/ exists sx, x = S754_zero sx) ->
      exists sz, SF64div x (S754_zero s) = S754_infinity sz).
Proof.
  destruct x as [sx | sx | | sx m e]; split; intros H;
    first [ reflexivity
          | now eexists
          | destruct H as [H | [s' H]]; discriminate
          | elim H; now left
          | elim H; right; now eexists ].
Qed.

Lemma divided_by_zero (n r : float) (s : bool) :
  Prim2SF r = SF64div (Prim2SF n) (S754_zero s) ->
  (is_nan n || is_zero n = true -> is_nan r = true)
  /\ (is_nan n || is_zero n = false -> is_infinity r = true)
  /\ is_finite r = false.
Proof.
  intros Hq.
  destruct (SF_division_by_zero (Prim2SF n) s) as [Hnan Hinf].
  destruct (is_nan n || is_zero n) eqn:E.
  - assert (Hr : is_nan r = true).
    { apply is_nan_spec. rewrite Hq. apply Hnan.
      now apply nan_or_zero_spec. }
    split; [auto|]. split; [discriminate|].
    unfold is_finite. now rewrite Hr.
  - assert (Hr : is_infinity r = true).
    { apply is_infinity_spec. rewrite Hq. apply Hinf. intros H.
      apply nan_or_zero_spec in H. congruence. }
    split; [discriminate|]. split; [auto|].
    unfold is_finite. now rewrite Hr, orb_true_r.
Qed.

Lemma quotient_by_zero (cov var : float) :
  is_zero var = true ->
  (is_nan cov || is_zero cov = true ->
   is_nan (F64.quotient cov var) = true)
  /\ (is_nan cov || is_zero cov = false ->
      is_infinity (F64.quotient cov var) = true)
  /\ is_finite (F64.quotient cov var) = false.
Proof.
  intros Hv. apply is_zero_spec in Hv as [s Hv].
  apply divided_by_zero with (s := s).
  unfold F64.quotient. now rewrite div_spec, Hv.
Qed.

Lemma corr_quotient_by_zero (numerator x_var y_var : float) :
  is_zero y_var = true ->
  (is_nan numerator || is_zero numerator = true ->
   is_nan (F64.corr_quotient numerator x_var y_var) = true)
  /\ is_finite (F64.corr_quotient numerator x_var y_var) = false.
Proof.
  intros Hv. apply is_zero_spec in Hv as [s Hv].
  set (d := sqrt (x_var * y_var)%float).
  assert (Hd : Prim2SF d = S754_nan \/ exists sd, Prim2SF d = S754_zero sd).
  { unfold d. rewrite sqrt_spec, mul_spec, Hv.
    destruct (Prim2SF x_var) as [sx | sx | | sx m e]; cbn;
      try (now left); right; now eexists. }
  assert (Hq : Prim2SF (F64.corr_quotient numerator x_var y_var)
               = SF64div (Prim2SF numerator) (Prim2SF d)).
  { unfold F64.corr_quotient. fold d. now rewrite div_spec. }
  destruct Hd as [Hd | [sd Hd]]; rewrite Hd in Hq.
  - assert (Hr : is_nan (F64.corr_quotient numerator x_var y_var) = true).
    { apply is_nan_spec. rewrite Hq.
      now destruct (Prim2SF numerator). }
    split; [auto|]. unfold is_finite. now rewrite Hr.
  - destruct (divided_by_zero numerator _ sd Hq) as (H1 & _ & H3).
    split; assumption.
Qed.

(** C3 (amended).  In exact arithmetic: whenever the rolling variance of
    the benchmark is zero at a date (with any square root that maps 0 to
    0), the rolling beta and the rolling correlation of that date are
    missing values; both results keep one entry per date; at every date
    with two full windows of numbers the beta is the covariance over the
    variance when the variance is not zero and the correlation the
    covariance over the root when the root is not zero; and the value of a
    date depends on the two windows of that date only.  On binary64
    floats: dividing by a variance that is a zero raises nothing and never
    gives a finite number; the quotient is NaN when the numerator is NaN
    or a zero, and an infinity otherwise; the correlation with a zero
    variance under the root is NaN or an infinity as well, NaN when the
    numerator is NaN or a zero. *)
Theorem zero_variance_undefined (sqrtq : Qc -> Qc) (y x : list cell)
        (W t : nat) :
  sqrtq 0%Qc = 0%Qc ->
  length y = length x ->
  (nth t (rolling_var x W) NaN = Fin 0 ->
   nth t (rolling_beta y x W) NaN = NaN
   /\ nth t (rolling_corr sqrtq y x W) NaN = NaN)
  /\ length (rolling_beta y x W) = length x
  /\ length (rolling_corr sqrtq y x W) = length x
  /\ (forall t' ys cs,
        t' < length x ->
        window_at y W t' = map Fin ys -> window_at x W t' = map Fin cs ->
        length ys = W -> length cs = W -> 2 <= W ->
        let my := (qsum ys / qn W)%Qc in
        let mc := (qsum cs / qn W)%Qc in
        let cov := (qsum (map2 (co_dev my mc) ys cs) / qn (W - 1))%Qc in
        let vy := (qsum (map (sq_dev my) ys) / qn (W - 1))%Qc in
        let vc := (qsum (map (sq_dev mc) cs) / qn (W - 1))%Qc in
        (vc <> 0%Qc -> nth t' (rolling_beta y x W) NaN = Fin (cov / vc))
        /\ (sqrtq (vy * vc)%Qc <> 0%Qc ->
            nth t' (rolling_corr sqrtq y x W) NaN
            = Fin (cov / sqrtq (vy * vc)%Qc)))
  /\ (forall y' x' t',
        length y' = length x' -> t' < length x -> t' < length x' ->
        window_at y W t' = window_at y' W t' ->
        window_at x W t' = window_at x' W t' ->
        nth t' (rolling_beta y x W) NaN = nth t' (rolling_beta y' x' W) NaN
        /\ nth t' (rolling_corr sqrtq y x W) NaN
           = nth t' (rolling_corr sqrtq y' x' W) NaN)
  /\ (forall cov var : float,
        is_zero var = true ->
        (is_nan cov || is_zero cov = true ->
         is_nan (F64.quotient cov var) = true)
        /\ (is_nan cov || is_zero cov = false ->
            is_infinity (F64.quotient cov var) = true)
        /\ is_finite (F64.quotient cov var) = false)
  /\ (forall numerator x_var y_var : float,
        is_zero y_var = true ->
        (is_nan numerator || is_zero numerator = true ->
         is_nan (F64.corr_quotient numerator x_var y_var) = true)
        /\ is_finite (F64.corr_quotient numerator x_var y_var) = false).
Proof.
  intros Hsqrt Hlen.
  split; [|split; [|split; [|split; [|split; [|split]]]]].
  - intros Hvar.
    assert (Ht : t < length x).
    { destruct (Nat.lt_ge_cases t (length x)) as [H | H]; [exact H|].
      rewrite nth_overflow in Hvar; [discriminate|].
      now rewrite rolling_var_length. }
    destruct (@flat_window x W t Ht Hvar)
      as (cs & Hwx & Hn & HW & Hconst & Hcs).
    pose proof (@cov_numerator_flat y x W t cs Hlen Ht Hwx Hn HW Hconst)
      as Hnum.
    cbv zeta in Hnum. split.
    + rewrite rolling_beta_nth by assumption. rewrite Hvar.
      unfold rolling_cov, prep_binary.
      destruct Hnum as [-> | [-> _]]; reflexivity.
    + rewrite rolling_corr_nth by assumption. cbv zeta.
      unfold prep_binary. cbn [fst snd].
      destruct Hnum as [-> | [-> (ys & Hys & -> & ->)]]; [reflexivity|].
      rewrite !fins_map_Fin, Hcs.
      destruct (calc_var_nan_or_fin W ys) as [-> | [vy ->]];
        [reflexivity|].
      unfold cell_mul. rewrite Qcmult_0_r.
      unfold cell_sqrt. change (sign_of 0) with Eq. cbv iota.
      rewrite Hsqrt. reflexivity.
  - now apply rolling_beta_length.
  - now apply rolling_corr_length.
  - intros t' ys cs' Ht' Hy' Hx' Hys Hcs' HW' my mc cov vy vc. split.
    + intros Hne. rewrite rolling_beta_nth by assumption.
      rewrite (@rolling_cov_numbers y x W t' ys cs'
                 Hlen Ht' Hy' Hx' Hys Hcs' HW').
      rewrite (@rolling_var_numbers x W t' cs' Ht' Hx' Hcs' HW').
      fold my mc. fold cov vc. unfold cell_div.
      destruct (Qc_eq_dec vc 0); [contradiction | reflexivity].
    + intros Hne.
      rewrite (@rolling_corr_numbers sqrtq y x W t' ys cs'
                 Hlen Ht' Hy' Hx' Hys Hcs' HW').
      cbv zeta. fold my mc. fold cov vy vc. unfold cell_div.
      destruct (Qc_eq_dec (sqrtq (vy * vc)%Qc) 0);
        [contradiction | reflexivity].
  - intros y' x' t' Hl' Ht' Ht'' Hy' Hx'.
    now apply rolling_moments_local.
  - intros cov var. apply quotient_by_zero.
  - intros numerator x_var y_var. apply corr_quotient_by_zero.
Qed.

Lemma zero_variance_undefined_witness :
  let y := [Fin (Q2Qc (1 # 10)); Fin (Q2Qc (-1 # 10)); Fin (Q2Qc (2 # 33));
            Fin 1%Qc] in
  let x := [Fin 1%Qc; Fin 1%Qc; Fin (qz 2); Fin (qz 5)] in
  sqrt_floor 0%Qc = 0%Qc
  /\ length y = length x
  /\ nth 1 (rolling_var x 2) NaN = Fin 0
  /\ nth 1 (rolling_beta y x 2) NaN = NaN
  /\ nth 1 (rolling_corr sqrt_floor y x 2) NaN = NaN.
Proof.
  intros y x.
  assert (H0 : sqrt_floor 0%Qc = 0%Qc) by (apply Qc_is_canon; reflexivity).
  assert (Hl : length y = length x) by reflexivity.
  assert (Hv : nth 1 (rolling_var x 2) NaN = Fin 0) by cell_compute.
  split; [exact H0|]. split; [exact Hl|]. split; [exact Hv|].
  destruct (@zero_variance_undefined sqrt_floor y x 2 1 H0 Hl)
    as (Hz & _).
  exact (Hz Hv).
Defined.

(** On binary64 floats the claim fails: a benchmark of 0.1, 0.1 has a
    rolling variance of exactly 0 over its two dates, the covariance with
    an asset of 0.3, 0.7 is rounded to -2^-56 instead of 0, and beta and
    correlation are minus infinity, which pandas does not count as
    missing.  The exact model gives NaN on the same input. *)
Lemma zero_variance_rounding :
  let y := [3 / 10; 7 / 10]%float in
  let x := [1 / 10; 1 / 10]%float in
  F64.rolling_var_last x = 0%float
  /\ F64.rolling_cov_last y x = (- 0x1p-56)%float
  /\ F64.rolling_beta_last y x = neg_infinity
  /\ F64.rolling_corr_last y x = neg_infinity
  /\ F64.notna (F64.rolling_beta_last y x) = true
  /\ F64.notna (F64.rolling_corr_last y x) = true
  /\ nth 1 (rolling_beta [Fin (Q2Qc (3 # 10)); Fin (Q2Qc (7 # 10))]
                         [Fin (Q2Qc (1 # 10)); Fin (Q2Qc (1 # 10))] 2) NaN
     = NaN.
Proof.
  repeat split; first [vm_compute; reflexivity | cell_compute].
Qed.


End Binary64.

Lemma align_spec_witness :
  let panel := [mkDF [3; 1; 2]%Z
                  [("GSOX"%string, [Fin (qz 30); Fin (qz 10); NaN])];
                mkDF [2; 5]%Z
                  [("SPX"%string, [Fin (qz 2); Fin (qz 5)])]] in
  sorts stable_argsort /\ panel <> [] /\ Forall wf_frame panel
  /\ Forall (fun df => NoDup (index df)) panel
  /\ exists data, align stable_argsort panel = Some data.
Proof.
  intros panel.
  assert (Hne : panel <> []) by discriminate.
  assert (Hwf : Forall wf_frame panel) by (repeat constructor).
  assert (Hu : Forall (fun df => NoDup (index df)) panel).
  { repeat constructor; simpl; intuition discriminate. }
  split; [exact stable_argsort_sorts|].
  split; [exact Hne|]. split; [exact Hwf|]. split; [exact Hu|].
  exact (proj1 (@align_spec stable_argsort panel stable_argsort_sorts
                  Hne Hwf) Hu).
Defined.

(** ** Worked examples *)

(** Two tickers on different calendars: the aligned index is the sorted
    union 1, 2, 3, 5 and the gaps are closed forward, then backward,
    whatever the sorting routine. *)
Example align_two_calendars (kind : sort_kind) :
  sorts kind ->
  let panel := [mkDF [3; 1; 2]%Z
                  [("GSOX"%string, [Fin (qz 30); Fin (qz 10); NaN])];
                mkDF [2; 5]%Z
                  [("SPX"%string, [Fin (qz 2); Fin (qz 5)])]] in
  option_map index (align kind panel) = Some [1; 2; 3; 5]%Z
  /\ option_map (fun d => getcol d "GSOX") (align kind panel)
     = Some (Some (map Fin [qz 10; qz 10; qz 30; qz 30]))
  /\ option_map (fun d => getcol d "SPX") (align kind panel)
     = Some (Some (map Fin [qz 2; qz 2; qz 2; qz 5])).
Proof.
  intros Hk panel.
  assert (Hu : Forall (fun df => NoDup (index df)) panel).
  { repeat constructor; simpl; intuition discriminate. }
  rewrite (align_any_kind Hk stable_argsort_sorts Hu).
  split; [reflexivity|].
  split; vm_compute; do 2 f_equal; cell_compute.
Qed.

(** One frame with a repeated date whose dates already ascend: the frame
    is not reordered, and the row of the first occurrence is the one that
    stays. *)
Example align_repeated_date (kind : sort_kind) :
  let panel := [mkDF [1; 1; 2]%Z
                  [("GSOX"%string, [Fin (qz 30); Fin (qz 10); Fin (qz 7)])]] in
  option_map index (align kind panel) = Some [1; 2]%Z
  /\ option_map (fun d => getcol d "GSOX") (align kind panel)
     = Some (Some (map Fin [qz 30; qz 7])).
Proof.
  intros panel. split; [reflexivity|].
  vm_compute; do 2 f_equal; cell_compute.
Qed.

(** One frame with a repeated date whose dates do not ascend: which of
    the two rows of date 1 stays is up to the sorting routine. *)
Example align_repeated_date_unsorted :
  let panel := [mkDF [2; 1; 1]%Z
                  [("GSOX"%string, [Fin (qz 7); Fin (qz 30); Fin (qz 10)])]] in
  option_map (fun d => getcol d "GSOX") (align stable_argsort panel)
  = Some (Some (map Fin [qz 30; qz 7]))
  /\ option_map (fun d => getcol d "GSOX") (align latest_first_argsort panel)
     = Some (Some (map Fin [qz 10; qz 7])).
Proof.
  intros panel. split; vm_compute; do 2 f_equal; cell_compute.
Qed.

(** A frame with a repeated date next to a frame on another calendar
    cannot be joined. *)
Example align_repeated_date_refused (kind : sort_kind) :
  align kind
        [mkDF [1; 1; 2]%Z
           [("GSOX"%string, [Fin (qz 30); Fin (qz 10); Fin (qz 7)])];
         mkDF [2; 5]%Z [("SPX"%string, [Fin (qz 2); Fin (qz 5)])]] = None.
Proof. reflexivity. Qed.

(** The scenario of the specification: levels 100, 110, 99, 105 against
    100, 105, 100, 102 and a window of 2. *)
Example scenario_window_2 :
  let data := mkDF [1; 2; 3; 4]%Z
                [("GSOX"%string, map Fin [qz 100; qz 110; qz 99; qz 105]);
                 ("SPX"%string, map Fin [qz 100; qz 105; qz 100; qz 102])] in
  let rets := returns data in
  index rets = [2; 3; 4]%Z
  /\ getcol rets "GSOX"
     = Some (map Fin [Q2Qc (1 # 10); Q2Qc (-1 # 10); Q2Qc (2 # 33)])
  /\ getcol rets "SPX"
     = Some (map Fin [Q2Qc (1 # 20); Q2Qc (-1 # 21); Q2Qc (1 # 50)])
  /\ rolling_period_return
       (map Fin [Q2Qc (1 # 10); Q2Qc (-1 # 10); Q2Qc (2 # 33)]) 2
     = [NaN; Fin (Q2Qc (-1 # 100)); Fin (Q2Qc (-1 # 22))]
  /\ ((1 + Q2Qc (-1 # 10)) * (1 + Q2Qc (2 # 33)) - 1)%Qc = Q2Qc (-1 # 22).
Proof.
  intros data rets. split; [reflexivity|].
  split; [vm_compute; f_equal; cell_compute|].
  split; [vm_compute; f_equal; cell_compute|].
  split; [cell_compute|]. apply Qc_is_canon. reflexivity.
Qed.

(** One ticker without data: a warning for it, alignment of the others;
    no ticker with data: the RuntimeError. *)
Example one_ticker_missing (kind : sort_kind) :
  let frame := fun v => mkDF [1; 2]%Z [("PX_LAST"%string, [Fin v; Fin v])] in
  let raw := [("GSOX Index"%string, Some (frame (qz 10)));
              ("RGUSTSC Index"%string, Some (mkDF [] []));
              ("SPX Index"%string, Some (frame (qz 20)));
              ("MXWO Index"%string, Some (frame (qz 30)))] in
  fst (aligned_panel kind raw)
  = ["Warning: No data returned for RGUSTSC Index. Skipping."%string]
  /\ (exists data, snd (aligned_panel kind raw) = Ok data
                   /\ column_names data = ["GSOX"; "SPX"; "MXWO"]%string
                   /\ index data = [1; 2]%Z)
  /\ snd (aligned_panel kind [("SPX Index"%string, None)])
     = RuntimeError "No data available for any ticker."
  /\ length (fst (aligned_panel kind [("SPX Index"%string, None)])) = 4.
Proof.
  intros frame raw. split; [reflexivity|]. split.
  - destruct (snd (aligned_panel kind raw)) as [data| |] eqn:E;
      try (vm_compute in E; discriminate).
    exists data. split; [reflexivity|].
    assert (Hn : match snd (aligned_panel kind raw) with
                 | Ok d => column_names d = ["GSOX"; "SPX"; "MXWO"]%string
                           /\ index d = [1; 2]%Z
                 | _ => False
                 end) by (vm_compute; split; reflexivity).
    rewrite E in Hn. exact Hn.
  - split; reflexivity.
Qed.

(** * Further properties of the code *)

(** ** first_non_nan *)

(** X1.  [first_non_nan] returns the first entry that is not missing: it
    answers NaN exactly when every entry is missing (an empty series
    included), and otherwise the series is a run of missing entries
    followed by the answer. *)
Theorem first_non_nan_spec (series : list cell) :
  (first_non_nan series = NaN <-> forallb isna series = true)
  /\ (first_non_nan series <> NaN ->
      exists pre rest,
        series = pre ++ first_non_nan series :: rest
        /\ forallb isna pre = true).
Proof.
  induction series as [|v series [IH1 IH2]]; simpl.
  - split; [tauto | intros H; now elim H].
  - unfold notna. destruct (isna v) eqn:E; simpl.
    + split; [exact IH1|]. intros H.
      destruct (IH2 H) as (pre & rest & Hs & Hp).
      exists (v :: pre), rest. split; [now rewrite Hs at 1|].
      simpl. now rewrite E.
    + split.
      * split; [intros ->; discriminate | discriminate].
      * intros _. exists [], series. now split.
Qed.

(** ** Forward fill followed by backward fill *)

Lemma all_missing_filled (s : list cell) :
  forallb isna s = true -> bfill_values (ffill_values s) = s.
Proof.
  intros H.
  assert (Hf : ffill_values s = s).
  { unfold ffill_values. induction s as [|x s IH]; simpl in *;
      [reflexivity|].
    apply andb_true_iff in H as [Hx Hs]. rewrite Hx.
    destruct x; try discriminate. now rewrite IH. }
  rewrite Hf. induction s as [|x s IH]; simpl in *; [reflexivity|].
  apply andb_true_iff in H as [Hx Hs].
  assert (Hf' : ffill_values s = s).
  { unfold ffill_values in *. destruct x; try discriminate.
    simpl in Hf. now injection Hf. }
  rewrite (IH Hs Hf'). rewrite Hx. destruct x; try discriminate.
  destruct s as [|y s]; [reflexivity|].
  simpl in Hs. apply andb_true_iff in Hs as [Hy _].
  destruct y; try discriminate. reflexivity.
Qed.

(** X2.  What [ffill().bfill()] puts in a column: the length is kept; a
    date that has a value at or before it takes the latest such value (so
    a present value is never changed); a date before the first value of the
    column takes that first, later value; a column without any value stays
    as it is. *)
Theorem fill_policy (s : list cell) :
  let r := bfill_values (ffill_values s) in
  length r = length s
  /\ (forall j t, j <= t -> t < length s ->
        notna (nth j s NaN) = true ->
        (forall k, j < k <= t -> isna (nth k s NaN) = true) ->
        nth t r NaN = nth j s NaN)
  /\ (forall t j, t < j -> j < length s ->
        notna (nth j s NaN) = true ->
        (forall k, k < j -> isna (nth k s NaN) = true) ->
        nth t r NaN = nth j s NaN)
  /\ (forallb isna s = true -> r = s).
Proof.
  intros r.
  split; [unfold r; now rewrite bfill_values_length, ffill_values_length|].
  split; [|split; [|apply all_missing_filled]].
  - intros j t Hj Ht Hp Hgap. unfold r.
    assert (Hf : nth t (ffill_values s) NaN = nth j s NaN)
      by (now apply ffill_from_nth_present).
    rewrite <- Hf. apply bfill_values_nth_next; try lia.
    + now rewrite ffill_values_length.
    + now rewrite Hf.
  - intros t j Ht Hj Hp Hgap. unfold r.
    assert (Hf : nth j (ffill_values s) NaN = nth j s NaN).
    { apply (@ffill_from_nth_present s NaN j j);
        [lia | lia | exact Hp | intros k Hk; lia]. }
    rewrite <- Hf. apply bfill_values_nth_next; try lia.
    + now rewrite ffill_values_length.
    + now rewrite Hf.
    + intros k Hk. unfold ffill_values.
      rewrite ffill_from_nth_carried; [reflexivity | lia |].
      intros k' Hk'. apply Hgap. lia.
Qed.

(** ** The table of daily returns *)

Lemma take_mask_drop_first (A : Type) (mask : list bool) (l : list A) :
  length mask = length l ->
  (0 < length mask -> nth 0 mask true = false) ->
  (forall t, S t < length mask -> nth (S t) mask true = true) ->
  take_mask mask l = tl l.
Proof.
  intros Hl H0 Hrest.
  destruct mask as [|b mask], l as [|x l]; simpl in *; try reflexivity;
    try discriminate.
  rewrite H0 by lia. apply take_mask_all_true; [lia|].
  apply forallb_nth_true. intros t Ht. apply (Hrest t). lia.
Qed.

Lemma take_mask_head_false (A : Type) (mask : list bool) (l : list A) :
  length mask = length l -> l <> [] -> nth 0 mask true = false ->
  length (take_mask mask l) < length l.
Proof.
  intros Hl Hne H0.
  destruct mask as [|b mask], l as [|x l]; simpl in *; try discriminate;
    try (now elim Hne).
  subst b. pose proof (take_mask_length_le mask l). lia.
Qed.

Lemma nonzero_number_inv (c : cell) :
  nonzero_number c = true -> exists q, c = Fin q /\ q <> 0%Qc.
Proof.
  destruct c as [| | |q]; try discriminate. simpl. intros H.
  exists q. split; [reflexivity|]. intros ->.
  unfold Qc_eq_bool in H.
  destruct (Qc_eq_dec 0 0) as [_ | Hne]; [discriminate | now elim Hne].
Qed.

Lemma nth_prices (s : list cell) (t : nat) :
  forallb nonzero_number s = true -> t < length s ->
  exists q, nth t s NaN = Fin q /\ q <> 0%Qc.
Proof.
  intros H Ht. rewrite forallb_forall in H.
  apply nonzero_number_inv, H, nth_In, Ht.
Qed.

Lemma pct_change_values_prices (s : list cell) (t : nat) :
  forallb nonzero_number s = true -> S t < length s ->
  exists a b,
    nth t s NaN = Fin a /\ nth (S t) s NaN = Fin b /\ a <> 0%Qc
    /\ nth (S t) (pct_change_values s) NaN = Fin ((b - a) / a).
Proof.
  intros H Ht.
  assert (Ht' : t < length s) by lia.
  destruct (@nth_prices s t H Ht') as (a & Ha & Hne).
  destruct (@nth_prices s (S t) H Ht) as (b & Hb & _).
  exists a, b. repeat split; try assumption.
  rewrite pct_change_values_next by exact Ht.
  rewrite Ha, Hb, pct_of_numbers.
  destruct (Qc_eq_dec a 0); [contradiction | reflexivity].
Qed.

(** On a panel of prices [rets] is the table of the returns of all dates
    but the first. *)
Lemma returns_of_prices (data : DataFrame) :
  wf_frame data -> columns data <> [] -> all_prices data ->
  returns data
  = mkDF (tl (index data))
         (map (fun c => (fst c, tl (pct_change_values (snd c))))
              (columns data)).
Proof.
  intros Hwf Hcols Hp.
  pose proof (pct_change_wf Hwf) as Hwfpc.
  assert (Hlen : length (notna_all (pct_change data))
                 = length (index data))
    by (now rewrite notna_all_length).
  assert (H0 : index data <> [] ->
               nth 0 (notna_all (pct_change data)) true = false).
  { intros Hne.
    assert (Hpos : 0 < length (index data))
      by (destruct (index data); [now elim Hne | simpl; lia]).
    rewrite notna_all_nth by assumption.
    unfold pct_change, map_columns. cbn [columns].
    destruct (columns data) as [|c cols] eqn:E; [now elim Hcols|].
    simpl. rewrite pct_change_values_first; [reflexivity|].
    unfold wf_frame in Hwf. rewrite E in Hwf. inversion Hwf as [|? ? Hc _].
    intros Es. rewrite Es in Hc. simpl in Hc. lia. }
  assert (Hrest : forall t, S t < length (notna_all (pct_change data)) ->
                            nth (S t) (notna_all (pct_change data)) true
                            = true).
  { intros t Ht. rewrite Hlen in Ht.
    rewrite notna_all_nth by assumption.
    apply forallb_forall. intros c Hc.
    unfold pct_change, map_columns in Hc. cbn [columns] in Hc.
    apply in_map_iff in Hc as (c0 & <- & Hc0). cbn [snd].
    unfold all_prices in Hp. rewrite Forall_forall in Hp.
    unfold wf_frame in Hwf. rewrite Forall_forall in Hwf.
    destruct (@pct_change_values_prices (snd c0) t (Hp c0 Hc0))
      as (a & b & _ & _ & _ & ->); [rewrite (Hwf c0 Hc0); exact Ht|].
    reflexivity. }
  assert (H0' : 0 < length (notna_all (pct_change data)) ->
                nth 0 (notna_all (pct_change data)) true = false).
  { intros Hpos. apply H0. rewrite Hlen in Hpos.
    intros E. rewrite E in Hpos. simpl in Hpos. lia. }
  unfold returns, dropna_any, take_rows.
  change (index (pct_change data)) with (index data).
  change (columns (pct_change data))
    with (map (fun c => (fst c, pct_change_values (snd c))) (columns data)).
  f_equal.
  - now apply take_mask_drop_first.
  - rewrite map_map. apply map_ext_in. intros c Hc. cbn [fst snd].
    f_equal. apply take_mask_drop_first; [|exact H0' | exact Hrest].
    rewrite Hlen, pct_change_values_length.
    unfold wf_frame in Hwf. rewrite Forall_forall in Hwf.
    now rewrite (Hwf c Hc).
Qed.

(** X3.  [rets = data.pct_change().dropna()] on any well-formed panel keeps
    the column names, holds no missing cell, has columns of the length of
    its index, and has fewer rows than a panel that has rows and columns
    (the first row always goes); on a panel of non-zero numbers exactly
    the first row goes. *)
Theorem returns_shape (data : DataFrame) :
  wf_frame data ->
  wf_frame (returns data)
  /\ complete (returns data)
  /\ column_names (returns data) = column_names data
  /\ (columns data <> [] -> index data <> [] ->
      length (index (returns data)) < length (index data))
  /\ (columns data <> [] -> all_prices data ->
      index (returns data) = tl (index data)).
Proof.
  intros Hwf. pose proof (pct_change_wf Hwf) as Hwfpc.
  split; [now apply take_rows_wf|].
  split; [now apply dropna_any_complete|].
  split; [|split].
  - unfold column_names, returns, dropna_any, take_rows, pct_change,
      map_columns. cbn [columns]. rewrite !map_map. reflexivity.
  - intros Hcols Hne. unfold returns, dropna_any, take_rows. cbn [index].
    apply take_mask_head_false; [now rewrite notna_all_length | exact Hne|].
    assert (Hpos : 0 < length (index data))
      by (destruct (index data); [now elim Hne | simpl; lia]).
    rewrite notna_all_nth by assumption.
    unfold pct_change, map_columns. cbn [columns].
    destruct (columns data) as [|c cols] eqn:E; [now elim Hcols|].
    simpl. rewrite pct_change_values_first; [reflexivity|].
    unfold wf_frame in Hwf. rewrite E in Hwf. inversion Hwf as [|? ? Hc _].
    intros Es. rewrite Es in Hc. simpl in Hc. lia.
  - intros Hcols Hp. now rewrite returns_of_prices.
Qed.

Lemma returns_shape_witness :
  let data := mkDF [1; 2; 3]%Z
                [("GSOX"%string, [Fin (qz 10); Fin (qz 11); Fin 0%Qc]);
                 ("SPX"%string, [Fin 0%Qc; Fin (qz 5); Fin (qz 5)])] in
  wf_frame data /\ complete (returns data).
Proof.
  intros data.
  assert (Hwf : wf_frame data) by (repeat constructor).
  split; [exact Hwf|]. exact (proj1 (proj2 (returns_shape Hwf))).
Defined.

Lemma compound_telescope (p : nat -> Qc) (s n : nat) :
  (forall i, s <= i <= s + n -> p i <> 0%Qc) ->
  compound (fun i => ((p (S i) - p i) / p i)%Qc) s n
  = (p (s + n)%nat / p s)%Qc.
Proof.
  revert s. induction n as [|n IH]; intros s Hp; simpl.
  - rewrite Nat.add_0_r. symmetry. apply Qcdiv_self. apply Hp. lia.
  - rewrite IH by (intros i Hi; apply Hp; lia).
    replace (S s + n) with (s + S n) by lia.
    assert (H1 : p s <> 0%Qc) by (apply Hp; lia).
    assert (H2 : p (S s) <> 0%Qc) by (apply Hp; lia).
    field. split; assumption.
Qed.

(** X4.  Compounding the daily returns of a price column over a window
    gives the return of the price over that window: on a panel of non-zero
    numbers, the rolling period return of a column of [rets] at its
    [t]-th row (from the [W]-th row on) is
    [price[t+1] / price[t+1-W] - 1]. *)
Theorem period_return_telescopes (data : DataFrame) (name : string)
        (p : list Qc) (W t : nat) :
  wf_frame data -> all_prices data ->
  In (name, map Fin p) (columns data) ->
  1 <= W -> W <= t + 1 -> t + 1 < length p ->
  exists r,
    In (name, r) (columns (returns data))
    /\ length r = length p - 1
    /\ nth t (rolling_period_return r W) NaN
       = Fin (nth (t + 1) p 0%Qc / nth (t + 1 - W) p 0%Qc - 1).
Proof.
  intros Hwf Hp Hin HW Ht Hlen.
  assert (Hcols : columns data <> []) by (intros E; now rewrite E in Hin).
  set (s := map Fin p).
  assert (Hs : forallb nonzero_number s = true).
  { unfold all_prices in Hp. rewrite Forall_forall in Hp.
    exact (Hp _ Hin). }
  assert (Hsl : length s = length p) by apply length_map.
  exists (tl (pct_change_values s)).
  split; [|split].
  - rewrite returns_of_prices by assumption. cbn [columns].
    apply in_map_iff. now exists (name, s).
  - pose proof (pct_change_values_length s) as Hl.
    destruct (pct_change_values s); simpl in *; lia.
  - assert (Hr : forall i, S i < length p ->
               nth i (tl (pct_change_values s)) NaN
               = Fin ((nth (S i) p 0%Qc - nth i p 0%Qc) / nth i p 0%Qc)
                 /\ nth i p 0%Qc <> 0%Qc).
    { intros i Hi.
      destruct (@pct_change_values_prices s i Hs) as (a & b & Ha & Hb & Hne & E);
        [lia|].
      unfold s in Ha, Hb.
      rewrite nth_map_in with (da := 0%Qc) in Ha by lia.
      rewrite nth_map_in with (da := 0%Qc) in Hb by lia.
      injection Ha as Ha. injection Hb as Hb. subst a b.
      split; [|exact Hne]. rewrite <- E.
      destruct (pct_change_values s) as [|c l]; [|reflexivity].
      now destruct i. }
    assert (Hlast : nth (t + 1) p 0%Qc <> 0%Qc).
    { assert (Ht1 : t + 1 < length s) by lia.
      destruct (@nth_prices s (t + 1) Hs Ht1) as (q & Hq & Hne).
      unfold s in Hq. rewrite nth_map_in with (da := 0%Qc) in Hq by lia.
      injection Hq as ->. exact Hne. }
    rewrite (@rolling_period_return_numbers _ W t
               (fun i => ((nth (S i) p 0%Qc - nth i p 0%Qc) / nth i p 0%Qc)%Qc)).
    + f_equal. f_equal.
      rewrite (compound_telescope (fun i => nth i p 0%Qc)).
      * now replace (t + 1 - W + W) with (t + 1) by lia.
      * intros i Hi.
        destruct (Nat.eq_dec i (t + 1)) as [-> | Hne]; [exact Hlast|].
        apply Hr. lia.
    + exact Ht.
    + pose proof (pct_change_values_length s) as Hl.
      destruct (pct_change_values s); simpl in *; lia.
    + intros i Hi. apply Hr. lia.
Qed.

Lemma period_return_telescopes_witness :
  let data := mkDF [1; 2; 3; 4]%Z
                [("GSOX"%string, map Fin [qz 100; qz 110; qz 99; qz 105])] in
  wf_frame data /\ all_prices data
  /\ exists r,
       In ("GSOX"%string, r) (columns (returns data))
       /\ length r = 3
       /\ nth 2 (rolling_period_return r 2) NaN
          = Fin (qz 105 / qz 110 - 1).
Proof.
  intros data.
  assert (Hwf : wf_frame data) by (repeat constructor).
  assert (Hp : all_prices data) by (repeat constructor).
  split; [exact Hwf|]. split; [exact Hp|].
  apply (@period_return_telescopes data "GSOX"
           [qz 100; qz 110; qz 99; qz 105] 2 2 Hwf Hp);
    simpl; try lia. now left.
Defined.

(** ** Warm-up and symmetry of the rolling moments *)

Lemma calc_var_short (W : nat) (obs : list Qc) :
  length obs < W \/ length obs <= 1 -> calc_var W ddof obs = NaN.
Proof.
  intros H. unfold calc_var, ddof.
  destruct (Nat.leb_spec W (length obs)); [|reflexivity].
  destruct (Nat.ltb_spec 1 (length obs)); [lia | reflexivity].
Qed.

Lemma short_window_obs (a : list cell) (W t : nat) :
  t + 1 < W \/ W <= 1 ->
  length (fins (window_at a W t)) < W
  \/ length (fins (window_at a W t)) <= 1.
Proof.
  intros H. pose proof (fins_length_le (window_at a W t)) as Hf.
  destruct H as [H | H].
  - left. pose proof (window_at_short a t H). lia.
  - right. pose proof (window_at_length_le a W t). lia.
Qed.

Lemma rolling_var_warmup (x : list cell) (W t : nat) :
  t + 1 < W \/ W <= 1 -> nth t (rolling_var x W) NaN = NaN.
Proof.
  intros H. destruct (Nat.lt_ge_cases t (length x)) as [Ht | Ht].
  - unfold rolling_var.
    rewrite roll_nth by (unfold prep_values; now rewrite length_map).
    apply calc_var_short. now apply short_window_obs.
  - apply nth_overflow. now rewrite rolling_var_length.
Qed.

Lemma rolling_beta_warmup (y x : list cell) (W t : nat) :
  length y = length x ->
  t + 1 < W \/ W <= 1 -> nth t (rolling_beta y x W) NaN = NaN.
Proof.
  intros Hl H. destruct (Nat.lt_ge_cases t (length x)) as [Ht | Ht].
  - rewrite rolling_beta_nth by assumption.
    rewrite rolling_var_warmup by exact H. apply cell_div_nan_r.
  - apply nth_overflow. now rewrite rolling_beta_length.
Qed.

Lemma cell_sqrt_nan (sqrtq : Qc -> Qc) : cell_sqrt sqrtq NaN = NaN.
Proof. reflexivity. Qed.

Lemma rolling_corr_warmup (sqrtq : Qc -> Qc) (y x : list cell) (W t : nat) :
  length y = length x ->
  t + 1 < W \/ W <= 1 -> nth t (rolling_corr sqrtq y x W) NaN = NaN.
Proof.
  intros Hl H. destruct (Nat.lt_ge_cases t (length x)) as [Ht | Ht].
  - rewrite rolling_corr_nth by assumption. cbv zeta.
    rewrite (calc_var_short (W := W)
               (fins (window_at
                  (prep_values (fst (prep_binary y x))) W t)))
      by (now apply short_window_obs).
    now rewrite cell_mul_nan_l, cell_sqrt_nan, cell_div_nan_r.
  - apply nth_overflow. now rewrite rolling_corr_length.
Qed.

(** X5.  Rolling variance, beta and correlation have the warm-up of their
    window: the entries of the first [W-1] dates are missing, and with a
    window of 0 or 1 observation every entry is missing (a sample variance
    needs two observations). *)
Theorem rolling_risk_warmup (sqrtq : Qc -> Qc) (y x : list cell)
        (W t : nat) :
  length y = length x ->
  t + 1 < W \/ W <= 1 ->
  nth t (rolling_var x W) NaN = NaN
  /\ nth t (rolling_beta y x W) NaN = NaN
  /\ nth t (rolling_corr sqrtq y x W) NaN = NaN.
Proof.
  intros Hl H. split; [now apply rolling_var_warmup|].
  split; [now apply rolling_beta_warmup | now apply rolling_corr_warmup].
Qed.

Lemma rolling_risk_warmup_witness :
  let y := [Fin 1%Qc; Fin (qz 2); Fin (qz 4)] in
  let x := [Fin 1%Qc; Fin (qz 3); Fin (qz 2)] in
  length y = length x /\ (1 + 1 < 3 \/ 3 <= 1)
  /\ nth 1 (rolling_beta y x 3) NaN = NaN.
Proof.
  intros y x.
  assert (Hl : length y = length x) by reflexivity.
  assert (Hw : 1 + 1 < 3 \/ 3 <= 1) by (left; lia).
  split; [exact Hl|]. split; [exact Hw|].
  exact (proj1 (proj2 (@rolling_risk_warmup sqrt_floor y x 3 1 Hl Hw))).
Defined.

Lemma cell_mul_comm (a b : cell) : cell_mul a b = cell_mul b a.
Proof.
  destruct a as [| | |p], b as [| | |q]; try reflexivity.
  unfold cell_mul. f_equal. ring.
Qed.

Lemma cell_add_comm (a b : cell) : cell_add a b = cell_add b a.
Proof.
  destruct a as [| | |p], b as [| | |q]; try reflexivity.
  unfold cell_add. f_equal. ring.
Qed.

Lemma map2_comm (A B : Type) (f : A -> A -> B) (l m : list A) :
  (forall a b, f a b = f b a) -> map2 f l m = map2 f m l.
Proof.
  intros Hf. revert m. induction l as [|a l IH]; intros [|b m]; simpl;
    try reflexivity.
  now rewrite Hf, IH.
Qed.

Lemma cov_numerator_comm (xa ya : list cell) (W : nat) :
  cov_numerator xa ya W = cov_numerator ya xa W.
Proof.
  unfold cov_numerator.
  rewrite (map2_comm cell_mul xa ya cell_mul_comm).
  rewrite (map2_comm cell_add xa ya cell_add_comm).
  rewrite (map2_comm cell_mul (roll (calc_mean W) xa W)
                     (roll (calc_mean W) ya W) cell_mul_comm).
  reflexivity.
Qed.

(** X6.  Rolling covariance and rolling correlation do not depend on the
    order of their two series. *)
Theorem rolling_moments_symmetric (sqrtq : Qc -> Qc) (y x : list cell)
        (W : nat) :
  rolling_cov y x W = rolling_cov x y W
  /\ rolling_corr sqrtq y x W = rolling_corr sqrtq x y W.
Proof.
  unfold rolling_cov, rolling_corr, prep_binary. split.
  - apply cov_numerator_comm.
  - rewrite cov_numerator_comm. f_equal. f_equal.
    apply map2_comm, cell_mul_comm.
Qed.

(** ** Beta as a least-squares slope, and the bound of the correlation *)

(** X7.  Over a window of [W >= 2] dates on which asset and benchmark are
    numbers, the rolling covariance is the sum of the products of the
    deviations from the two window means over [W - 1], the rolling variance
    the sum of the squared deviations of the benchmark over [W - 1], and
    the rolling beta, when that sum is not zero, the least-squares slope
    [sum (y - my)(c - mc) / sum (c - mc)^2]. *)
Theorem rolling_beta_slope (y x : list cell) (W t : nat) (ys cs : list Qc) :
  length y = length x -> t < length x ->
  window_at y W t = map Fin ys -> window_at x W t = map Fin cs ->
  length ys = W -> length cs = W -> 2 <= W ->
  let my := (qsum ys / qn W)%Qc in
  let mc := (qsum cs / qn W)%Qc in
  let sxy := qsum (map2 (co_dev my mc) ys cs) in
  let sxx := qsum (map (sq_dev mc) cs) in
  nth t (rolling_cov y x W) NaN = Fin (sxy / qn (W - 1))
  /\ nth t (rolling_var x W) NaN = Fin (sxx / qn (W - 1))
  /\ (sxx <> 0%Qc -> nth t (rolling_beta y x W) NaN = Fin (sxy / sxx)).
Proof.
  intros Hlen Ht Hy Hx Hys Hcs HW my mc sxy sxx.
  pose proof (@rolling_cov_numbers y x W t ys cs Hlen Ht Hy Hx Hys Hcs HW) as Hcov.
  pose proof (@rolling_var_numbers x W t cs Ht Hx Hcs HW) as Hvar.
  fold my mc in Hcov. fold sxy in Hcov. fold mc in Hvar. fold sxx in Hvar.
  split; [exact Hcov|]. split; [exact Hvar|].
  intros Hne. rewrite rolling_beta_nth by assumption.
  rewrite Hcov, Hvar.
  assert (H2 : qn (W - 1) <> 0%Qc) by (apply qn_neq_0; lia).
  unfold cell_div.
  destruct (Qc_eq_dec (sxx / qn (W - 1)) 0) as [E | _].
  - apply Qcdiv_zero_inv in E; [contradiction | exact H2].
  - f_equal. field. split; assumption.
Qed.

Lemma rolling_beta_slope_witness :
  let y := [Fin 1%Qc; Fin (qz 2); Fin (qz 4)] in
  let x := [Fin 1%Qc; Fin (qz 3); Fin (qz 2)] in
  length y = length x /\ 2 < length x
  /\ window_at y 2 2 = map Fin [qz 2; qz 4]
  /\ window_at x 2 2 = map Fin [qz 3; qz 2]
  /\ nth 2 (rolling_beta y x 2) NaN = Fin (qz (-2)).
Proof.
  intros y x.
  assert (Hl : length y = length x) by reflexivity.
  assert (Ht : 2 < length x) by (simpl; lia).
  assert (Hy : window_at y 2 2 = map Fin [qz 2; qz 4]) by reflexivity.
  assert (Hx : window_at x 2 2 = map Fin [qz 3; qz 2]) by reflexivity.
  split; [exact Hl|]. split; [exact Ht|]. split; [exact Hy|].
  split; [exact Hx|].
  destruct (@rolling_beta_slope y x 2 2 [qz 2; qz 4] [qz 3; qz 2]
              Hl Ht Hy Hx eq_refl eq_refl (le_n 2)) as (_ & _ & Hb).
  rewrite Hb; [cell_compute | discriminate].
Defined.

Lemma qsum_residual_nonneg (my mc lam : Qc) (ys cs : list Qc) :
  (0 <= qsum (map2 (fun y c : Qc => ((y - my - lam * (c - mc))
                                    * (y - my - lam * (c - mc)))%Qc) ys cs))%Qc.
Proof.
  revert cs. induction ys as [|y ys IH]; intros [|c cs];
    cbn [map2 qsum fold_right]; try apply Qcle_refl.
  replace 0%Qc with (0 + 0)%Qc by ring.
  apply Qcplus_le_compat; [apply Qcsquare_nonneg | apply IH].
Qed.

Lemma qsum_residual_expand (my mc lam : Qc) (ys cs : list Qc) :
  length ys = length cs ->
  qsum (map2 (fun y c : Qc => ((y - my - lam * (c - mc))
                              * (y - my - lam * (c - mc)))%Qc) ys cs)
  = (qsum (map (sq_dev my) ys)
     - (1 + 1) * lam * qsum (map2 (co_dev my mc) ys cs)
     + lam * lam * qsum (map (sq_dev mc) cs))%Qc.
Proof.
  revert cs. induction ys as [|y ys IH]; intros [|c cs] H; simpl in H;
    try discriminate.
  - cbn [map2 map qsum fold_right]. ring.
  - assert (Hl : length ys = length cs) by lia.
    specialize (IH cs Hl). unfold qsum in *.
    cbn [map2 map fold_right]. rewrite IH.
    unfold sq_dev, co_dev. ring.
Qed.

(** Cauchy-Schwarz on the deviations of two windows from any two
    centres. *)
Lemma cauchy_schwarz_dev (my mc : Qc) (ys cs : list Qc) :
  length ys = length cs ->
  (qsum (map2 (co_dev my mc) ys cs) * qsum (map2 (co_dev my mc) ys cs)
   <= qsum (map (sq_dev my) ys) * qsum (map (sq_dev mc) cs))%Qc.
Proof.
  intros Hl.
  set (P := qsum (map2 (co_dev my mc) ys cs)).
  set (A := qsum (map (sq_dev my) ys)).
  set (B := qsum (map (sq_dev mc) cs)).
  assert (HB : (0 <= B)%Qc) by apply qsum_squares_nonneg.
  destruct (Qc_eq_dec B 0) as [E | NE].
  - assert (HP : P = 0%Qc).
    { unfold P. pose proof (qsum_squares_zero mc cs E) as Hall.
      clear - Hall Hl. revert cs Hl Hall.
      induction ys as [|y ys IH]; intros [|c cs] Hl Hall; simpl in Hl;
        try discriminate; [reflexivity|].
      inversion Hall as [|? ? Hc Hrest]; subst.
      cbn [map2 qsum fold_right].
      fold (qsum (map2 (co_dev my mc) ys cs)).
      rewrite (IH cs) by (auto; lia). unfold co_dev. ring. }
    rewrite HP, E. replace (0 * 0)%Qc with 0%Qc by ring.
    replace (A * 0)%Qc with 0%Qc by ring. apply Qcle_refl.
  - assert (HBpos : (0 < B)%Qc).
    { destruct (Qcle_lt_or_eq _ _ HB) as [H | H]; [exact H|].
      now elim NE. }
    pose proof (qsum_residual_nonneg my mc (P / B) ys cs) as Hres.
    rewrite (@qsum_residual_expand my mc (P / B) ys cs Hl) in Hres.
    fold P A B in Hres.
    assert (Hle : (P * P / B <= A)%Qc).
    { apply Qcle_minus_iff.
      replace (A + - (P * P / B))%Qc
        with (A - (1 + 1) * (P / B) * P + P / B * (P / B) * B)%Qc
        by (field; exact NE).
      exact Hres. }
    replace (P * P)%Qc with (P * P / B * B)%Qc by (field; exact NE).
    apply Qcmult_le_compat_r; [exact Hle | exact HB].
Qed.

Lemma Qcsquare_le_1 (r : Qc) : (r * r <= 1)%Qc -> (r <= 1)%Qc.
Proof.
  intros H. apply Qcnot_lt_le. intros Hlt.
  assert (Hpos : (0 < r)%Qc).
  { apply Qclt_trans with 1%Qc; [reflexivity | exact Hlt]. }
  assert (H1 : (1 * r < r * r)%Qc) by now apply Qcmult_lt_compat_r.
  replace (1 * r)%Qc with r in H1 by ring.
  apply (Qcle_not_lt _ _ H). now apply Qclt_trans with r.
Qed.

Lemma Qcdiv_gt_1 (l p : Qc) : (0 < p)%Qc -> (p < l)%Qc -> (1 < l / p)%Qc.
Proof.
  intros Hp Hl. apply Qcnot_le_lt. intros Hle.
  assert (Hne : p <> 0%Qc).
  { intros E. rewrite E in Hp. now apply (Qclt_not_eq _ _ Hp). }
  assert (H : (l / p * p <= 1 * p)%Qc).
  { apply Qcmult_le_compat_r; [exact Hle | now apply Qclt_le_weak]. }
  replace (l / p * p)%Qc with l in H by (field; exact Hne).
  replace (1 * p)%Qc with p in H by ring.
  exact (Qclt_not_le _ _ Hl H).
Qed.

Section CorrelationBound.
Import PrimFloat.

(** X8.  In exact arithmetic, over a window of [W >= 2] dates on which
    asset and benchmark are numbers: the product of the two rolling
    variances is not negative and bounds the square of the rolling
    covariance; the rolling correlation is the covariance over the root of
    that product (when the root is not zero), so it lies between -1 and 1
    whenever the root is not below the true root, and outside as soon as
    the square of the root is below the square of the covariance.  On
    binary64 floats the bound fails: the rolling correlation of 0.013,
    0.0131 with itself is above 1. *)
Theorem rolling_corr_bounded (sqrtq : Qc -> Qc) (y x : list cell)
        (W t : nat) (ys cs : list Qc) :
  length y = length x -> t < length x ->
  window_at y W t = map Fin ys -> window_at x W t = map Fin cs ->
  length ys = W -> length cs = W -> 2 <= W ->
  let my := (qsum ys / qn W)%Qc in
  let mc := (qsum cs / qn W)%Qc in
  let cov := (qsum (map2 (co_dev my mc) ys cs) / qn (W - 1))%Qc in
  let vy := (qsum (map (sq_dev my) ys) / qn (W - 1))%Qc in
  let vc := (qsum (map (sq_dev mc) cs) / qn (W - 1))%Qc in
  let s := sqrtq (vy * vc)%Qc in
  (0 <= vy * vc)%Qc
  /\ (cov * cov <= vy * vc)%Qc
  /\ (s <> 0%Qc ->
      nth t (rolling_corr sqrtq y x W) NaN = Fin (cov / s))
  /\ (s <> 0%Qc -> (vy * vc <= s * s)%Qc ->
      (- (1) <= cov / s)%Qc /\ (cov / s <= 1)%Qc)
  /\ (s <> 0%Qc -> (s * s < cov * cov)%Qc ->
      (1 < cov / s * (cov / s))%Qc)
  /\ (let r := [13 / 1000; 131 / 10000]%float in
      (1 <? F64.rolling_corr_last r r)%float = true).
Proof.
  intros Hlen Ht Hy Hx Hys Hcs HW my mc cov vy vc s.
  assert (Hl : length ys = length cs) by lia.
  assert (Hn0 : qn (W - 1) <> 0%Qc) by (apply qn_neq_0; lia).
  assert (Hprod : (0 <= vy * vc)%Qc).
  { replace 0%Qc with (0 * vc)%Qc by ring.
    apply Qcmult_le_compat_r; now apply window_var_nonneg. }
  assert (Hcs2 : (cov * cov <= vy * vc)%Qc).
  { pose proof (@cauchy_schwarz_dev my mc ys cs Hl) as HCS.
    assert (Hi : (0 <= / qn (W - 1) * / qn (W - 1))%Qc)
      by apply Qcsquare_nonneg.
    apply (Qcmult_le_compat_r _ _ _ HCS) in Hi.
    unfold cov, vy, vc.
    match goal with
    | H : (?a <= ?b)%Qc |- (?c <= ?d)%Qc =>
        replace c with a by (field; exact Hn0);
        replace d with b by (field; exact Hn0); exact H
    end. }
  assert (Hss : s <> 0%Qc -> (0 < s * s)%Qc).
  { intros Hroot.
    destruct (Qcle_lt_or_eq _ _ (Qcsquare_nonneg s)) as [H | H];
      [exact H|].
    symmetry in H. apply Qcmult_integral in H. tauto. }
  split; [exact Hprod|]. split; [exact Hcs2|]. split.
  { intros Hroot.
    rewrite (@rolling_corr_numbers sqrtq y x W t ys cs
               Hlen Ht Hy Hx Hys Hcs HW).
    cbv zeta. fold my mc. fold cov vy vc. fold s. unfold cell_div.
    destruct (Qc_eq_dec s 0); [contradiction | reflexivity]. }
  split.
  { intros Hroot Hup.
    assert (Hsq : (cov / s * (cov / s) <= 1)%Qc).
    { replace (cov / s * (cov / s))%Qc with (cov * cov / (s * s))%Qc
        by (field; exact Hroot).
      apply Qcdiv_le_1; [now apply Hss|].
      now apply Qcle_trans with (vy * vc)%Qc. }
    split.
    - assert (H : (- (cov / s) <= 1)%Qc).
      { apply Qcsquare_le_1.
        now replace (- (cov / s) * - (cov / s))%Qc
          with (cov / s * (cov / s))%Qc by ring. }
      apply Qcopp_le_compat in H.
      now replace (- - (cov / s))%Qc with (cov / s)%Qc in H by ring.
    - now apply Qcsquare_le_1. }
  split.
  { intros Hroot Hlow.
    replace (cov / s * (cov / s))%Qc with (cov * cov / (s * s))%Qc
      by (field; exact Hroot).
    apply Qcdiv_gt_1; [now apply Hss | exact Hlow]. }
  vm_compute. reflexivity.
Qed.

Lemma rolling_corr_bounded_witness :
  let y := [Fin 1%Qc; Fin (qz 2)] in
  let x := [Fin 1%Qc; Fin (qz 3)] in
  length y = length x /\ 1 < length x
  /\ window_at y 2 1 = map Fin [1%Qc; qz 2]
  /\ window_at x 2 1 = map Fin [1%Qc; qz 3]
  /\ nth 1 (rolling_corr sqrt_floor y x 2) NaN = Fin 1%Qc.
Proof.
  intros y x.
  assert (Hl : length y = length x) by reflexivity.
  assert (Ht : 1 < length x) by (simpl; lia).
  assert (Hy : window_at y 2 1 = map Fin [1%Qc; qz 2]) by reflexivity.
  assert (Hx : window_at x 2 1 = map Fin [1%Qc; qz 3]) by reflexivity.
  split; [exact Hl|]. split; [exact Ht|]. split; [exact Hy|].
  split; [exact Hx|].
  destruct (@rolling_corr_bounded sqrt_floor y x 2 1 [1%Qc; qz 2]
              [1%Qc; qz 3] Hl Ht Hy Hx eq_refl eq_refl (le_n 2))
    as (_ & _ & Hb & _).
  rewrite Hb; [cell_compute|].
  intros E. apply (f_equal this) in E. vm_compute in E. discriminate.
Defined.

End CorrelationBound.

(** ** From the aligned panel to the analytics *)

Lemma column_names_map_columns (f : list cell -> list cell)
      (df : DataFrame) :
  column_names (map_columns f df) = column_names df.
Proof.
  unfold column_names, map_columns. cbn [columns].
  rewrite map_map. reflexivity.
Qed.

Lemma column_names_take_rows (mask : list bool) (df : DataFrame) :
  column_names (take_rows mask df) = column_names df.
Proof.
  unfold column_names, take_rows. cbn [columns].
  rewrite map_map. reflexivity.
Qed.

Lemma column_names_sort_index (kind : sort_kind) (df : DataFrame) :
  column_names (sort_index kind df) = column_names df.
Proof.
  unfold column_names, sort_index. cbn [columns].
  rewrite map_map. reflexivity.
Qed.

Lemma column_names_concat (panel : list DataFrame) (joined : DataFrame) :
  concat_axis1 panel = Some joined ->
  column_names joined = flat_map column_names panel.
Proof.
  intros H. apply concat_axis1_some in H. cbv zeta in H. subst joined.
  unfold column_names. cbn [columns].
  generalize (union_indexes (map index panel)) as new_index. intros new_index.
  induction panel as [|o panel IH]; [reflexivity|].
  cbn [flat_map]. rewrite map_app, IH. f_equal.
  destruct (index_equals (index o) new_index); [reflexivity|].
  rewrite map_map. reflexivity.
Qed.

Lemma column_names_align (kind : sort_kind) (panel : list DataFrame)
      (data : DataFrame) :
  align kind panel = Some data ->
  column_names data = flat_map column_names panel.
Proof.
  unfold align, concat_sorted_unique.
  destruct (concat_axis1 panel) as [joined|] eqn:E; [|discriminate].
  intros [= <-]. unfold dropna_any, bfill, ffill.
  rewrite column_names_take_rows, !column_names_map_columns,
    column_names_take_rows, column_names_sort_index.
  now apply column_names_concat.
Qed.

Lemma align_wf (kind : sort_kind) (panel : list DataFrame)
      (data : DataFrame) :
  align kind panel = Some data -> wf_frame data.
Proof.
  unfold align, concat_sorted_unique.
  destruct (concat_axis1 panel) as [joined|]; [|discriminate].
  intros [= <-]. unfold dropna_any.
  apply take_rows_wf, fill_wf, take_rows_wf, sort_index_wf.
Qed.

Lemma column_names_returns (data : DataFrame) :
  column_names (returns data) = column_names data.
Proof.
  unfold returns, dropna_any, pct_change.
  now rewrite column_names_take_rows, column_names_map_columns.
Qed.

Lemma apply_columns_names (func : list cell -> option (list cell))
      (cols r : list (string * list cell)) :
  apply_columns func cols = Some r -> map fst r = map fst cols.
Proof.
  revert r. induction cols as [|[name s] cols IH]; intros r; simpl.
  - now intros [= <-].
  - destruct (func s); [|discriminate].
    destruct (apply_columns func cols) as [r'|]; [|discriminate].
    intros [= <-]. simpl. now rewrite (IH r').
Qed.

Lemma column_names_levels (data levels : DataFrame) :
  levels_rebased data = Some levels ->
  column_names levels = column_names data.
Proof.
  unfold levels_rebased, df_apply.
  destruct (empty data); [now intros [= <-]|].
  destruct (apply_columns rebase_series (columns data)) as [cols|] eqn:E;
    [|discriminate].
  intros [= <-]. unfold column_names. cbn [columns].
  now apply apply_columns_names with (func := rebase_series).
Qed.

(** Rebasing raises nothing on a well-formed panel. *)
Lemma levels_rebased_total (data : DataFrame) :
  wf_frame data -> exists levels, levels_rebased data = Some levels.
Proof.
  intros Hwf. unfold levels_rebased, df_apply.
  destruct (empty data) eqn:He; [now exists data|].
  unfold empty in He. apply orb_false_iff in He as [Hi _].
  apply Nat.eqb_neq in Hi.
  assert (H : exists cols,
             apply_columns rebase_series (columns data) = Some cols).
  { unfold wf_frame in Hwf. induction Hwf as [|[name s] cols Hc _ IH];
      simpl; [now exists []|].
    destruct IH as [r ->]. simpl in Hc.
    destruct s as [|v s]; [simpl in Hc; lia|]. simpl. now eexists. }
  destruct H as [cols ->]. now eexists.
Qed.

Lemma getcol_names (df : DataFrame) (name : string) :
  (In name (column_names df) -> exists v, getcol df name = Some v)
  /\ (~ In name (column_names df) -> getcol df name = None).
Proof.
  unfold column_names, getcol.
  induction (columns df) as [|[k v] cols [IH1 IH2]]; simpl.
  - split; [intros [] | reflexivity].
  - destruct (String.eqb name k) eqn:E.
    + split; [now exists v|]. apply String.eqb_eq in E. subst k.
      intros H. elim H. now left.
    + apply String.eqb_neq in E. split.
      * intros [H | H]; [now elim E | now apply IH1].
      * intros H. apply IH2. intros Hin. apply H. now right.
Qed.

Lemma build_analytics_missing (sqrtq : Qc -> Qc) (data : DataFrame)
      (name : string) :
  In name (map fst TICKERS) -> ~ In name (column_names data) ->
  build_analytics sqrtq data = None.
Proof.
  intros Hn Hmiss.
  assert (Hr : getcol (returns data) name = None).
  { apply getcol_names. now rewrite column_names_returns. }
  unfold build_analytics.
  destruct (levels_rebased data) as [levels|]; [|reflexivity].
  cbv zeta. unfold compute_pairwise_metrics.
  simpl in Hn.
  destruct Hn as [<- | [<- | [<- | [<- | []]]]]; rewrite Hr;
    repeat match goal with
           | |- context [match getcol ?d ?n with _ => _ end] =>
               destruct (getcol d n)
           | |- context [match drawdown_table ?l with _ => _ end] =>
               destruct (drawdown_table l)
           end; reflexivity.
Qed.

Lemma build_analytics_total (sqrtq : Qc -> Qc) (data : DataFrame) :
  wf_frame data ->
  (forall name, In name (map fst TICKERS) -> In name (column_names data)) ->
  exists a, build_analytics sqrtq data = Some a.
Proof.
  intros Hwf Hall.
  destruct (levels_rebased_total Hwf) as [levels HL].
  pose proof (column_names_levels _ HL) as HN.
  assert (Hr : forall name, In name (map fst TICKERS) ->
                 exists v, getcol (returns data) name = Some v).
  { intros name Hn. apply getcol_names.
    rewrite column_names_returns. now apply Hall. }
  assert (Hl : forall name, In name (map fst TICKERS) ->
                 exists v, getcol levels name = Some v).
  { intros name Hn. apply getcol_names. rewrite HN. now apply Hall. }
  destruct (Hr "GSOX"%string) as [r1 E1]; [simpl; tauto|].
  destruct (Hr "RGUSTSC"%string) as [r2 E2]; [simpl; tauto|].
  destruct (Hr "SPX"%string) as [r3 E3]; [simpl; tauto|].
  destruct (Hr "MXWO"%string) as [r4 E4]; [simpl; tauto|].
  destruct (Hl "GSOX"%string) as [l1 F1]; [simpl; tauto|].
  destruct (Hl "RGUSTSC"%string) as [l2 F2]; [simpl; tauto|].
  destruct (Hl "SPX"%string) as [l3 F3]; [simpl; tauto|].
  destruct (Hl "MXWO"%string) as [l4 F4]; [simpl; tauto|].
  unfold build_analytics. rewrite HL. cbv zeta.
  unfold compute_pairwise_metrics, drawdown_table.
  rewrite E1, E2, E3, E4, F1, F2, F3, F4. now eexists.
Qed.

Lemma usable_frames_names (raw : RawData) (names : list (string * string)) :
  flat_map column_names (usable_frames raw names)
  = map snd (filter (fun item => negb (no_data raw (fst item))) names).
Proof.
  induction names as [|[bbt short] names IH]; [reflexivity|].
  unfold usable_frames in *. cbn [flat_map filter fst snd].
  rewrite flat_map_app, IH. unfold no_data at 2.
  destruct (assoc bbt raw) as [[df|]|]; try reflexivity.
  destruct (empty df) eqn:He; [reflexivity|].
  destruct (select_value_column_single df short He) as [v ->].
  reflexivity.
Qed.

(** X9.  When [main] reaches the aligned panel, its columns are the short
    names of the tickers that returned data, in the order of [name_map].
    Rebasing it raises nothing.  The analytics that follow read all four
    columns by name: they are built when no ticker was skipped, and as soon
    as one was skipped the run ends with the KeyError of the missing
    column. *)
Theorem every_ticker_needed (kind : sort_kind) (sqrtq : Qc -> Qc)
        (raw : RawData) (data : DataFrame) :
  snd (aligned_panel kind raw) = Ok data ->
  wf_frame data
  /\ column_names data
     = map snd (filter (fun item => negb (no_data raw (fst item))) name_map)
  /\ (exists levels, levels_rebased data = Some levels)
  /\ ((exists bbt, In bbt (map fst name_map) /\ no_data raw bbt = true) ->
      build_analytics sqrtq data = None)
  /\ ((forall bbt, In bbt (map fst name_map) -> no_data raw bbt = false) ->
      exists a, build_analytics sqrtq data = Some a).
Proof.
  intros Hrun. unfold aligned_panel in Hrun.
  rewrite build_panel_spec in Hrun.
  destruct (usable_frames raw name_map) as [|f panel] eqn:Ep;
    [discriminate|].
  destruct (align kind (f :: panel)) as [d|] eqn:Ea; [|discriminate].
  cbn [snd] in Hrun. injection Hrun as ->.
  pose proof (align_wf _ _ Ea) as Hwf.
  assert (Hnames : column_names data
                   = map snd (filter (fun item =>
                                        negb (no_data raw (fst item)))
                                     name_map)).
  { rewrite (column_names_align _ _ Ea), <- Ep.
    apply usable_frames_names. }
  split; [exact Hwf|]. split; [exact Hnames|].
  split; [exact (levels_rebased_total Hwf)|]. split.
  - intros (bbt & Hin & Hno).
    assert (Hmiss : exists name, In name (map fst TICKERS)
                                 /\ ~ In name (column_names data)).
    { rewrite Hnames. clear - Hin Hno. simpl in Hin.
      destruct Hin as [<- | [<- | [<- | [<- | []]]]];
        [exists "GSOX"%string | exists "RGUSTSC"%string
         | exists "SPX"%string | exists "MXWO"%string];
        (split; [simpl; tauto|]);
        cbn [name_map TICKERS map filter fst snd]; rewrite Hno;
        cbn [negb]; intros Hc;
        repeat match type of Hc with
               | context [if ?b then _ else _] => destruct b
               end;
        simpl in Hc; intuition discriminate. }
    destruct Hmiss as (name & Hn & Hm).
    exact (@build_analytics_missing sqrtq data name Hn Hm).
  - intros Hall. apply build_analytics_total; [exact Hwf|].
    intros name Hn. rewrite Hnames.
    cbn [name_map TICKERS map filter fst snd].
    rewrite !Hall by (simpl; tauto). exact Hn.
Qed.

Lemma every_ticker_needed_witness :
  let px := fun idx vals => Some (mkDF idx [("PX_LAST"%string, vals)]) in
  let raw : RawData :=
    [("GSOX Index", px [1; 2; 3]%Z [Fin (qz 10); Fin (qz 11); Fin (qz 12)]);
     ("RGUSTSC Index", px [1; 2; 3]%Z [Fin (qz 20); Fin (qz 21); Fin (qz 22)]);
     ("SPX Index", px [1; 3]%Z [Fin (qz 30); Fin (qz 32)]);
     ("MXWO Index", None)]%string in
  let data :=
    mkDF [1; 2; 3]%Z
      [("GSOX", [Fin (qz 10); Fin (qz 11); Fin (qz 12)]);
       ("RGUSTSC", [Fin (qz 20); Fin (qz 21); Fin (qz 22)]);
       ("SPX", [Fin (qz 30); Fin (qz 30); Fin (qz 32)])]%string in
  snd (aligned_panel stable_argsort raw) = Ok data
  /\ column_names data = ["GSOX"; "RGUSTSC"; "SPX"]%string
  /\ build_analytics sqrt_floor data = None.
Proof.
  intros px raw data.
  assert (H : snd (aligned_panel stable_argsort raw) = Ok data)
    by reflexivity.
  split; [exact H|]. split; [reflexivity|].
  apply (@every_ticker_needed stable_argsort sqrt_floor raw data H).
  exists "MXWO Index"%string. split; [simpl; tauto | reflexivity].
Defined.

(** ** The first dates of the three tables *)

Lemma dict_set_In (k : string) (v : list cell)
      (d : list (string * list cell)) (c : string * list cell) :
  In c (dict_set k v d) -> c = (k, v) \/ In c d.
Proof.
  induction d as [|[k' v'] d IH]; simpl.
  - intros [<- | []]. now left.
  - destruct (String.eqb k k'); simpl.
    + intros [<- | H]; [now left | right; now right].
    + intros [<- | H]; [right; now left|].
      destruct (IH H) as [-> | H']; [now left | right; now right].
Qed.

Lemma dict_of_In (items : list (string * list cell))
      (c : string * list cell) :
  In c (dict_of items) -> In c items.
Proof.
  unfold dict_of.
  assert (H : forall d, In c (fold_left
                                (fun d kv => dict_set (fst kv) (snd kv) d)
                                items d) ->
                        In c items \/ In c d).
  { induction items as [|[k v] items IH]; intros d; simpl; [now right|].
    intros Hc. destruct (IH _ Hc) as [H | H]; [left; now right|].
    cbn [fst snd] in H. destruct (dict_set_In _ _ _ _ H) as [-> | H'];
      [left; now left | now right]. }
  intros Hc. destruct (H [] Hc) as [H' | []]. exact H'.
Qed.

Lemma take_mask_skip (A : Type) (k : nat) (mask : list bool) (l : list A) :
  (forall t, t < k -> nth t mask false = false) ->
  take_mask mask l = take_mask (skipn k mask) (skipn k l).
Proof.
  revert mask l. induction k as [|k IH]; intros mask l H; [reflexivity|].
  destruct mask as [|b mask]; [now destruct (skipn (S k) l)|].
  destruct l as [|x l]; [now destruct (skipn (S k) (b :: mask))|].
  assert (Hb : b = false) by (apply (H 0); lia). subst b.
  cbn [take_mask skipn]. apply IH. intros t Ht. apply (H (S t)). lia.
Qed.

(** A table built from columns that are all missing on the first [k]
    dates holds, after [dropna(how="all")], dates from position [k] on
    only. *)
Lemma dropna_all_start (idx : list Z) (items : list (string * list cell))
      (k : nat) :
  Forall (fun kv => length (snd kv) = length idx) items ->
  (forall kv t, In kv items -> t < k -> nth t (snd kv) NaN = NaN) ->
  let table := dropna_all (frame_of_dict idx items) in
  wf_frame table
  /\ (exists mask, index table = take_mask mask (skipn k idx))
  /\ length (index table) <= length idx - k.
Proof.
  intros Hlen Hnan table.
  assert (Hwf : wf_frame (frame_of_dict idx items)).
  { unfold wf_frame, frame_of_dict. cbn [index columns].
    apply Forall_forall. intros c Hc. apply dict_of_In in Hc.
    rewrite Forall_forall in Hlen. now apply Hlen. }
  assert (Hmask : forall t, t < k ->
            nth t (notna_any (frame_of_dict idx items)) false = false).
  { intros t Ht.
    destruct (Nat.lt_ge_cases t (length idx)) as [Hlt | Hge].
    - rewrite notna_any_nth by assumption.
      unfold frame_of_dict. cbn [columns].
      apply not_true_is_false. intros Hex.
      apply existsb_exists in Hex as (c & Hc & Hv).
      apply dict_of_In in Hc. rewrite (Hnan c t Hc Ht) in Hv.
      discriminate.
    - apply nth_overflow. now rewrite notna_any_length. }
  assert (Hidx : index table
                 = take_mask (skipn k (notna_any (frame_of_dict idx items)))
                             (skipn k idx)).
  { unfold table, dropna_all, take_rows. cbn [index].
    now apply take_mask_skip. }
  split; [unfold table, dropna_all; now apply take_rows_wf|].
  split; [eexists; exact Hidx|].
  rewrite Hidx.
  etransitivity; [apply take_mask_length_le|]. now rewrite length_skipn.
Qed.

(** X10.  The three tables of [compute_pairwise_metrics] are well formed
    and start late: the dates of the excess-return table are taken, in
    order, from the dates of [rets] after the first [ROLL_RET_WIN - 1], and
    those of the correlation and beta tables from the dates after the first
    [ROLL_RISK_WIN - 1].  A table of returns with fewer than 63 (126) rows
    gives an excess (correlation, beta) table without rows. *)
Theorem metrics_tables_start (sqrtq : Qc -> Qc) (rets : DataFrame)
        (asset bench_a bench_b : string) (ex corr beta : DataFrame) :
  wf_frame rets ->
  compute_pairwise_metrics sqrtq rets asset bench_a bench_b
  = Some (ex, corr, beta) ->
  let n := length (index rets) in
  (wf_frame ex /\ wf_frame corr /\ wf_frame beta)
  /\ (exists mask,
        index ex = take_mask mask (skipn (ROLL_RET_WIN - 1) (index rets)))
  /\ (exists mask,
        index corr = take_mask mask (skipn (ROLL_RISK_WIN - 1) (index rets)))
  /\ (exists mask,
        index beta = take_mask mask (skipn (ROLL_RISK_WIN - 1) (index rets)))
  /\ length (index ex) <= n - 62
  /\ length (index corr) <= n - 125
  /\ length (index beta) <= n - 125.
Proof.
  intros Hwf Hrun n. unfold compute_pairwise_metrics in Hrun.
  destruct (getcol rets asset) as [s|] eqn:Es; [|discriminate].
  destruct (getcol rets bench_a) as [sa|] eqn:Ea; [|discriminate].
  destruct (getcol rets bench_b) as [sb|] eqn:Eb; [|discriminate].
  pose proof (getcol_length _ Hwf Es) as Ls.
  pose proof (getcol_length _ Hwf Ea) as La.
  pose proof (getcol_length _ Hwf Eb) as Lb.
  unfold pairwise_metrics_of in Hrun. cbv zeta in Hrun.
  injection Hrun as <- <- <-.
  assert (Hsa : length s = length sa) by lia.
  assert (Hsb : length s = length sb) by lia.
  destruct (@dropna_all_start (index rets)
              [(excess_name asset bench_a,
                 series_sub (rolling_period_return s ROLL_RET_WIN)
                            (rolling_period_return sa ROLL_RET_WIN));
               (excess_name asset bench_b,
                 series_sub (rolling_period_return s ROLL_RET_WIN)
                            (rolling_period_return sb ROLL_RET_WIN))]
              (ROLL_RET_WIN - 1)) as (W1 & M1 & N1).
  { repeat constructor; cbn [snd]; unfold series_sub;
      rewrite map2_length, !rolling_period_return_length; lia. }
  { intros kv t Hkv Ht.
    assert (Hw : t + 1 < ROLL_RET_WIN) by (unfold ROLL_RET_WIN in *; lia).
    destruct (Nat.lt_ge_cases t (length (index rets))) as [Hlt | Hge].
    - destruct Hkv as [<- | [<- | []]]; cbn [snd];
        rewrite series_sub_nth
          by (rewrite rolling_period_return_length; lia);
        rewrite rolling_period_return_warmup by (assumption || lia);
        reflexivity.
    - apply nth_overflow.
      destruct Hkv as [<- | [<- | []]]; cbn [snd]; unfold series_sub;
        rewrite map2_length, !rolling_period_return_length; lia. }
  destruct (@dropna_all_start (index rets)
              [(corr_name asset bench_a,
                 rolling_corr sqrtq s sa ROLL_RISK_WIN);
               (corr_name asset bench_b,
                 rolling_corr sqrtq s sb ROLL_RISK_WIN)]
              (ROLL_RISK_WIN - 1)) as (W2 & M2 & N2).
  { repeat constructor; cbn [snd]; rewrite rolling_corr_length; lia. }
  { intros kv t Hkv Ht.
    assert (Hw : t + 1 < ROLL_RISK_WIN \/ ROLL_RISK_WIN <= 1)
      by (left; unfold ROLL_RISK_WIN in *; lia).
    destruct Hkv as [<- | [<- | []]]; cbn [snd];
      now apply rolling_corr_warmup. }
  destruct (@dropna_all_start (index rets)
              [(beta_name asset bench_a, rolling_beta s sa ROLL_RISK_WIN);
               (beta_name asset bench_b, rolling_beta s sb ROLL_RISK_WIN)]
              (ROLL_RISK_WIN - 1)) as (W3 & M3 & N3).
  { repeat constructor; cbn [snd]; rewrite rolling_beta_length; lia. }
  { intros kv t Hkv Ht.
    assert (Hw : t + 1 < ROLL_RISK_WIN \/ ROLL_RISK_WIN <= 1)
      by (left; unfold ROLL_RISK_WIN in *; lia).
    destruct Hkv as [<- | [<- | []]]; cbn [snd];
      now apply rolling_beta_warmup. }
  cbv zeta in W1, M1, N1, W2, M2, N2, W3, M3, N3.
  change (ROLL_RET_WIN - 1) with 62 in N1.
  change (ROLL_RISK_WIN - 1) with 125 in N2, N3.
  repeat split; assumption.
Qed.

Lemma metrics_tables_start_witness :
  let rets :=
    mkDF [2; 3]%Z
      [("GSOX", [Fin (qz 1); Fin (qz 2)]);
       ("SPX", [Fin (qz 3); Fin (qz 1)]);
       ("MXWO", [Fin (qz 2); Fin (qz 2)])]%string in
  wf_frame rets
  /\ exists ex corr beta,
      compute_pairwise_metrics sqrt_floor rets "GSOX" "SPX" "MXWO"
      = Some (ex, corr, beta)
      /\ index ex = [] /\ index corr = [] /\ index beta = [].
Proof.
  intros rets.
  assert (Hwf : wf_frame rets) by (repeat constructor).
  split; [exact Hwf|].
  destruct (compute_pairwise_metrics sqrt_floor rets "GSOX" "SPX" "MXWO")
    as [[[ex corr] beta]|] eqn:E; [|discriminate].
  exists ex, corr, beta. split; [reflexivity|].
  destruct (@metrics_tables_start sqrt_floor rets "GSOX" "SPX" "MXWO"
              ex corr beta Hwf E) as (_ & _ & _ & _ & N1 & N2 & N3).
  simpl in N1, N2, N3.
  repeat split; apply length_zero_iff_nil; lia.
Defined.

(** ** Drawdowns of rebased levels *)

Lemma Qcmult_pos_lt (k a b : Qc) : (0 < k)%Qc -> (a < b)%Qc -> (k * a < k * b)%Qc.
Proof.
  intros Hk H. rewrite (Qcmult_comm k a), (Qcmult_comm k b).
  now apply Qcmult_lt_compat_r.
Qed.

Lemma Qcmult_pos_le (k a b : Qc) :
  (0 < k)%Qc -> (a <= b)%Qc -> (k * a <= k * b)%Qc.
Proof.
  intros Hk H. rewrite (Qcmult_comm k a), (Qcmult_comm k b).
  apply Qcmult_le_compat_r; [exact H | now apply Qclt_le_weak].
Qed.

Lemma sign_of_scale (k q : Qc) : (0 < k)%Qc -> sign_of (k * q) = sign_of q.
Proof.
  intros Hk. unfold sign_of.
  destruct (Qc_dec 0 q) as [[Hlt | Hgt] | Heq].
  - pose proof (Qcmult_pos_lt Hk Hlt) as H.
    replace (k * 0)%Qc with 0%Qc in H by ring.
    assert (E1 : (0 ?= q)%Qc = Lt) by (now apply Qclt_alt).
    assert (E2 : (0 ?= k * q)%Qc = Lt) by (now apply Qclt_alt).
    now rewrite E1, E2.
  - pose proof (Qcmult_pos_lt Hk Hgt) as H.
    replace (k * 0)%Qc with 0%Qc in H by ring.
    assert (E1 : (0 ?= q)%Qc = Gt) by (now apply Qcgt_alt).
    assert (E2 : (0 ?= k * q)%Qc = Gt) by (now apply Qcgt_alt).
    now rewrite E1, E2.
  - subst q. now replace (k * 0)%Qc with 0%Qc by ring.
Qed.

Lemma cell_max_scale (k m q : Qc) :
  (0 < k)%Qc ->
  exists M, cell_max (Fin m) (Fin q) = Fin M
            /\ cell_max (Fin (k * m)) (Fin (k * q)) = Fin (k * M).
Proof.
  intros Hk. rewrite !cell_max_fin.
  destruct (Qclt_le_dec q m) as [Hlt | Hle];
    destruct (Qclt_le_dec (k * q) (k * m)) as [Hlt' | Hle'];
    eexists; split; try reflexivity.
  - pose proof (Qcmult_pos_lt Hk Hlt) as H.
    f_equal. apply Qcle_antisym; [now apply Qclt_le_weak | exact Hle'].
  - pose proof (Qcmult_pos_le Hk Hle) as H.
    elim (Qclt_not_le _ _ Hlt' H).
Qed.

Lemma cell_div_scale (k q M : Qc) :
  (0 < k)%Qc ->
  cell_div (Fin (k * q)) (Fin (k * M)) = cell_div (Fin q) (Fin M).
Proof.
  intros Hk.
  assert (Hk0 : k <> 0%Qc).
  { intros E. rewrite E in Hk. now apply (Qclt_not_eq _ _ Hk). }
  unfold cell_div.
  destruct (Qc_eq_dec M 0) as [E | NE].
  - subst M. replace (k * 0)%Qc with 0%Qc by ring.
    destruct (Qc_eq_dec 0 0) as [_ | H]; [|now elim H].
    now rewrite sign_of_scale.
  - destruct (Qc_eq_dec (k * M) 0) as [E | _].
    + apply Qcmult_integral in E. tauto.
    + f_equal. field. split; assumption.
Qed.

Lemma accumulate_from_scale (k : Qc) (qs : list Qc) (m : Qc) :
  (0 < k)%Qc ->
  map2 cell_div (map Fin (map (Qcmult k) qs))
       (accumulate_from (Fin (k * m)) (map Fin (map (Qcmult k) qs)))
  = map2 cell_div (map Fin qs) (accumulate_from (Fin m) (map Fin qs)).
Proof.
  intros Hk. revert m. induction qs as [|q qs IH]; intros m; [reflexivity|].
  cbn [map accumulate_from]. cbv zeta.
  destruct (cell_max_scale m q Hk) as (M & E1 & E2).
  rewrite E1, E2. cbn [map2]. rewrite IH. f_equal.
  now apply cell_div_scale.
Qed.

(** Multiplying a series of numbers by a positive factor leaves its
    drawdowns unchanged. *)
Lemma drawdown_scale (k : Qc) (qs : list Qc) :
  (0 < k)%Qc ->
  drawdown (map Fin (map (Qcmult k) qs)) = drawdown (map Fin qs).
Proof.
  intros Hk. unfold drawdown. cbv zeta.
  rewrite !cummax_complete by apply forallb_notna_fin.
  f_equal. destruct qs as [|q qs]; [reflexivity|].
  cbn [map maximum_accumulate map2]. f_equal.
  - now apply cell_div_scale.
  - now apply accumulate_from_scale.
Qed.

(** X11.  For a column of numbers that starts above zero, rebasing to 100
    succeeds and changes no drawdown: the table [dd], computed on the
    rebased levels, holds the drawdowns of the prices themselves. *)
Theorem drawdown_of_rebased (q : Qc) (p : list Qc) :
  (0 < q)%Qc ->
  exists rebased,
    rebase_series (map Fin (q :: p)) = Some rebased
    /\ hd NaN rebased = Fin (qz 100)
    /\ drawdown rebased = drawdown (map Fin (q :: p)).
Proof.
  intros Hq.
  assert (Hq0 : q <> 0%Qc).
  { intros E. rewrite E in Hq. now apply (Qclt_not_eq _ _ Hq). }
  assert (Hk : (0 < qz 100 / q)%Qc).
  { apply Qcnot_le_lt. intros Hle.
    assert (H : (qz 100 / q * q <= 0 * q)%Qc).
    { apply Qcmult_le_compat_r; [exact Hle | now apply Qclt_le_weak]. }
    replace (qz 100 / q * q)%Qc with (qz 100) in H by (field; exact Hq0).
    replace (0 * q)%Qc with 0%Qc in H by ring.
    revert H. apply Qclt_not_le. reflexivity. }
  assert (Hreb : rebase_series (map Fin (q :: p))
                 = Some (map Fin (map (Qcmult (qz 100 / q)) (q :: p)))).
  { unfold rebase_series.
    change (iloc0 (map Fin (q :: p))) with (Some (Fin q)). cbv iota.
    f_equal. rewrite !map_map. apply map_ext. intros v.
    unfold cell_div. destruct (Qc_eq_dec q 0) as [E | _]; [contradiction|].
    unfold cell_mul. f_equal. field. exact Hq0. }
  eexists. split; [exact Hreb|]. split.
  - cbn [map hd]. f_equal. field. exact Hq0.
  - now apply drawdown_scale.
Qed.

Lemma drawdown_of_rebased_witness :
  (0 < qz 50)%Qc
  /\ exists rebased,
      rebase_series (map Fin [qz 50; qz 60; qz 45]) = Some rebased
      /\ drawdown rebased = drawdown (map Fin [qz 50; qz 60; qz 45]).
Proof.
  assert (H : (0 < qz 50)%Qc) by reflexivity.
  split; [exact H|].
  destruct (@drawdown_of_rebased (qz 50) [qz 60; qz 45] H)
    as (rebased & E & _ & D).
  exists rebased. split; [exact E | exact D].
Defined.

(** ** Alignment of frames that share one calendar *)

Lemma index_equals_refl (a : list Z) : index_equals a a = true.
Proof.
  unfold index_equals. now destruct (list_eq_dec Z.eq_dec a a).
Qed.

Lemma union_indexes_same (idx : list Z) (indexes : list (list Z)) :
  indexes <> [] -> Forall (fun i => i = idx) indexes ->
  union_indexes indexes = idx.
Proof.
  intros Hne H. destruct indexes as [|first rest]; [now elim Hne|].
  inversion H as [|? ? -> Hrest]; subst. simpl. clear H Hne.
  induction Hrest as [|i rest -> _ IH]; simpl; [reflexivity|].
  unfold index_union at 2. now rewrite index_equals_refl, orb_true_r.
Qed.

Lemma concat_shared_index (idx : list Z) (panel : list DataFrame) :
  panel <> [] -> Forall (fun df => index df = idx) panel ->
  concat_axis1 panel = Some (mkDF idx (flat_map columns panel)).
Proof.
  intros Hne H.
  assert (Hu : union_indexes (map index panel) = idx).
  { apply union_indexes_same.
    - destruct panel; [now elim Hne | discriminate].
    - now rewrite Forall_map. }
  unfold concat_axis1. destruct panel as [|o panel]; [now elim Hne|].
  rewrite Hu.
  assert (Hall : forallb (fun f => index_equals (index f) idx
                                   || is_unique (index f)) (o :: panel)
                 = true).
  { apply forallb_forall. intros f Hf. rewrite Forall_forall in H.
    now rewrite (H f Hf), index_equals_refl. }
  rewrite Hall. do 2 f_equal.
  clear - H. induction H as [|f l Hf _ IH]; [reflexivity|].
  cbn [flat_map]. now rewrite IH, Hf, index_equals_refl.
Qed.

(** Sorting leaves a frame with ascending dates as it is. *)
Lemma sort_index_of_sorted (kind : sort_kind) (df : DataFrame) :
  wf_frame df -> StronglySorted Z.le (index df) -> sort_index kind df = df.
Proof.
  intros Hwf Hs. destruct df as [idx cols]. unfold sort_index, sort_order.
  cbn [index columns] in *.
  rewrite (proj2 (is_monotonic_sorted idx) Hs).
  f_equal; [now apply map_nth_seq_id|].
  unfold wf_frame in Hwf. cbn [index columns] in Hwf.
  induction Hwf as [|[name s] cols Hc _ IH]; [reflexivity|].
  cbn [map fst snd] in *. rewrite IH. do 2 f_equal.
  now apply map_nth_seq_id.
Qed.

Lemma strictly_sorted_le (l : list Z) :
  StronglySorted Z.lt l -> StronglySorted Z.le l.
Proof.
  induction 1 as [|d l Hl IH Hd]; constructor; [exact IH|].
  eapply Forall_impl; [|exact Hd]. intros e He. simpl in He. lia.
Qed.

Lemma strictly_sorted_nth (l : list Z) (j i : nat) :
  StronglySorted Z.lt l -> j < i -> i < length l ->
  (nth j l 0 < nth i l 0)%Z.
Proof.
  intros H. revert j i. induction H as [|d l Hl IH Hd]; intros j i Hj Hi;
    simpl in Hi; [lia|].
  destruct i as [|i]; [lia|]. destruct j as [|j]; simpl.
  - rewrite Forall_forall in Hd. apply Hd. apply nth_In. lia.
  - apply IH; lia.
Qed.

Lemma no_duplicate_dates (l : list Z) :
  StronglySorted Z.lt l ->
  forallb (fun b => b) (map negb (duplicated_first l)) = true.
Proof.
  intros H. apply forallb_nth_true. intros t Ht.
  rewrite length_map in Ht. unfold duplicated_first in *.
  rewrite duplicated_from_length in Ht.
  rewrite nth_map_in with (da := false)
    by (now rewrite duplicated_from_length).
  destruct (nth t (duplicated_from [] l) false) eqn:E; [|reflexivity].
  apply duplicated_from_nth in E; [|exact Ht].
  destruct E as [[] | (j & Hj & Heq)].
  pose proof (strictly_sorted_nth H Hj Ht). lia.
Qed.

Lemma bfill_values_complete (s : list cell) :
  forallb notna s = true -> bfill_values s = s.
Proof.
  induction s as [|x s IH]; intros H; [reflexivity|].
  cbn [forallb] in H. apply andb_true_iff in H as [Hx Hs].
  cbn [bfill_values]. cbv zeta. rewrite (IH Hs).
  unfold notna in Hx. now destruct (isna x).
Qed.

Lemma fill_of_complete (df : DataFrame) :
  complete df -> bfill (ffill df) = df.
Proof.
  intros H. destruct df as [idx cols]. unfold bfill, ffill, map_columns.
  cbn [index columns] in *. f_equal. unfold complete in H.
  cbn [columns] in H. rewrite map_map. cbn [fst snd].
  induction H as [|[name s] cols Hc _ IH]; [reflexivity|].
  cbn [map fst snd] in *. rewrite IH.
  now rewrite (ffill_values_complete _ Hc), (bfill_values_complete _ Hc).
Qed.

Lemma dropna_any_of_complete (df : DataFrame) :
  wf_frame df -> complete df -> dropna_any df = df.
Proof.
  intros Hwf Hc. unfold dropna_any. apply take_rows_all; [exact Hwf| |].
  - now apply notna_all_length.
  - apply forallb_nth_true. intros t Ht.
    rewrite notna_all_length in Ht by exact Hwf.
    rewrite notna_all_nth by assumption.
    apply forallb_forall. intros c Hin.
    unfold complete in Hc. rewrite Forall_forall in Hc.
    pose proof (Hc c Hin) as Hcol.
    rewrite forallb_forall in Hcol. apply Hcol. apply nth_In.
    unfold wf_frame in Hwf. rewrite Forall_forall in Hwf.
    rewrite (Hwf c Hin). exact Ht.
Qed.

(** X12.  When every frame of the panel has the same strictly ascending
    dates and no missing cell, alignment changes nothing: the aligned
    panel has those dates and the columns of the frames side by side, with
    their values as given. *)
Theorem align_shared_calendar (kind : sort_kind) (idx : list Z)
        (panel : list DataFrame) :
  panel <> [] -> StronglySorted Z.lt idx ->
  Forall (fun df => index df = idx /\ wf_frame df /\ complete df) panel ->
  align kind panel = Some (mkDF idx (flat_map columns panel)).
Proof.
  intros Hne Hs H.
  assert (Hidx : Forall (fun df => index df = idx) panel).
  { eapply Forall_impl; [|exact H]. now intros df (E & _). }
  set (joined := mkDF idx (flat_map columns panel)).
  assert (Hwf : wf_frame joined).
  { unfold wf_frame, joined. cbn [index columns].
    apply Forall_forall. intros c Hc.
    apply in_flat_map in Hc as (df & Hdf & Hc).
    rewrite Forall_forall in H. destruct (H df Hdf) as (E & Hw & _).
    unfold wf_frame in Hw. rewrite Forall_forall in Hw.
    rewrite (Hw c Hc). now rewrite E. }
  assert (Hcomplete : complete joined).
  { unfold complete, joined. cbn [columns].
    apply Forall_forall. intros c Hc.
    apply in_flat_map in Hc as (df & Hdf & Hc).
    rewrite Forall_forall in H. destruct (H df Hdf) as (_ & _ & Hcp).
    unfold complete in Hcp. rewrite Forall_forall in Hcp.
    now apply Hcp. }
  unfold align, concat_sorted_unique.
  rewrite (concat_shared_index Hne Hidx). fold joined.
  rewrite (sort_index_of_sorted kind Hwf)
    by (now apply strictly_sorted_le).
  rewrite take_rows_all.
  - now rewrite (fill_of_complete Hcomplete), (dropna_any_of_complete Hwf).
  - exact Hwf.
  - unfold joined, duplicated_first. cbn [index].
    now rewrite length_map, duplicated_from_length.
  - now apply no_duplicate_dates.
Qed.

Lemma align_shared_calendar_witness :
  let idx := [1; 2; 4]%Z in
  let a := mkDF idx [("GSOX"%string, [Fin (qz 10); Fin (qz 11); Fin (qz 9)])] in
  let b := mkDF idx [("SPX"%string, [Fin (qz 30); Fin (qz 31); Fin (qz 32)])] in
  StronglySorted Z.lt idx
  /\ align stable_argsort [a; b] = Some (mkDF idx (columns a ++ columns b)).
Proof.
  intros idx a b.
  assert (Hs : StronglySorted Z.lt idx).
  { repeat constructor; lia. }
  split; [exact Hs|].
  assert (Hne : [a; b] <> []) by discriminate.
  assert (H : Forall (fun df => index df = idx /\ wf_frame df /\ complete df)
                     [a; b]).
  { repeat constructor. }
  exact (@align_shared_calendar stable_argsort idx [a; b] Hne Hs H).
Defined.
